(** * OS-NVR media core: a shallow embedding of the Go sources

    The development follows the packages of the repository:

    - [GoStrings]  the pieces of Go's [strings] and [strconv] the code calls;
    - [Ffmpeg]     [nvr/pkg/ffmpeg]: the process supervisor and the
                   keyframe-duration parser;
    - [Doods]      [nvr/addons/doods]: the detection bridge;
    - [Video]      [nvr/pkg/video]: the path manager;
    - [Gortsplib]  [nvr/pkg/video/gortsplib]: the RTP fan-out stream;
    - [Nvr]        [nvr]: the hooks that the addons register.

    Go strings are byte sequences, modelled as [string] (a list of [ascii]
    bytes).  Go's [int], [int64] and [time.Duration] are 64-bit signed
    integers, modelled as [Z] with the wrap-around written out where the
    code computes with them. *)

From Stdlib Require Import ZArith Lia Bool List Ascii String.
From Stdlib Require Import Floats.SpecFloat.
From Stdlib Require Reals Lra.
From stdpp Require Import base option list strings gmap fin_maps.

Local Open Scope string_scope.
Local Open Scope Z_scope.

(** ** Outcomes of fallible Go functions

    A Go function with an [error] result returns [(v, nil)] or
    [(zero, err)]; a failed index or slice expression panics, which is
    neither. *)

Inductive result (E A : Type) : Type :=
| Ok (a : A)
| Err (e : E)
| Panic.
Arguments Ok {E A} a.
Arguments Err {E A} e.
Arguments Panic {E A}.

Definition is_Ok {E A} (r : result E A) : bool :=
  match r with Ok _ => true | _ => false end.

Definition is_Err {E A} (r : result E A) : bool :=
  match r with Err _ => true | _ => false end.

(** 64-bit two's complement wrap-around of Go's [int] / [int64]. *)
Definition wrap64 (z : Z) : Z := (z + 2^63) mod 2^64 - 2^63.

Definition minInt64 : Z := - 2^63.
Definition maxInt64 : Z := 2^63 - 1.

(* ================================================================= *)
(** ** Go's [strings] and [strconv] *)

Module GoStrings.

Definition byte_of (c : ascii) : N := N_of_ascii c.

(** [strings.asciiSpace]: tab, newline, vertical tab, form feed,
    carriage return and space. *)
Definition asciiSpace (c : ascii) : bool :=
  let n := byte_of c in
  ((9 <=? n) && (n <=? 13) || (n =? 32))%N.

(** UTF-8 encodings of the non-ASCII runes for which [unicode.IsSpace]
    holds: U+0085, U+00A0, U+1680, U+2000..U+200A, U+2028, U+2029,
    U+202F, U+205F, U+3000. *)
Definition bytes (l : list N) : string :=
  string_of_list_ascii (map ascii_of_N l).

Definition unicodeSpaceBytes : list (list N) :=
  ([ [194; 133]; [194; 160]; [225; 154; 128] ]
     ++ map (fun k => [226; 128; k])
            [128; 129; 130; 131; 132; 133; 134; 135; 136; 137; 138]
     ++ [ [226; 128; 168]; [226; 128; 169]; [226; 128; 175];
          [226; 129; 159]; [227; 128; 128] ])%N%list.

Definition unicodeSpaces : list string := map bytes unicodeSpaceBytes.

Fixpoint strip_prefix (p s : string) : option string :=
  match p, s with
  | EmptyString, _ => Some s
  | String a p', String b s' =>
      if Ascii.eqb a b then strip_prefix p' s' else None
  | String _ _, EmptyString => None
  end.

Fixpoint strip_any (ps : list string) (s : string) : option string :=
  match ps with
  | [] => None
  | p :: ps' =>
      match strip_prefix p s with
      | Some r => Some r
      | None => strip_any ps' s
      end
  end.

(** One leading white-space rune removed, if there is one. *)
Definition strip_space (multi : list string) (s : string) : option string :=
  match s with
  | EmptyString => None
  | String c s' => if asciiSpace c then Some s' else strip_any multi s
  end.

Fixpoint trim_left_fuel (multi : list string) (fuel : nat) (s : string) : string :=
  match fuel with
  | O => s
  | S fuel' =>
      match strip_space multi s with
      | Some s' => trim_left_fuel multi fuel' s'
      | None => s
      end
  end.

(** [strings.TrimLeftFunc(s, unicode.IsSpace)]; every step removes at
    least one byte, so [length s] steps are enough. *)
Definition TrimLeft (s : string) : string :=
  trim_left_fuel unicodeSpaces (String.length s) s.

Definition rev_string (s : string) : string :=
  string_of_list_ascii (rev (list_ascii_of_string s)).

(** [strings.TrimRightFunc(s, unicode.IsSpace)]: the last rune is decoded
    backwards; a white-space rune is last exactly when its encoding is a
    suffix. *)
Definition TrimRight (s : string) : string :=
  rev_string
    (trim_left_fuel (map rev_string unicodeSpaces) (String.length s) (rev_string s)).

(** [strings.TrimSpace]. *)
Definition TrimSpace (s : string) : string := TrimRight (TrimLeft s).

(** [strings.Split(s, sep)] for a one-byte separator: the fields between
    the separators, never an empty list. *)
Fixpoint Split (sep : ascii) (s : string) : list string :=
  match s with
  | EmptyString => [EmptyString]
  | String c s' =>
      if Ascii.eqb c sep then EmptyString :: Split sep s'
      else
        match Split sep s' with
        | [] => [String c EmptyString]
        | f :: fs => String c f :: fs
        end
  end.

(** [strings.ReplaceAll(s, old, "")] for a one-byte [old]. *)
Fixpoint RemoveAll (old : ascii) (s : string) : string :=
  match s with
  | EmptyString => EmptyString
  | String c s' =>
      if Ascii.eqb c old then RemoveAll old s' else String c (RemoveAll old s')
  end.

(** The slice expression [s[lo:hi]]; [None] is the run-time panic for
    bounds out of range. *)
Definition slice (s : string) (lo hi : nat) : option string :=
  if (lo <=? hi)%nat && (hi <=? String.length s)%nat
  then Some (substring lo (hi - lo) s)
  else None.

Definition digit_of (c : ascii) : option Z :=
  let n := byte_of c in
  if ((48 <=? n) && (n <=? 57))%N then Some (Z.of_N n - 48) else None.

Fixpoint digits_value (acc : Z) (s : string) : option Z :=
  match s with
  | EmptyString => Some acc
  | String c s' =>
      match digit_of c with
      | Some d => digits_value (10 * acc + d) s'
      | None => None
      end
  end.

(** An unsigned decimal numeral with at least one digit. *)
Definition decimal (s : string) : option Z :=
  match s with
  | EmptyString => None
  | _ => digits_value 0 s
  end.

(** [strconv.Atoi]: an optional sign, decimal digits, and a value that
    fits [int]; everything else is an error ([None]). *)
Definition Atoi (s : string) : option Z :=
  let signed :=
    match s with
    | String "-" s' => option_map Z.opp (decimal s')
    | String "+" s' => decimal s'
    | _ => decimal s
    end in
  match signed with
  | Some v => if (minInt64 <=? v) && (v <=? maxInt64) then Some v else None
  | None => None
  end.

Fixpoint digits_of_pos_fuel (fuel : nat) (n : Z) (acc : string) : string :=
  match fuel with
  | O => acc
  | S fuel' =>
      let acc' := String (ascii_of_N (Z.to_N (48 + n mod 10))) acc in
      if n <? 10 then acc' else digits_of_pos_fuel fuel' (n / 10) acc'
  end.

(** [strconv.Itoa]. *)
Definition Itoa (n : Z) : string :=
  if n <? 0 then String "-" (digits_of_pos_fuel 20 (- n) EmptyString)
  else digits_of_pos_fuel 20 n EmptyString.

End GoStrings.

(* ================================================================= *)
(** ** [nvr/pkg/ffmpeg]: keyframe duration *)

Module Ffmpeg.
Import GoStrings.

(** [time.Duration] counts nanoseconds in an [int64]. *)
Definition Duration := Z.
Definition Millisecond : Duration := 1000000.
Definition Second : Duration := 1000000000.

Inductive kfError : Type :=
| ErrReadFile (path : string)
| ErrTooFewLines
| ErrInvalidLine
| ErrAtoi (s : string).

(** The file system as [ioutil.ReadFile] sees it. *)
Definition ReadFile (fs : gmap string string) (path : string)
  : result kfError string :=
  match fs !! path with
  | Some content => Ok content
  | None => Err (ErrReadFile path)
  end.

Definition newline : ascii := "010"%char.

(** The body of [getKeyframeDuration] once the file is read. *)
Definition keyframeDurationOf (m3u8 : string) : result kfError Duration :=
  let lines := Split newline (TrimSpace m3u8) in
  if (length lines <? 2)%nat then Err ErrTooFewLines
  else
    match lines !! (length lines - 2)%nat with
    | None => Panic
    | Some keyframeLine =>
        let keyframeLine := RemoveAll "." keyframeLine in
        if (String.length keyframeLine <? 12)%nat then Err ErrInvalidLine
        else
          match slice keyframeLine 8 12 with
          | None => Panic
          | Some digits =>
              match Atoi digits with
              | None => Err (ErrAtoi digits)
              | Some keyframeInterval =>
                  Ok (wrap64 (keyframeInterval * Millisecond))
              end
          end
    end.

Definition getKeyframeDuration (fs : gmap string string) (hlsPath : string)
  : result kfError Duration :=
  match ReadFile fs hlsPath with
  | Ok m3u8 => keyframeDurationOf m3u8
  | Err e => Err e
  | Panic => Panic
  end.

(** *** The process supervisor *)

Definition Time := Z.

(** The errors [cmd.Start] and [cmd.Wait] return, with the text of their
    [Error()] method: an [*exec.ExitError] prints its process state. *)
Inductive goError : Type :=
| ExitError (status : Z)
| SignalError (sig : string)
| OtherError (msg : string).

Definition Error (e : goError) : string :=
  match e with
  | ExitError status => "exit status " ++ Itoa status
  | SignalError sig => "signal: " ++ sig
  | OtherError msg => msg
  end.

Record process : Type := { timeout : Duration }.

Definition NewProcess : process := {| timeout := 1000 * Millisecond |}.

Definition SetTimeout (p : process) (timeout : Duration) : process :=
  {| timeout := timeout |}.

Inductive signal : Type := Interrupt | Kill.

(** The child process, as the supervisor meets it: whether [cmd.Start]
    fails, when the child exits if no signal reaches it, how long after
    [os.Interrupt] it exits (if it reacts at all), how long after
    [os.Kill] it is gone, and what [cmd.Wait] then returns. *)
Record child : Type := {
  startErr : option goError;
  exitsAt : option Time;
  afterInterrupt : option Duration;
  afterKill : Duration;
  waitErr : option goError
}.

(** A signal sent by the supervisor, or [p.done] closed once [cmd.Wait]
    has returned, each with its time. *)
Inductive event : Type :=
| Signalled (time : Time) (s : signal)
| Exited (time : Time).

Definition earliest (a b : option Time) : option Time :=
  match a, b with
  | Some x, Some y => Some (Z.min x y)
  | Some x, None => Some x
  | None, _ => b
  end.

(** [stop], entered at time [now].  [time.After(d)] fires [d] later, at
    once for [d <= 0]; when both channels of the [select] are ready Go
    picks either, [tie] says which. *)
Definition stop (p : process) (ch : child) (now : Time) (tie : bool)
  : list event * Time :=
  (* p.cmd.Process.Signal(os.Interrupt) *)
  let done :=
    earliest (exitsAt ch)
             (option_map (fun d => now + Z.max 0 d) (afterInterrupt ch)) in
  let timer := now + Z.max 0 (timeout p) in
  let gone := timer + Z.max 0 (afterKill ch) in
  match done with
  | Some e =>
      if (e <? timer) || ((e =? timer) && tie)
      then (* case <-p.done *)
        ([Signalled now Interrupt], e)
      else (* case <-time.After(p.timeout): Signal(os.Kill); <-p.done *)
        ([Signalled now Interrupt; Signalled timer Kill], Z.min e gone)
  | None => ([Signalled now Interrupt; Signalled timer Kill], gone)
  end.

(** When the watcher goroutine of [Start] calls [stop], if it does: its
    [select] takes [ctx.Done()] when the context is done before [p.done]
    is closed. *)
Definition stopCalledAt (ch : child) (ctxDoneAt : option Time) (t0 : Time)
  (tie : bool) : option Time :=
  match ctxDoneAt with
  | None => None
  | Some c =>
      let c := Z.max t0 c in
      match exitsAt ch with
      | Some e => if (c <? e) || ((c =? e) && tie) then Some c else None
      | None => Some c
      end
  end.

(** [Start], called at time [t0] under a context that is done at
    [ctxDoneAt] (never, for [None]).  The result is the signals sent and
    the exit seen, and the error returned; [None] when [cmd.Wait] never
    returns. *)
Definition Start (p : process) (ch : child) (ctxDoneAt : option Time)
  (t0 : Time) (tieWatch tieStop : bool)
  : option (list event * option goError) :=
  match startErr ch with
  | Some err => Some ([], Some err)
  | None =>
      let run :=
        match stopCalledAt ch ctxDoneAt t0 tieWatch with
        | Some now =>
            let '(signals, e) := stop p ch now tieStop in
            Some (signals ++ [Exited e])%list
        | None =>
            match exitsAt ch with
            | Some e => Some [Exited e]
            | None => None
            end
        end in
      match run with
      | None => None
      | Some trace =>
          (* err := p.cmd.Wait(); close(p.done) *)
          let err := waitErr ch in
          Some (trace,
                match err with
                | Some e =>
                    if String.eqb (Error e) "exit status 255" then None
                    else Some e
                | None => None
                end)
      end
  end.

(** *** The image mask *)

(** Go's [int] arithmetic: sums, differences and products wrap around, the
    quotient truncates toward zero, and a zero divisor is a run-time
    panic ([None]). *)
Definition intAdd (a b : Z) : Z := wrap64 (a + b).
Definition intSub (a b : Z) : Z := wrap64 (a - b).
Definition intMul (a b : Z) : Z := wrap64 (a * b).
Definition intQuo (a b : Z) : option Z :=
  if b =? 0 then None else Some (wrap64 (Z.quot a b)).

(** The index expression [poly[j]] for an [int] index. *)
Definition index {A} (l : list A) (j : Z) : option A :=
  if j <? 0 then None else l !! Z.to_nat j.

(** The condition of the loop body of [vertexInsidePoly]; [&&] evaluates
    its right operand only when the left one holds. *)
Definition crossing (x y : Z) (pi pj : Z * Z) : result unit bool :=
  let xi := pi.1 in
  let yi := pi.2 in
  let xj := pj.1 in
  let yj := pj.2 in
  if xorb (yi >? y) (yj >? y) then
    match intQuo (intMul (intSub xj xi) (intSub y yi)) (intSub yj yi) with
    | Some q => Ok (x <? intAdd q xi)
    | None => Panic
    end
  else Ok false.

(** The loop of [vertexInsidePoly] with [n] iterations to go. *)
Fixpoint insideLoop (poly : list (Z * Z)) (x y : Z) (n : nat) (i : nat)
  (j : Z) (inside : bool) : result unit bool :=
  match n with
  | O => Ok inside
  | S n' =>
      match poly !! i, index poly j with
      | Some pi, Some pj =>
          match crossing x y pi pj with
          | Ok cross =>
              insideLoop poly x y n' (S i) (Z.of_nat i)
                         (if cross then negb inside else inside)
          | Err e => Err e
          | Panic => Panic
          end
      | _, _ => Panic
      end
  end.

Definition vertexInsidePoly (x y : Z) (poly : list (Z * Z))
  : result unit bool :=
  insideLoop poly x y (length poly) 0 (Z.of_nat (length poly) - 1) false.

(** [image.Alpha]: its rectangle (min x, min y, max x, max y) and the
    alpha of its pixels; [image.NewAlpha] allocates them all zero, which
    the map holds as absent. *)
Record Alpha : Type := {
  Bounds : Z * Z * Z * Z;
  Pix : gmap (Z * Z) Z
}.

(** [image.Rect]: the corners are put in order. *)
Definition imageRect (x0 y0 x1 y1 : Z) : Z * Z * Z * Z :=
  let '(x0, x1) := if x1 <? x0 then (x1, x0) else (x0, x1) in
  let '(y0, y1) := if y1 <? y0 then (y1, y0) else (y0, y1) in
  (x0, y0, x1, y1).

(** [image.NewAlpha]; it panics ([None]) when the number of pixels does
    not fit an [int]. *)
Definition NewAlpha (r : Z * Z * Z * Z) : option Alpha :=
  let '(x0, y0, x1, y1) := r in
  let dx := intSub x1 x0 in
  let dy := intSub y1 y0 in
  if (0 <=? dx) && (0 <=? dy) && (dx * dy <=? maxInt64)
  then Some {| Bounds := r; Pix := ∅ |}
  else None.

Definition inBounds (r : Z * Z * Z * Z) (x y : Z) : bool :=
  let '(x0, y0, x1, y1) := r in
  (x0 <=? x) && (x <? x1) && (y0 <=? y) && (y <? y1).

(** [Alpha.Set]: a point outside the rectangle is ignored. *)
Definition AlphaSet (img : Alpha) (x y : Z) (a : Z) : Alpha :=
  if inBounds (Bounds img) x y
  then {| Bounds := Bounds img; Pix := <[(x, y) := a]> (Pix img) |}
  else img.

(** [Alpha.AlphaAt]: zero outside the rectangle. *)
Definition AlphaAt (img : Alpha) (x y : Z) : Z :=
  if inBounds (Bounds img) x y then default 0 (Pix img !! (x, y)) else 0.

(** The inner loop of [CreateMask], [for x := x; x < h; x++], with [n]
    iterations to go; the counters stay below [h] and [w], so their
    increments do not wrap. *)
Fixpoint maskColumn (poly : list (Z * Z)) (img : Alpha) (y x : Z) (n : nat)
  : result unit Alpha :=
  match n with
  | O => Ok img
  | S n' =>
      match vertexInsidePoly y x poly with
      | Ok true => maskColumn poly (AlphaSet img y x 0) y (x + 1) n'
      | Ok false => maskColumn poly (AlphaSet img y x 255) y (x + 1) n'
      | Err e => Err e
      | Panic => Panic
      end
  end.

(** The outer loop, [for y := y; y < w; y++]. *)
Fixpoint maskRows (poly : list (Z * Z)) (img : Alpha) (h : Z) (y : Z)
  (n : nat) : result unit Alpha :=
  match n with
  | O => Ok img
  | S n' =>
      match maskColumn poly img y 0 (Z.to_nat h) with
      | Ok img' => maskRows poly img' h (y + 1) n'
      | Err e => Err e
      | Panic => Panic
      end
  end.

Definition CreateMask (w h : Z) (poly : list (Z * Z)) : result unit Alpha :=
  match NewAlpha (imageRect 0 0 w h) with
  | Some img => maskRows poly img h 0 (Z.to_nat w)
  | None => Panic
  end.

(** *** The size of a stream *)

(** Go's [regexp] syntax as far as the pattern of [SizeFromStream] uses
    it: the ASCII word boundary, a greedy run of decimal digits, and a
    literal byte. *)
Inductive atom : Type :=
| WordBoundary
| Digits
| Lit (c : ascii).

(** [\b\d+x\d+\b] *)
Definition sizePattern : list atom :=
  [WordBoundary; Digits; Lit "x"; Digits; WordBoundary].

Definition isDigit (c : ascii) : bool :=
  let n := byte_of c in ((48 <=? n) && (n <=? 57))%N.

(** The word bytes of [\b]: digits, letters and the underscore. *)
Definition isWordByte (c : ascii) : bool :=
  let n := byte_of c in
  ((48 <=? n) && (n <=? 57) || (65 <=? n) && (n <=? 90)
   || (97 <=? n) && (n <=? 122) || (n =? 95))%N.

(** [\b] holds between two bytes of which exactly one is a word byte; the
    ends of the text count as non-word bytes. *)
Definition atBoundary (prev : option ascii) (s : string) : bool :=
  xorb (match prev with Some c => isWordByte c | None => false end)
       (match s with String c _ => isWordByte c | EmptyString => false end).

(** [\d+] followed by the rest of the pattern, [k]: one digit, then as
    many more as the rest allows, the longest run first. *)
Fixpoint matchDigits (k : option ascii -> string -> option nat) (s : string)
  : option nat :=
  match s with
  | String b s' =>
      if isDigit b then
        match matchDigits k s' with
        | Some n => Some (S n)
        | None => option_map S (k (Some b) s')
        end
      else None
  | EmptyString => None
  end.

(** The length of the match of [pat] at the head of [s], after the byte
    [prev], that a backtracking search finds first. *)
Fixpoint matchHere (pat : list atom) (prev : option ascii) (s : string)
  : option nat :=
  match pat with
  | [] => Some 0%nat
  | WordBoundary :: rest =>
      if atBoundary prev s then matchHere rest prev s else None
  | Digits :: rest => matchDigits (matchHere rest) s
  | Lit c :: rest =>
      match s with
      | String b s' =>
          if Ascii.eqb b c then option_map S (matchHere rest (Some b) s')
          else None
      | EmptyString => None
      end
  end.

(** The leftmost match. *)
Fixpoint findFrom (pat : list atom) (prev : option ascii) (s : string)
  : option string :=
  match matchHere pat prev s with
  | Some n => Some (substring 0 n s)
  | None =>
      match s with
      | String c s' => findFrom pat (Some c) s'
      | EmptyString => None
      end
  end.

(** [Regexp.FindString]: the empty string when nothing matches. *)
Definition FindString (pat : list atom) (s : string) : string :=
  default EmptyString (findFrom pat None s).

Inductive sizeError : Type :=
| ErrRun (stderr : string) (err : goError)
| ErrNoMatch (stderr : string).

(** [SizeFromStream]; [run] is the ffmpeg binary: what it writes to its
    standard error for the given arguments, and the error of [cmd.Run]. *)
Definition SizeFromStream (run : list string -> string * option goError)
  (url : string) : result sizeError string :=
  let '(stderr, err) := run ["-i"; url; "-f"; "ffmetadata"; "-"] in
  match err with
  | Some e => Err (ErrRun stderr e)
  | None =>
      let output := FindString sizePattern stderr in
      if negb (String.eqb output "") then Ok output
      else Err (ErrNoMatch stderr)
  end.

End Ffmpeg.


(* ================================================================= *)
(** ** IEEE 754 binary32 and binary64, as Go's [float32] and [float64]

    Values are [spec_float]s, the reference model of the Standard Library;
    the operations are its correctly rounded ones at the two formats. *)

Module IEEE.

Definition float := spec_float.

Definition prec32 : Z := 24.
Definition emax32 : Z := 128.
Definition prec64 : Z := 53.
Definition emax64 : Z := 1024.

Definition mul32 : float -> float -> float := SFmul prec32 emax32.
Definition div32 : float -> float -> float := SFdiv prec32 emax32.
Definition mul64 : float -> float -> float := SFmul prec64 emax64.
Definition div64 : float -> float -> float := SFdiv prec64 emax64.

(** Conversion to a format: exact when the value is representable,
    rounded to nearest even otherwise. *)
Definition to_format (prec emax : Z) (x : float) : float :=
  match x with
  | S754_finite s m e => binary_normalize prec emax (cond_Zopp s (Zpos m)) e s
  | _ => x
  end.

(** [float64(x)] for a [float32] [x], and [float32(x)] for a [float64]. *)
Definition to64 : float -> float := to_format prec64 emax64.
Definition to32 : float -> float := to_format prec32 emax32.

(** [float32(n)] and [float64(n)] for an integer [n]. *)
Definition of_int32 (n : Z) : float := binary_normalize prec32 emax32 n 0 false.
Definition of_int64 (n : Z) : float := binary_normalize prec64 emax64 n 0 false.

Definition ltb : float -> float -> bool := SFltb.
Definition leb : float -> float -> bool := SFleb.
Definition eqb : float -> float -> bool := SFeqb.

(** The integer part of a finite value, rounded toward zero. *)
Definition trunc (x : float) : option Z :=
  match x with
  | S754_zero _ => Some 0
  | S754_finite s m e =>
      Some (cond_Zopp s (if 0 <=? e then Zpos m * 2 ^ e else Zpos m / 2 ^ (- e)))
  | _ => None
  end.

(** [int(x)]: truncation toward zero.  For NaN, the infinities and values
    outside [int64] the Go specification leaves the result to the
    implementation; amd64 yields the smallest [int64]. *)
Definition to_int (x : float) : Z :=
  match trunc x with
  | Some z => if (minInt64 <=? z) && (z <=? maxInt64) then z else minInt64
  | None => minInt64
  end.

(** A decimal literal [digits] or [digits.digits], with an optional
    leading minus sign, rounded once to the nearest value of the format. *)
Fixpoint split_dot (s : string) : string * option string :=
  match s with
  | EmptyString => (EmptyString, None)
  | String c s' =>
      if Ascii.eqb c "." then (EmptyString, Some s')
      else let '(i, f) := split_dot s' in (String c i, f)
  end.

Definition of_ratio (prec emax : Z) (neg : bool) (num den : Z) : float :=
  match num with
  | Zpos _ =>
      let '(q, e, l) := SFdiv_core_binary prec emax num 0 den 0 in
      binary_round_aux prec emax neg q e l
  | _ => S754_zero neg
  end.

Definition of_unsigned_decimal (prec emax : Z) (neg : bool) (s : string)
  : option float :=
  let '(i, f) := split_dot s in
  let f := default EmptyString f in
  match GoStrings.decimal (i ++ f) with
  | Some m => Some (of_ratio prec emax neg m (10 ^ Z.of_nat (String.length f)))
  | None => None
  end.

Definition of_decimal (prec emax : Z) (s : string) : option float :=
  match s with
  | String "-" s' => of_unsigned_decimal prec emax true s'
  | _ => of_unsigned_decimal prec emax false s
  end.

Definition zero : float := S754_zero false.
Definition one32 : float := of_int32 1.
Definition hundred32 : float := of_int32 100.

End IEEE.


(* ================================================================= *)
(** ** [nvr/addons/doods]: the detection bridge *)

Module Doods.
Import GoStrings IEEE.

Definition Duration := Ffmpeg.Duration.

(** [time.Time] as nanoseconds since the epoch; [Time.Add] returns a new
    value and leaves its receiver alone. *)
Definition Time := Z.
Definition TimeAdd (t : Time) (d : Duration) : Time := t + d.

(** [monitor.Config], a [map[string]string]: a missing key reads as the
    empty string. *)
Definition cfg (c : gmap string string) (key : string) : string :=
  default EmptyString (c !! key).

(** [type thresholds map[string]float64] *)
Record doodsConfig : Type := {
  ip : string;
  duration : Duration;
  recDuration : Duration;
  thresholds : gmap string float;
  timestampOffset : Duration;
  detectorName : string
}.

Record addon : Type := {
  c : doodsConfig;
  id : string;
  name : string;
  outputWidth : Z;
  outputHeight : Z;
  xMultiplier : float;
  yMultiplier : float;
  SHMDir : string
}.

Definition withMultipliers (a : addon) (x y : float) : addon :=
  {| c := c a; id := id a; name := name a;
     outputWidth := outputWidth a; outputHeight := outputHeight a;
     xMultiplier := x; yMultiplier := y; SHMDir := SHMDir a |}.

Definition fifoDir (a : addon) : string := SHMDir a ++ "/doods/" ++ id a.
Definition mainPipe (a : addon) : string := fifoDir a ++ "/main.fifo".

(** The constant [-1] of [thresh == -1], as a [float64]. *)
Definition minus_one : float := of_int64 (-1).

(** The loop of [parseConfig] over the unmarshalled thresholds:
    [for key, thresh := range t { if thresh == -1 { delete(t, key) } }]. *)
Definition dropDisabledStep (entry : string * float)
  (t : gmap string float) : gmap string float :=
  if eqb entry.2 minus_one then delete entry.1 t else t.

Definition dropDisabledIn (order : list (string * float))
  (t : gmap string float) : gmap string float :=
  foldr dropDisabledStep t order.

Definition dropDisabled (t : gmap string float) : gmap string float :=
  dropDisabledIn (map_to_list t) t.

Inductive configError : Type :=
| ErrUnmarshalThresholds
| ErrFeedRate
| ErrDoodsDuration
| ErrTimestampOffset.

Inductive genError : Type :=
| ErrInputWidth
| ErrInputHeight
| ErrWidthLess (inputWidth : float) (outputWidth : Z)
| ErrHeightLess (inputHeight : float) (outputHeight : Z).

(** [odrpc.Detection], the detector's answer for one object. *)
Record odrpcDetection : Type := {
  Top : float;
  Left : float;
  Bottom : float;
  Right : float;
  Confidence : float;
  Label : string
}.

(** [ffmpeg.Rect], a [[4]int]: top, left, bottom, right. *)
Definition Rect : Type := Z * Z * Z * Z.

(** [monitor.Detection] *)
Record Detection : Type := {
  dLabel : string;
  dScore : float;
  dRect : Rect
}.

(** [monitor.Event] *)
Record Event : Type := {
  evTime : Time;
  evDetections : list Detection;
  evDuration : Duration;
  evRecDuration : Duration
}.

(** [conv] of [parseDetections]: [int(input * 100)] on a [float32]. *)
Definition conv (input : float) : Z := to_int (mul32 input hundred32).

Definition toDetection (a : addon) (detection : odrpcDetection) : Detection :=
  {| dLabel := Label detection;
     dScore := to64 (Confidence detection);
     dRect := (conv (mul32 (Top detection) (yMultiplier a)),
               conv (mul32 (Left detection) (xMultiplier a)),
               conv (mul32 (Bottom detection) (yMultiplier a)),
               conv (mul32 (Right detection) (xMultiplier a))) |}.

(** The inner loop of [parseDetections] for one detection: the entries of
    the thresholds map are visited in the order [order] (Go leaves the
    order of a map range unspecified). *)
Definition matchEntry (a : addon) (detection : odrpcDetection)
  (entry : string * float) : list Detection :=
  let score := to64 (Confidence detection) in
  let label := Label detection in
  if negb (String.eqb label entry.1) || ltb score entry.2
  then []
  else [toDetection a detection].

Definition matchThresholds (a : addon) (order : list (string * float))
  (detection : odrpcDetection) : list Detection :=
  flat_map (matchEntry a detection) order.

Definition filterDetections (a : addon) (order : list (string * float))
  (detections : list odrpcDetection) : list Detection :=
  flat_map (matchThresholds a order) detections.

(** [parseDetections]: the event sent on the trigger channel, if any. *)
Definition parseDetectionsIn (order : list (string * float)) (a : addon)
  (t : Time) (detections : list odrpcDetection) : option Event :=
  if (length detections =? 0)%nat then None
  else
    let filtered := filterDetections a order detections in
    if negb (length filtered =? 0)%nat
    then Some {| evTime := t; evDetections := filtered;
                 evDuration := duration (c a);
                 evRecDuration := recDuration (c a) |}
    else None.

Definition parseDetections (a : addon) (t : Time)
  (detections : list odrpcDetection) : option Event :=
  parseDetectionsIn (map_to_list (thresholds (c a))) a t detections.

(** [ffmpeg.ParseArgs] *)
Definition ParseArgs (args : string) : list string :=
  Split " " (TrimSpace args).

Section Bridge.
(** Parameters of the bridge: [json.Unmarshal] into a thresholds map and
    [strconv.ParseFloat(s, bitSize)], whose result is a [float64], from
    Go's library, and [ffmpeg.FeedRateToDuration], defined in another
    file of its package. *)
Variable jsonUnmarshal : string -> option (gmap string float).
Variable FeedRateToDuration : string -> option Duration.
Variable ParseFloat : string -> Z -> option float.

Definition parseConfig (mconfig : gmap string string) (ip : string)
  : result configError doodsConfig :=
  match jsonUnmarshal (cfg mconfig "doodsThresholds") with
  | None => Err ErrUnmarshalThresholds
  | Some t =>
      let t := dropDisabled t in
      match FeedRateToDuration (cfg mconfig "doodsFeedRate") with
      | None => Err ErrFeedRate
      | Some duration =>
          match ParseFloat (cfg mconfig "doodsDuration") 64 with
          | None => Err ErrDoodsDuration
          | Some recDurationFloat =>
              let recDuration :=
                to_int (mul64 recDurationFloat (of_int64 Ffmpeg.Second)) in
              match Atoi (cfg mconfig "timestampOffset") with
              | None => Err ErrTimestampOffset
              | Some timestampOffset =>
                  Ok {| ip := ip;
                        duration := duration;
                        recDuration := recDuration;
                        thresholds := t;
                        timestampOffset :=
                          wrap64 (timestampOffset * Ffmpeg.Millisecond);
                        detectorName := cfg mconfig "doodsDetectorName" |}
              end
          end
      end
  end.

(** The scaled frame size and the two multipliers of
    [generateFFmpegArgs]. *)
Definition letterbox (outputWidthInt outputHeightInt : Z)
  (inputWidth inputHeight : float) : string * string * float * float :=
  let frameWidth := Itoa outputWidthInt in
  let frameHeight := Itoa outputHeightInt in
  if ltb inputHeight inputWidth then
    let height :=
      to32 (div64 (mul64 (of_int64 outputHeightInt) inputHeight) inputWidth) in
    (frameWidth, Itoa (to_int height),
     one32, div32 (of_int32 outputHeightInt) height)
  else if ltb inputWidth inputHeight then
    let width :=
      to32 (div64 (mul64 (of_int64 outputWidthInt) inputWidth) inputHeight) in
    (Itoa (to_int width), frameHeight,
     div32 (of_int32 outputWidthInt) width, one32)
  else (frameWidth, frameHeight, one32, one32).

Definition generateFFmpegArgs (a : addon) (config : gmap string string)
  (size : string) : result genError (list string * float * float) :=
  let split := Split "x" size in
  match split !! 0%nat with
  | None => Panic
  | Some split0 =>
  match ParseFloat split0 32 with
  | None => Err ErrInputWidth
  | Some inputWidth =>
  match split !! 1%nat with
  | None => Panic
  | Some split1 =>
  match ParseFloat split1 32 with
  | None => Err ErrInputHeight
  | Some inputHeight =>
      if to_int inputWidth <? outputWidth a
      then Err (ErrWidthLess inputWidth (outputWidth a))
      else if to_int inputHeight <? outputHeight a
      then Err (ErrHeightLess inputHeight (outputHeight a))
      else
        let '(frameWidth, frameHeight, xMultiplier, yMultiplier) :=
          letterbox (outputWidth a) (outputHeight a) inputWidth inputHeight in
        let logLevel := cfg config "logLevel" in
        let outputWidth := Itoa (outputWidth a) in
        let outputHeight := Itoa (outputHeight a) in
        let fps := cfg config "doodsFeedRate" in
        let args := ["-y"; "-loglevel"; logLevel] in
        let hwaccel := cfg config "hwaccel" in
        let args :=
          if String.eqb hwaccel "" then args
          else (args ++ ParseArgs ("-hwaccel " ++ hwaccel))%list in
        let args := (args ++ ["-i"; mainPipe a; "-filter"])%list in
        let filter :=
          "fps=fps=" ++ fps ++ ",scale=" ++ frameWidth ++ ":"
            ++ frameHeight ++ ",pad=" ++ outputWidth ++ ":"
            ++ outputHeight ++ ":0:0" in
        let args := (args ++ [filter])%list in
        let args := (args ++ ["-f"; "rawvideo"])%list in
        let args := (args ++ ["-pix_fmt"; "rgb24"; "-"])%list in
        Ok (args, xMultiplier, yMultiplier)
  end end end end.

(** What Go's [return nil, 0, 0, err] hands back beside the error. *)
Definition returnedArgs (r : result genError (list string * float * float))
  : list string :=
  match r with Ok (args, _, _) => args | _ => [] end.

Definition returnedMultipliers
  (r : result genError (list string * float * float)) : float * float :=
  match r with Ok (_, x, y) => (x, y) | _ => (zero, zero) end.

(** The part of [start] that stores the multipliers in the addon. *)
Definition startMultipliers (a : addon) (config : gmap string string)
  (size : string) : result genError addon :=
  match generateFFmpegArgs a config size with
  | Ok (_, x, y) => Ok (withMultipliers a x y)
  | Err e => Err e
  | Panic => Panic
  end.

End Bridge.

(** *** The frame loop

    One turn of [readFrames] and of the [sendFrame] it calls, as the
    surroundings decide it: whether the context is done, what
    [io.ReadAtLeast] yields, the wall-clock time [time.Now()] reads,
    whether [stream.Send] fails, and what [stream.Recv] returns. *)
Inductive readOutcome : Type :=
| ReadFrame (pix : string)
| ReadEOF
| ReadFailed.

Inductive recvOutcome : Type :=
| RecvEOF
| RecvFailed
| RecvOk (detections : list odrpcDetection).

Record turn : Type := {
  ctxDone : bool;
  read : readOutcome;
  now : Time;
  sendFails : bool;
  recv : recvOutcome
}.

Inductive clientError : Type :=
| ErrReadStdout
| ErrCouldNotSend
| ErrCouldNotReceive.

(** [odrpc.DetectRequest] *)
Record DetectRequest : Type := {
  reqDetectorName : string;
  reqData : string;
  reqDetect : list (string * float)
}.

(** What the loop does that can be seen from outside: a frame handed to
    [sendFrame] with its time stamp, and an event posted on the trigger
    channel. *)
Inductive effect : Type :=
| FrameSent (t : Time) (request : DetectRequest)
| EventPosted (e : Event).

Section FrameLoop.
(** [png.Encoder.Encode] of an RGB24 image of the given size. *)
Variable pngEncode : Z -> Z -> string -> string.

Definition sendFrame (d : addon) (t : Time) (b : string) (tn : turn)
  : list effect * option clientError :=
  let request :=
    {| reqDetectorName := detectorName (c d);
       reqData := b;
       reqDetect := [("*", of_int32 10)] |} in
  if sendFails tn then ([], Some ErrCouldNotSend)
  else
    match recv tn with
    | RecvEOF => ([FrameSent t request], None)
    | RecvFailed => ([FrameSent t request], Some ErrCouldNotReceive)
    | RecvOk detections =>
        (FrameSent t request
           :: match parseDetections d t detections with
              | Some e => [EventPosted e]
              | None => []
              end,
         None)
    end.

(** [readFrames]; the run ends with the recorded turns (the encoder has
    closed its standard output). *)
Fixpoint readFrames (d : addon) (turns : list turn)
  : list effect * option clientError :=
  match turns with
  | [] => ([], None)
  | tn :: rest =>
      if ctxDone tn then ([], None)
      else
        match read tn with
        | ReadEOF => ([], None)
        | ReadFailed => ([], Some ErrReadStdout)
        | ReadFrame tmp =>
            let t := now tn in
            (* [t.Add(-d.c.timestampOffset)]: the sum is computed and
               dropped, [t] itself stays as it was *)
            let _ := TimeAdd t (- timestampOffset (c d)) in
            let b := pngEncode (outputWidth d) (outputHeight d) tmp in
            match sendFrame d t b tn with
            | (effects, Some err) => (effects, Some err)
            | (effects, None) =>
                let '(effects', err) := readFrames d rest in
                ((effects ++ effects')%list, err)
            end
        end
  end.

(** The time stamps of the frames handed to [sendFrame], in order. *)
Definition sentStamps (effects : list effect) : list Time :=
  flat_map (fun e => match e with FrameSent t _ => [t] | _ => [] end) effects.

(** The wall-clock readings of the frames that were read and sent. *)
Fixpoint readTimes (turns : list turn) : list Time :=
  match turns with
  | [] => []
  | tn :: rest =>
      if ctxDone tn then []
      else
        match read tn with
        | ReadFrame _ =>
            if sendFails tn then []
            else
              match recv tn with
              | RecvFailed => [now tn]
              | _ => now tn :: readTimes rest
              end
        | _ => []
        end
  end.

End FrameLoop.

(** *** Starting the bridge *)

(** [monitor.Monitor], as far as the addon reads it.  [ID], [Name] and
    [SubInputEnabled] are methods of package [monitor]; what they return
    is held in fields here. *)
Record Monitor : Type := {
  Config : gmap string string;
  EnvSHMDir : string;
  ID : string;
  Name : string;
  SubInputEnabled : bool
}.

(** [odrpc.Detector]: the size of the model's input. *)
Record Detector : Type := {
  Width : Z;
  Height : Z
}.

Definition genArgs (m : Monitor) : string :=
  let pipePath := EnvSHMDir m ++ "/doods/" ++ ID m ++ "/main.fifo" in
  " -c:v copy -map 0:v -f fifo -fifo_format mpegts"
    ++ " -drop_pkts_on_overflow 1 -attempt_recovery 1"
    ++ " -restart_with_keyframe 1 -recovery_wait_time 1 " ++ pipePath.

(** [newAddon]; the multipliers start as Go's zero value. *)
Definition newAddon (m : Monitor) (c : doodsConfig) (detector : Detector)
  : addon :=
  {| c := c; id := ID m; name := Name m;
     outputWidth := Width detector; outputHeight := Height detector;
     xMultiplier := zero; yMultiplier := zero;
     SHMDir := EnvSHMDir m |}.

Inductive startError : Type :=
| ErrDetector
| ErrParseConfig (e : configError)
| ErrPrepareEnvironment
| ErrGenerateArgs (e : genError).

Section Start.
(** Parameters beside those of [parseConfig] and [generateFFmpegArgs]:
    [detectorByName] and the address [doodsIP] are defined in another file
    of the package, and [prepareEnvironment] works on the file system;
    it is taken by its outcome. *)
Variable jsonUnmarshal : string -> option (gmap string float).
Variable FeedRateToDuration : string -> option Duration.
Variable ParseFloat : string -> Z -> option float.
Variable detectorByName : string -> option Detector.
Variable doodsIP : string.
Variable prepareEnvironment : addon -> bool.

(** [start]: the addon with its multipliers and the arguments of the
    detector's ffmpeg, which is then started in a goroutine. *)
Definition start (m : Monitor) : result startError (addon * list string) :=
  match detectorByName (cfg (Config m) "doodsDetectorName") with
  | None => Err ErrDetector
  | Some detector =>
      match parseConfig jsonUnmarshal FeedRateToDuration ParseFloat
                        (Config m) doodsIP with
      | Err e => Err (ErrParseConfig e)
      | Panic => Panic
      | Ok config =>
          let a := newAddon m config detector in
          if negb (prepareEnvironment a) then Err ErrPrepareEnvironment
          else
            let size :=
              if negb (SubInputEnabled m) then cfg (Config m) "sizeMain"
              else cfg (Config m) "sizeSub" in
            match generateFFmpegArgs ParseFloat a (Config m) size with
            | Ok (ffmpegArgs, x, y) => Ok (withMultipliers a x y, ffmpegArgs)
            | Err e => Err (ErrGenerateArgs e)
            | Panic => Panic
            end
      end
  end.

(** The hooks [main] and [sub]: the arguments of the recording ffmpeg
    afterwards, and what [start] returned if it was called (its error is
    logged and otherwise dropped). *)
Definition main (m : Monitor) (args : string)
  : string * option (result startError (addon * list string)) :=
  if negb (String.eqb (cfg (Config m) "doodsEnable") "true")
     || SubInputEnabled m
  then (args, None)
  else (args ++ genArgs m, Some (start m)).

Definition sub (m : Monitor) (args : string)
  : string * option (result startError (addon * list string)) :=
  if negb (String.eqb (cfg (Config m) "doodsEnable") "true")
     || negb (SubInputEnabled m)
  then (args, None)
  else (args ++ genArgs m, Some (start m)).

End Start.

End Doods.


(* ================================================================= *)
(** ** [nvr/pkg/video]: the path manager *)

Module Video.

Section PathManager.
(** [PathConf], [path] with [newPath] and [close], and
    [PathConf.CheckAndFillMissing] are defined in other files of the
    package and are parameters here.  [CheckAndFillMissing] returns the
    completed configuration or an error of its own. *)
Variable PathConf : Type.
Variable confError : Type.
Variable CheckAndFillMissing : PathConf -> string -> confError + PathConf.
Variable context : Type.
Variable path : Type.
Variable newPath : context -> string -> PathConf -> path.
Variable closePath : path -> path.

Inductive pathError : Type :=
| ErrPathAlreadyExist
| ErrPathNotExist
| ErrConf (e : confError).

Record pathManager : Type := {
  pathConfs : gmap string PathConf;
  paths : gmap string path
}.

Definition newPathManager : pathManager :=
  {| pathConfs := ∅; paths := ∅ |}.

(** The handle [AddPath] returns: a closure over the path's name that
    asks the HLS server for the muxer. *)
Inductive HlsMuxerFunc : Type := MuxerByPathName (name : string).

(** [AddPath], from [pm.mu.Lock()] to the deferred [pm.mu.Unlock()]:
    the outcome and the manager afterwards.  On success the removal
    goroutine [removePath name] is left waiting for [ctx.Done()]. *)
Definition AddPath (pm : pathManager) (ctx : context) (name : string)
  (newConf : PathConf) : result pathError HlsMuxerFunc * pathManager :=
  match CheckAndFillMissing newConf name with
  | inl err => (Err (ErrConf err), pm)
  | inr newConf =>
      match pathConfs pm !! name with
      | Some _ => (Err ErrPathAlreadyExist, pm)
      | None =>
          let config := newConf in
          let pm :=
            {| pathConfs := <[name := config]> (pathConfs pm);
               paths := paths pm |} in
          let pm :=
            {| pathConfs := pathConfs pm;
               paths := <[name := newPath ctx name config]> (paths pm) |} in
          (Ok (MuxerByPathName name), pm)
      end
  end.

(** [pathExist] *)
Definition pathExist (pm : pathManager) (name : string) : bool :=
  bool_decide (is_Some (pathConfs pm !! name)).

(** *** The removal goroutine

    The statements of the goroutine [AddPath] starts, run once
    [ctx.Done()] is closed; the deferred unlock comes last. *)
Inductive stmt : Type :=
| MuLock
| MuUnlock
| DeleteConf (name : string)
| ClosePath (name : string)
| DeletePath (name : string).

Definition removePath (name : string) : list stmt :=
  [ MuLock;            (* pm.mu.Lock(); defer pm.mu.Unlock() *)
    DeleteConf name;   (* delete(pm.pathConfs, name) *)
    ClosePath name;    (* pm.paths[name].close() *)
    DeletePath name;   (* delete(pm.paths, name) *)
    MuUnlock ].

(** The manager with its mutex, and the calls of [path.close] made so
    far, each with whether [pm.mu] was held at the call. *)
Record world : Type := {
  manager : pathManager;
  held : bool;
  closes : list (string * bool)
}.

(** One statement; [None] when it cannot run: a lock that is taken, an
    unlock of a free mutex, or a [close] through a nil path. *)
Definition step (w : world) (s : stmt) : option world :=
  match s with
  | MuLock =>
      if held w then None
      else Some {| manager := manager w; held := true; closes := closes w |}
  | MuUnlock =>
      if held w
      then Some {| manager := manager w; held := false; closes := closes w |}
      else None
  | DeleteConf name =>
      Some {| manager := {| pathConfs := delete name (pathConfs (manager w));
                            paths := paths (manager w) |};
              held := held w; closes := closes w |}
  | ClosePath name =>
      match paths (manager w) !! name with
      | None => None
      | Some p =>
          Some {| manager :=
                    {| pathConfs := pathConfs (manager w);
                       paths := <[name := closePath p]> (paths (manager w)) |};
                  held := held w;
                  closes := (closes w ++ [(name, held w)])%list |}
      end
  | DeletePath name =>
      Some {| manager := {| pathConfs := pathConfs (manager w);
                            paths := delete name (paths (manager w)) |};
              held := held w; closes := closes w |}
  end.

Fixpoint run (w : world) (prog : list stmt) : option world :=
  match prog with
  | [] => Some w
  | s :: rest =>
      match step w s with
      | Some w' => run w' rest
      | None => None
      end
  end.

(** *** Concurrent calls

    A call of [AddPath] as a goroutine: it takes [pm.mu] (and waits while
    another goroutine holds it), runs the body, and releases the mutex on
    return. *)
Inductive pc : Type := AtLock | InBody | AtUnlock | Returned.

Record call : Type := {
  callCtx : context;
  callName : string;
  callConf : PathConf;
  callPc : pc;
  callResult : option (result pathError HlsMuxerFunc)
}.

(** One step of a call, on the manager and its mutex. *)
Definition advance (pm : pathManager) (mu : bool) (c : call)
  : pathManager * bool * call :=
  match callPc c with
  | AtLock =>
      if mu then (pm, mu, c)
      else (pm, true,
            {| callCtx := callCtx c; callName := callName c;
               callConf := callConf c; callPc := InBody;
               callResult := callResult c |})
  | InBody =>
      let '(r, pm') := AddPath pm (callCtx c) (callName c) (callConf c) in
      (pm', mu,
       {| callCtx := callCtx c; callName := callName c;
          callConf := callConf c; callPc := AtUnlock;
          callResult := Some r |})
  | AtUnlock =>
      (pm, false,
       {| callCtx := callCtx c; callName := callName c;
          callConf := callConf c; callPc := Returned;
          callResult := callResult c |})
  | Returned => (pm, mu, c)
  end.

(** Two calls on one manager; the scheduler picks who moves. *)
Record duo : Type := {
  duoManager : pathManager;
  duoHeld : bool;
  first : call;
  second : call
}.

Definition stepDuo (s : duo) (who : bool) : duo :=
  if who then
    let '(pm, mu, c) := advance (duoManager s) (duoHeld s) (first s) in
    {| duoManager := pm; duoHeld := mu; first := c; second := second s |}
  else
    let '(pm, mu, c) := advance (duoManager s) (duoHeld s) (second s) in
    {| duoManager := pm; duoHeld := mu; first := first s; second := c |}.

Definition schedule (s : duo) (sched : list bool) : duo :=
  fold_left stepDuo sched s.

Definition newCall (ctx : context) (name : string) (conf : PathConf) : call :=
  {| callCtx := ctx; callName := name; callConf := conf;
     callPc := AtLock; callResult := None |}.

End PathManager.

Arguments ErrPathAlreadyExist {confError}.
Arguments ErrPathNotExist {confError}.
Arguments ErrConf {confError} e.
Arguments pathConfs {PathConf path} p.
Arguments paths {PathConf path} p.
Arguments newPathManager {PathConf path}.
Arguments pathExist {PathConf path} pm name.
Arguments manager {PathConf path} w.
Arguments held {PathConf path} w.
Arguments closes {PathConf path} w.
Arguments step {PathConf path} closePath w s.
Arguments run {PathConf path} closePath w prog.
Arguments AddPath {PathConf confError} CheckAndFillMissing {context path} newPath
  pm ctx name newConf.
Arguments callCtx {PathConf confError context} c.
Arguments callName {PathConf confError context} c.
Arguments callConf {PathConf confError context} c.
Arguments callPc {PathConf confError context} c.
Arguments callResult {PathConf confError context} c.
Arguments advance {PathConf confError} CheckAndFillMissing {context path} newPath
  pm mu c.
Arguments duoManager {PathConf confError context path} d.
Arguments duoHeld {PathConf confError context path} d.
Arguments first {PathConf confError context path} d.
Arguments second {PathConf confError context path} d.
Arguments stepDuo {PathConf confError} CheckAndFillMissing {context path} newPath
  s who.
Arguments schedule {PathConf confError} CheckAndFillMissing {context path} newPath
  s sched.
Arguments newCall {PathConf confError context} ctx name conf.

(** *** Looking a path up *)

Section Lookups.
(** Parameters: the methods of [path] that the manager calls, defined in
    another file of the package.  A path is reached through a pointer, so
    a method that changes it returns the path afterwards. *)
Variable PathConf : Type.
Variable path : Type.
Variable pathErr : Type.
Variable isNoOnePublishing : pathErr -> bool.
Variable rtspSession : Type.
Variable stream : Type.
Variable logFunc : Type.
Variable publisherAnswer : Type.
Variable readerAnswer : Type.
Variable streamGet : path -> pathErr + stream.
Variable pathPublisherAdd : path -> rtspSession -> path * publisherAnswer.
Variable pathReaderAdd : path -> rtspSession -> path * readerAnswer.
Variable logf : path -> logFunc.

Local Abbreviation pathManager := (pathManager PathConf path).

(** [base.StatusCode], the three that [onDescribe] answers with. *)
Inductive StatusCode : Type := StatusOK | StatusNotFound | StatusBadRequest.

(** The errors of the look-ups: the manager's own, or the path's. *)
Inductive lookupError : Type :=
| PathNotExist
| OfPath (e : pathErr).

(** [onDescribe]: the response status, the stream and the error. *)
Definition onDescribe (pm : pathManager) (pathName : string)
  : StatusCode * option stream * option lookupError :=
  match paths pm !! pathName with
  | None => (StatusNotFound, None, Some PathNotExist)
  | Some path =>
      match streamGet path with
      | inl err =>
          if isNoOnePublishing err
          then (StatusNotFound, None, Some (OfPath err))
          else (StatusBadRequest, None, Some (OfPath err))
      | inr stream => (StatusOK, Some stream, None)
      end
  end.

(** What [publisherAdd] and [readerAdd] return: nil with
    [ErrPathNotExist], or whatever the method of the path returns. *)
Inductive answer (R : Type) : Type :=
| NotExist
| FromPath (r : R).

(** [publisherAdd] *)
Definition publisherAdd (pm : pathManager) (name : string)
  (session : rtspSession) : pathManager * answer publisherAnswer :=
  match paths pm !! name with
  | None => (pm, NotExist publisherAnswer)
  | Some path =>
      let '(path', r) := pathPublisherAdd path session in
      ({| pathConfs := pathConfs pm; paths := <[name := path']> (paths pm) |},
       FromPath publisherAnswer r)
  end.

(** [readerAdd] *)
Definition readerAdd (pm : pathManager) (name : string)
  (session : rtspSession) : pathManager * answer readerAnswer :=
  match paths pm !! name with
  | None => (pm, NotExist readerAnswer)
  | Some path =>
      let '(path', r) := pathReaderAdd path session in
      ({| pathConfs := pathConfs pm; paths := <[name := path']> (paths pm) |},
       FromPath readerAnswer r)
  end.

(** [pathLogfByName]: nil for a name without a path. *)
Definition pathLogfByName (pm : pathManager) (name : string) : option logFunc :=
  match paths pm !! name with
  | Some path => Some (logf path)
  | None => None
  end.

End Lookups.

Arguments PathNotExist {pathErr}.
Arguments OfPath {pathErr} e.
Arguments NotExist {R}.
Arguments FromPath {R} r.

(** *** The manager over time *)

Section System.
Variable PathConf : Type.
Variable confError : Type.
Variable CheckAndFillMissing : PathConf -> string -> confError + PathConf.
Variable context : Type.
Variable path : Type.
Variable newPath : context -> string -> PathConf -> path.
Variable closePath : path -> path.

(** The manager together with the removal goroutines that [AddPath] has
    started and that have not run yet, each known by the name of its
    path. *)
Record system : Type := {
  sysManager : pathManager PathConf path;
  waiting : list string
}.

(** What happens to the manager: a call of [AddPath], or the context of a
    path is done and its removal goroutine runs.  Both hold [pm.mu] from
    start to end. *)
Inductive action : Type :=
| Add (ctx : context) (name : string) (newConf : PathConf)
| Done (name : string).

(** One action; [None] when the removal goroutine stops on a nil path. *)
Definition act (s : system) (a : action) : option system :=
  match a with
  | Add ctx name newConf =>
      let '(r, pm) :=
        AddPath CheckAndFillMissing newPath (sysManager s) ctx name newConf in
      Some {| sysManager := pm;
              waiting := match r with
                         | Ok _ => name :: waiting s
                         | _ => waiting s
                         end |}
  | Done name =>
      if bool_decide (name ∈ waiting s) then
        match run closePath
                  {| manager := sysManager s; held := false; closes := [] |}
                  (removePath name) with
        | Some w =>
            Some {| sysManager := manager w;
                    waiting := filter (fun n => n <> name) (waiting s) |}
        | None => None
        end
      else Some s
  end.

Fixpoint acts (s : system) (l : list action) : option system :=
  match l with
  | [] => Some s
  | a :: l' =>
      match act s a with
      | Some s' => acts s' l'
      | None => None
      end
  end.

Definition newSystem : system :=
  {| sysManager := newPathManager; waiting := [] |}.

End System.

Arguments sysManager {PathConf path} s.
Arguments waiting {PathConf path} s.
Arguments Add {PathConf context} ctx name newConf.
Arguments Done {PathConf context} name.
Arguments newSystem {PathConf path}.

End Video.

(* ================================================================= *)
(** ** [nvr/pkg/video/gortsplib]: the fan-out stream *)

Module Gortsplib.

(** The counters are unsigned 32-bit words, but for the NTP seconds. *)
Record serverStreamTrack : Type := {
  lastSequenceNumber : Z;
  lastTimeRTP : Z;
  lastTimeNTP : Z;
  lastSSRC : Z
}.

(** The fields of [rtp.Packet] that the stream reads. *)
Record Packet : Type := {
  SequenceNumber : Z;
  Timestamp : Z;
  SSRC : Z;
  Extension : bool;
  ExtensionPayload : string;
  Payload : string
}.

Section Stream.
(** Parameters: [rtp.Packet.Marshal] is pion's, and
    [ServerSession.writePacketRTP] is defined in another file of the
    package. *)
Variable Marshal : Packet -> option string.
Variable ServerSession : Type.
Variable writePacketRTP : ServerSession -> Z -> string -> ServerSession.

(** The sessions live on the heap; the stream holds pointers to them. *)
Record ServerStream : Type := {
  stTracks : list serverStreamTrack;
  readersUnicast : gset positive;
  readers : gset positive
}.

Definition heap : Type := gmap positive ServerSession.

Definition uint32 (z : Z) : Z := z mod 2^32.

(** [for r := range st.readersUnicast { r.writePacketRTP(trackID, byts) }]:
    each call touches its own session only, so the order of the range
    does not show. *)
Definition fanOut (st : ServerStream) (h : heap) (trackID : Z)
  (byts : string) : heap :=
  map_imap
    (fun r ss =>
       Some (if bool_decide (r ∈ readersUnicast st)
             then writePacketRTP ss trackID byts else ss))
    h.

(** [WritePacketRTP] at wall-clock time [now] (seconds, [now.Unix()]). *)
Definition WritePacketRTP (st : ServerStream) (h : heap) (trackID : Z)
  (pkt : Packet) (now : Z) : result unit (ServerStream * heap) :=
  match Marshal pkt with
  | None => Ok (st, h)
  | Some byts =>
      if (trackID <? 0) then Panic
      else
        match stTracks st !! Z.to_nat trackID with
        | None => Panic
        | Some track =>
            let track :=
              {| lastSequenceNumber := uint32 (SequenceNumber pkt);
                 lastTimeRTP := Timestamp pkt;
                 lastTimeNTP := now;
                 lastSSRC := SSRC pkt |} in
            let st :=
              {| stTracks := <[Z.to_nat trackID := track]> (stTracks st);
                 readersUnicast := readersUnicast st;
                 readers := readers st |} in
            Ok (st, fanOut st h trackID byts)
        end
  end.

End Stream.

(** *** Readers and counters *)

Definition uint16 (z : Z) : Z := z mod 2^16.
Definition uint64 (z : Z) : Z := z mod 2^64.

(** [st.stTracks[trackID]], a panic ([None]) out of range. *)
Definition track (st : ServerStream) (trackID : Z) : option serverStreamTrack :=
  if trackID <? 0 then None else stTracks st !! Z.to_nat trackID.

(** [ssrc] *)
Definition ssrc (st : ServerStream) (trackID : Z) : result unit Z :=
  match track st trackID with
  | Some t => Ok (lastSSRC t)
  | None => Panic
  end.

(** The method [lastSequenceNumber]. *)
Definition lastSequenceNumberOf (st : ServerStream) (trackID : Z)
  : result unit Z :=
  match track st trackID with
  | Some t => Ok (uint16 (lastSequenceNumber t))
  | None => Panic
  end.

(** [timestamp]; [ticks] stands for
    [uint64(time.Since(time.Unix(lastTimeNTP, 0)).Seconds() * float64(ClockRate))],
    the clock ticks since the packet was written. *)
Definition timestamp (st : ServerStream) (trackID : Z) (ticks : Z)
  : result unit Z :=
  match track st trackID with
  | Some t =>
      if (lastTimeRTP t =? 0) || (lastTimeNTP t =? 0) then Ok 0
      else Ok (uint32 (uint64 (uint64 (lastTimeRTP t) + ticks)))
  | None => Panic
  end.

Section Readers.
(** Parameters: a session knows its server ([ss.s]) and can be closed
    ([ss.Close]); both belong to [ServerSession], defined in another file
    of the package. *)
Variable Server : Type.
Variable ServerSession : Type.
Variable sessionServer : ServerSession -> Server.
Variable closeSession : ServerSession -> ServerSession.

(** The stream with the fields that the fan-out does not read: the server
    [st.s], and whether each of the two maps is nil, as [Close] leaves
    them.  A nil map reads as an empty one; an assignment to it panics. *)
Record stream : Type := {
  st : ServerStream;
  s : option Server;
  readersNil : bool;
  readersUnicastNil : bool
}.

(** [NewServerStream] for [tracks] tracks. *)
Definition NewServerStream (tracks : nat) : stream :=
  {| st := {| stTracks :=
                replicate tracks
                  {| lastSequenceNumber := 0; lastTimeRTP := 0;
                     lastTimeNTP := 0; lastSSRC := 0 |};
              readersUnicast := ∅;
              readers := ∅ |};
     s := None;
     readersNil := false;
     readersUnicastNil := false |}.

(** [Close]: every reader is closed, both maps become nil. *)
Definition Close (x : stream) (h : heap ServerSession)
  : stream * heap ServerSession :=
  ({| st := {| stTracks := stTracks (st x);
               readersUnicast := ∅;
               readers := ∅ |};
      s := s x;
      readersNil := true;
      readersUnicastNil := true |},
   map_imap
     (fun r ss =>
        Some (if bool_decide (r ∈ readers (st x)) then closeSession ss else ss))
     h).

(** [readerAdd]; the session is read through its pointer. *)
Definition readerAdd (x : stream) (h : heap ServerSession) (ss : positive)
  : result unit stream :=
  match h !! ss with
  | None => Panic
  | Some session =>
      let s' := match s x with
                | None => Some (sessionServer session)
                | Some v => Some v
                end in
      if readersNil x then Panic
      else Ok {| st := {| stTracks := stTracks (st x);
                          readersUnicast := readersUnicast (st x);
                          readers := {[ ss ]} ∪ readers (st x) |};
                 s := s';
                 readersNil := false;
                 readersUnicastNil := readersUnicastNil x |}
  end.

(** [readerRemove]; [delete] on a nil map does nothing. *)
Definition readerRemove (x : stream) (ss : positive) : stream :=
  {| st := {| stTracks := stTracks (st x);
              readersUnicast := readersUnicast (st x);
              readers := readers (st x) ∖ {[ ss ]} |};
     s := s x;
     readersNil := readersNil x;
     readersUnicastNil := readersUnicastNil x |}.

(** [readerSetActive] *)
Definition readerSetActive (x : stream) (ss : positive) : result unit stream :=
  if readersUnicastNil x then Panic
  else Ok {| st := {| stTracks := stTracks (st x);
                      readersUnicast := {[ ss ]} ∪ readersUnicast (st x);
                      readers := readers (st x) |};
             s := s x;
             readersNil := readersNil x;
             readersUnicastNil := false |}.

(** [readerSetInactive] *)
Definition readerSetInactive (x : stream) (ss : positive) : stream :=
  {| st := {| stTracks := stTracks (st x);
              readersUnicast := readersUnicast (st x) ∖ {[ ss ]};
              readers := readers (st x) |};
     s := s x;
     readersNil := readersNil x;
     readersUnicastNil := readersUnicastNil x |}.

End Readers.

Arguments st {Server} s.
Arguments s {Server} s.
Arguments readersNil {Server} s.
Arguments readersUnicastNil {Server} s.
Arguments NewServerStream {Server} tracks.
Arguments Close {Server ServerSession} closeSession x h.
Arguments readerAdd {Server ServerSession} sessionServer x h ss.
Arguments readerRemove {Server} x ss.
Arguments readerSetActive {Server} x ss.
Arguments readerSetInactive {Server} x ss.

End Gortsplib.

(* ================================================================= *)
(** ** [nvr]: the hooks of the addons *)

Module Nvr.

Section Hooks.
(** Parameters: [storage.ConfigEnv], [monitor.Monitor] and the error of a
    template hook come from other packages.  A hook works through the
    pointers it is given and on its surroundings; here it returns what it
    leaves behind: the environment, the page files with its error, and for
    a monitor hook the surroundings [World], with the ffmpeg arguments for
    an input hook. *)
Variable ConfigEnv : Type.
Variable hookError : Type.
Variable context : Type.
Variable Monitor : Type.
Variable World : Type.

Definition envHook : Type := ConfigEnv -> ConfigEnv.
Definition tplHook : Type :=
  gmap string string -> gmap string string * option hookError.
Definition StartHook : Type := context -> Monitor -> World -> World.
Definition StartInputHook : Type :=
  context -> Monitor -> World * string -> World * string.

Record hookList : Type := {
  onEnvLoad : list envHook;
  template : list tplHook;
  monitorStart : list StartHook;
  monitorMainProcess : list StartInputHook;
  monitorSubProcess : list StartInputHook
}.

(** [var hooks = &hookList{}] *)
Definition noHooks : hookList :=
  {| onEnvLoad := []; template := []; monitorStart := [];
     monitorMainProcess := []; monitorSubProcess := [] |}.

Definition RegisterEnvHook (h : envHook) (hooks : hookList) : hookList :=
  {| onEnvLoad := onEnvLoad hooks ++ [h];
     template := template hooks;
     monitorStart := monitorStart hooks;
     monitorMainProcess := monitorMainProcess hooks;
     monitorSubProcess := monitorSubProcess hooks |}.

Definition RegisterTplHook (h : tplHook) (hooks : hookList) : hookList :=
  {| onEnvLoad := onEnvLoad hooks;
     template := template hooks ++ [h];
     monitorStart := monitorStart hooks;
     monitorMainProcess := monitorMainProcess hooks;
     monitorSubProcess := monitorSubProcess hooks |}.

Definition RegisterMonitorStartHook (h : StartHook) (hooks : hookList)
  : hookList :=
  {| onEnvLoad := onEnvLoad hooks;
     template := template hooks;
     monitorStart := monitorStart hooks ++ [h];
     monitorMainProcess := monitorMainProcess hooks;
     monitorSubProcess := monitorSubProcess hooks |}.

Definition RegisterMonitorMainProcessHook (h : StartInputHook)
  (hooks : hookList) : hookList :=
  {| onEnvLoad := onEnvLoad hooks;
     template := template hooks;
     monitorStart := monitorStart hooks;
     monitorMainProcess := monitorMainProcess hooks ++ [h];
     monitorSubProcess := monitorSubProcess hooks |}.

Definition RegisterMonitorSubProcessHook (h : StartInputHook)
  (hooks : hookList) : hookList :=
  {| onEnvLoad := onEnvLoad hooks;
     template := template hooks;
     monitorStart := monitorStart hooks;
     monitorMainProcess := monitorMainProcess hooks;
     monitorSubProcess := monitorSubProcess hooks ++ [h] |}.

(** [hookList.env] *)
Definition env (h : hookList) (e : ConfigEnv) : ConfigEnv :=
  fold_left (fun e hook => hook e) (onEnvLoad h) e.

(** The loop of [hookList.tpl]: the first error ends it. *)
Fixpoint tplLoop (hooks : list tplHook) (pageFiles : gmap string string)
  : gmap string string * option hookError :=
  match hooks with
  | [] => (pageFiles, None)
  | hook :: rest =>
      match hook pageFiles with
      | (pageFiles', Some err) => (pageFiles', Some err)
      | (pageFiles', None) => tplLoop rest pageFiles'
      end
  end.

Definition tpl (h : hookList) (pageFiles : gmap string string)
  : gmap string string * option hookError :=
  tplLoop (template h) pageFiles.

(** [monitor.Hooks] *)
Record Hooks : Type := {
  Start : StartHook;
  StartMain : StartInputHook;
  StartSub : StartInputHook
}.

(** [hookList.monitor]; the closures range over the lists of [h] as they
    are when they run. *)
Definition monitor (h : hookList) : Hooks :=
  {| Start := fun ctx m w =>
       fold_left (fun w hook => hook ctx m w) (monitorStart h) w;
     StartMain := fun ctx m args =>
       fold_left (fun args hook => hook ctx m args) (monitorMainProcess h) args;
     StartSub := fun ctx m args =>
       fold_left (fun args hook => hook ctx m args) (monitorSubProcess h) args |}.

End Hooks.

Arguments onEnvLoad {ConfigEnv hookError context Monitor World} h.
Arguments template {ConfigEnv hookError context Monitor World} h.
Arguments monitorStart {ConfigEnv hookError context Monitor World} h.
Arguments monitorMainProcess {ConfigEnv hookError context Monitor World} h.
Arguments monitorSubProcess {ConfigEnv hookError context Monitor World} h.
Arguments noHooks {ConfigEnv hookError context Monitor World}.
Arguments RegisterEnvHook {ConfigEnv hookError context Monitor World} h hooks.
Arguments RegisterTplHook {ConfigEnv hookError context Monitor World} h hooks.
Arguments RegisterMonitorStartHook {ConfigEnv hookError context Monitor World}
  h hooks.
Arguments RegisterMonitorMainProcessHook
  {ConfigEnv hookError context Monitor World} h hooks.
Arguments RegisterMonitorSubProcessHook
  {ConfigEnv hookError context Monitor World} h hooks.
Arguments env {ConfigEnv hookError context Monitor World} h e.
Arguments tplLoop {hookError} hooks pageFiles.
Arguments tpl {ConfigEnv hookError context Monitor World} h pageFiles.
Arguments Start {context Monitor World} h.
Arguments StartMain {context Monitor World} h.
Arguments StartSub {context Monitor World} h.
Arguments monitor {ConfigEnv hookError context Monitor World} h.

End Nvr.

(* ================================================================= *)
(** * Properties *)

(** ** Values of the floating-point formats

    The value of a finite float is a real number; the facts below relate
    the operations of [IEEE] to real arithmetic as far as the bridge needs
    it: a rounded result never passes a representable bound. *)

Module IEEEFacts.
Import IEEE.
Import Reals Lra.
Local Open Scope R_scope.

Definition bpow (e : Z) : R := powerRZ 2 e.

Lemma bpow_gt_0 (e : Z) : 0 < bpow e.
Proof. apply powerRZ_lt. lra. Qed.

Lemma bpow_plus (a b : Z) : bpow (a + b) = bpow a * bpow b.
Proof. apply powerRZ_add. lra. Qed.

Lemma bpow_IZR (n : Z) : (0 <= n)%Z -> bpow n = IZR (2 ^ n).
Proof.
  intros Hn. unfold bpow. destruct n as [|p|p]; [reflexivity| |lia].
  cbn [powerRZ]. rewrite pow_IZR, positive_nat_Z. reflexivity.
Qed.

Lemma bpow_ge_1 (n : Z) : (0 <= n)%Z -> 1 <= bpow n.
Proof.
  intros Hn. rewrite bpow_IZR by exact Hn. apply IZR_le.
  pose proof (Z.pow_pos_nonneg 2 n ltac:(lia) Hn). lia.
Qed.

Lemma bpow_le (a b : Z) : (a <= b)%Z -> bpow a <= bpow b.
Proof.
  intros H. replace b with (a + (b - a))%Z by lia. rewrite bpow_plus.
  pose proof (bpow_gt_0 a). pose proof (bpow_ge_1 (b - a) ltac:(lia)). nra.
Qed.

Lemma bpow_1 : bpow 1 = 2.
Proof. unfold bpow. simpl. lra. Qed.

Lemma bpow_lt (a b : Z) : (a < b)%Z -> bpow a < bpow b.
Proof.
  intros H. replace b with (a + 1 + (b - a - 1))%Z by lia.
  rewrite !bpow_plus, bpow_1.
  pose proof (bpow_gt_0 a). pose proof (bpow_ge_1 (b - a - 1) ltac:(lia)).
  nra.
Qed.

Lemma bpow_0 : bpow 0 = 1.
Proof. reflexivity. Qed.

Lemma Rdiv_mul_cancel (a b : R) : 0 < b -> a / b * b = a.
Proof. intros Hb. field. lra. Qed.

Lemma Rdiv_lt_iff (a b c : R) : 0 < b -> (a / b < c <-> a < c * b).
Proof.
  intros Hb. pose proof (Rdiv_mul_cancel a b Hb) as H. split; intros Hlt.
  - rewrite <- H. now apply Rmult_lt_compat_r.
  - apply (Rmult_lt_reg_r b); [exact Hb|]. now rewrite H.
Qed.

Lemma Rdiv_le_iff (a b c : R) : 0 < b -> (a / b <= c <-> a <= c * b).
Proof.
  intros Hb. pose proof (Rdiv_mul_cancel a b Hb) as H. split; intros Hle.
  - rewrite <- H. apply Rmult_le_compat_r; lra.
  - apply (Rmult_le_reg_r b); [exact Hb|]. now rewrite H.
Qed.

Lemma Rdiv_ge_iff (a b c : R) : 0 < b -> (c <= a / b <-> c * b <= a).
Proof.
  intros Hb. pose proof (Rdiv_mul_cancel a b Hb) as H. split; intros Hle.
  - rewrite <- H. apply Rmult_le_compat_r; lra.
  - apply (Rmult_le_reg_r b); [exact Hb|]. now rewrite H.
Qed.

(** The value of mantissa [m] at exponent [e]. *)
Definition F2R (m e : Z) : R := IZR m * bpow e.

Lemma F2R_shift (m e k : Z) :
  (0 <= k)%Z -> F2R (m * 2 ^ k) (e - k) = F2R m e.
Proof.
  intros Hk. unfold F2R. rewrite mult_IZR, <- bpow_IZR by exact Hk.
  rewrite Rmult_assoc, <- bpow_plus. f_equal. f_equal. lia.
Qed.

Lemma F2R_le (m1 m2 e : Z) : (m1 <= m2)%Z -> F2R m1 e <= F2R m2 e.
Proof.
  intros H. unfold F2R. apply IZR_le in H. pose proof (bpow_gt_0 e). nra.
Qed.

Lemma F2R_lt (m1 m2 e : Z) : (m1 < m2)%Z -> F2R m1 e < F2R m2 e.
Proof.
  intros H. unfold F2R. apply IZR_lt in H. pose proof (bpow_gt_0 e). nra.
Qed.

Lemma F2R_lt_inv (m1 m2 e : Z) : F2R m1 e < F2R m2 e -> (m1 < m2)%Z.
Proof.
  intros H. apply lt_IZR. unfold F2R in H. pose proof (bpow_gt_0 e). nra.
Qed.

Lemma F2R_le_inv (m1 m2 e : Z) : F2R m1 e <= F2R m2 e -> (m1 <= m2)%Z.
Proof.
  intros H. apply le_IZR. unfold F2R in H. pose proof (bpow_gt_0 e). nra.
Qed.

(** *** Binary digits *)

Lemma digits2_pos_bounds (m : positive) :
  (2 ^ (Zpos (digits2_pos m) - 1) <= Zpos m < 2 ^ Zpos (digits2_pos m))%Z.
Proof.
  induction m as [p IH|p IH|]; cbn [digits2_pos].
  - rewrite Pos2Z.inj_succ.
    replace (Z.succ (Zpos (digits2_pos p)) - 1)%Z
      with (Z.succ (Zpos (digits2_pos p) - 1))%Z by lia.
    rewrite !Z.pow_succ_r by lia. lia.
  - rewrite Pos2Z.inj_succ.
    replace (Z.succ (Zpos (digits2_pos p)) - 1)%Z
      with (Z.succ (Zpos (digits2_pos p) - 1))%Z by lia.
    rewrite !Z.pow_succ_r by lia. lia.
  - simpl. lia.
Qed.

Lemma digits2_pos_unique (m : positive) (d : Z) :
  (2 ^ (d - 1) <= Zpos m < 2 ^ d)%Z -> Zpos (digits2_pos m) = d.
Proof.
  intros [Hl Hu]. pose proof (digits2_pos_bounds m) as [Hl' Hu'].
  assert (0 < d)%Z as Hd.
  { destruct (Z_lt_le_dec 0 d) as [?|Hle]; [assumption|].
    assert (2 ^ d <= 1)%Z.
    { destruct (Z.eq_dec d 0) as [->|?]; [simpl; lia|].
      rewrite Z.pow_neg_r by lia. lia. }
    lia. }
  destruct (Z_lt_le_dec (Zpos (digits2_pos m)) d) as [Hlt|Hge].
  - assert (2 ^ Zpos (digits2_pos m) <= 2 ^ (d - 1))%Z
      by (apply Z.pow_le_mono_r; lia). lia.
  - destruct (Z_lt_le_dec d (Zpos (digits2_pos m))) as [Hlt|Hge'].
    + assert (2 ^ d <= 2 ^ (Zpos (digits2_pos m) - 1))%Z
        by (apply Z.pow_le_mono_r; lia). lia.
    + lia.
Qed.

Lemma Zdigits2_bounds (m : Z) :
  (0 < m)%Z -> (2 ^ (Zdigits2 m - 1) <= m < 2 ^ Zdigits2 m)%Z.
Proof. destruct m as [|p|p]; try lia. intros _. apply digits2_pos_bounds. Qed.

Lemma Zdigits2_unique (m d : Z) :
  (2 ^ (d - 1) <= m < 2 ^ d)%Z -> (0 < m)%Z -> Zdigits2 m = d.
Proof. destruct m as [|p|p]; try lia. intros H _. now apply digits2_pos_unique. Qed.

Lemma Zdigits2_pos (m : Z) : (0 < m)%Z -> (0 < Zdigits2 m)%Z.
Proof. destruct m; simpl; lia. Qed.

Lemma Zdigits2_shift (m k : Z) :
  (0 < m)%Z -> (0 <= k)%Z -> Zdigits2 (m * 2 ^ k) = (Zdigits2 m + k)%Z.
Proof.
  intros Hm Hk. pose proof (Zdigits2_bounds m Hm) as [Hl Hu].
  pose proof (Zdigits2_pos m Hm).
  pose proof (Z.pow_pos_nonneg 2 k ltac:(lia) Hk).
  apply Zdigits2_unique; [|nia].
  replace (Zdigits2 m + k - 1)%Z with ((Zdigits2 m - 1) + k)%Z by lia.
  rewrite !Z.pow_add_r by lia. nia.
Qed.

Lemma Zdigits2_div (m n : Z) :
  (0 < m)%Z -> (0 <= n)%Z -> (0 < m / 2 ^ n)%Z ->
  Zdigits2 (m / 2 ^ n) = (Zdigits2 m - n)%Z.
Proof.
  intros Hm Hn Hq. pose proof (Zdigits2_bounds m Hm) as [Hl Hu].
  pose proof (Z.pow_pos_nonneg 2 n ltac:(lia) Hn) as Hp.
  assert (n < Zdigits2 m)%Z as Hnd.
  { destruct (Z_lt_le_dec n (Zdigits2 m)) as [?|Hge]; [assumption|].
    assert (2 ^ Zdigits2 m <= 2 ^ n)%Z by (apply Z.pow_le_mono_r; lia).
    rewrite Z.div_small in Hq by lia. lia. }
  apply Zdigits2_unique; [|exact Hq]. split.
  - apply Z.div_le_lower_bound; [lia|].
    rewrite <- Z.pow_add_r by lia.
    replace (n + (Zdigits2 m - n - 1))%Z with (Zdigits2 m - 1)%Z by lia. exact Hl.
  - apply Z.div_lt_upper_bound; [lia|].
    rewrite <- Z.pow_add_r by lia.
    replace (n + (Zdigits2 m - n))%Z with (Zdigits2 m) by lia. exact Hu.
Qed.

Lemma F2R_bounds (m e : Z) :
  (0 < m)%Z ->
  bpow (Zdigits2 m - 1 + e) <= F2R m e < bpow (Zdigits2 m + e).
Proof.
  intros Hm. pose proof (Zdigits2_bounds m Hm) as [Hl Hu].
  pose proof (Zdigits2_pos m Hm) as Hd.
  unfold F2R. rewrite !bpow_plus.
  rewrite (bpow_IZR (Zdigits2 m - 1)), (bpow_IZR (Zdigits2 m)) by lia.
  apply IZR_le in Hl. apply IZR_lt in Hu.
  pose proof (bpow_gt_0 e). split; nra.
Qed.


(** *** One format *)

Section Format.
Variables prec emax : Z.
Hypothesis Hprec : (0 < prec)%Z.
Hypothesis Hemax : (prec < emax)%Z.

Local Abbreviation emin := (SpecFloat.emin prec emax).
Local Abbreviation fexp := (SpecFloat.fexp prec emax).

Lemma emin_neg : (emin <= 0)%Z.
Proof. unfold SpecFloat.emin. lia. Qed.

Lemma fexp_mono (a b : Z) : (a <= b)%Z -> (fexp a <= fexp b)%Z.
Proof. unfold SpecFloat.fexp. lia. Qed.

Lemma fexp_ge_emin (k : Z) : (emin <= fexp k)%Z.
Proof. unfold SpecFloat.fexp. lia. Qed.

(** A mantissa is canonical at its exponent when the exponent is the one
    the format assigns to the magnitude. *)
Definition canonical (m e : Z) : Prop := fexp (Zdigits2 m + e) = e.

Lemma canonical_mantissa_iff (m : positive) (e : Z) :
  canonical_mantissa prec emax m e = true <-> canonical (Zpos m) e.
Proof. unfold canonical_mantissa, canonical. apply Z.eqb_eq. Qed.

Lemma bounded_iff (m : positive) (e : Z) :
  SpecFloat.bounded prec emax m e = true
  <-> canonical (Zpos m) e /\ (e <= emax - prec)%Z.
Proof.
  unfold SpecFloat.bounded. rewrite andb_true_iff, canonical_mantissa_iff, Z.leb_le.
  reflexivity.
Qed.

Lemma canonical_digits (m e : Z) :
  (0 < m)%Z -> canonical m e -> (Zdigits2 m <= prec)%Z /\ (emin <= e)%Z.
Proof. unfold canonical, SpecFloat.fexp. lia. Qed.

(** Canonical mantissas are ordered by their exponents first. *)
Lemma canonical_lt (m1 e1 m2 e2 : Z) :
  (0 < m1)%Z -> (0 < m2)%Z -> canonical m1 e1 -> canonical m2 e2 ->
  (e1 < e2)%Z -> F2R m1 e1 < F2R m2 e2.
Proof.
  intros H1 H2 C1 C2 He.
  assert (Zdigits2 m1 + e1 < Zdigits2 m2 + e2)%Z as Hd.
  { destruct (Z_lt_le_dec (Zdigits2 m1 + e1) (Zdigits2 m2 + e2)) as [?|Hge];
      [assumption|].
    apply fexp_mono in Hge. unfold canonical in *. lia. }
  pose proof (F2R_bounds m1 e1 H1) as [_ Hu].
  pose proof (F2R_bounds m2 e2 H2) as [Hl _].
  pose proof (bpow_le (Zdigits2 m1 + e1) (Zdigits2 m2 - 1 + e2) ltac:(lia)).
  lra.
Qed.

Lemma canonical_le_exp (m1 e1 m2 e2 : Z) :
  (0 < m1)%Z -> (0 < m2)%Z -> canonical m1 e1 -> canonical m2 e2 ->
  F2R m1 e1 <= F2R m2 e2 -> (e1 <= e2)%Z.
Proof.
  intros H1 H2 C1 C2 Hle.
  destruct (Z_lt_le_dec e2 e1) as [Hlt|?]; [|assumption].
  pose proof (canonical_lt m2 e2 m1 e1 H2 H1 C2 C1 Hlt). lra.
Qed.

(** The comparison of the library agrees with the order of the values. *)
Lemma SFleb_canonical (m1 m2 : positive) (e1 e2 : Z) :
  canonical (Zpos m1) e1 -> canonical (Zpos m2) e2 ->
  (SFleb (S754_finite false m1 e1) (S754_finite false m2 e2) = true
   <-> F2R (Zpos m1) e1 <= F2R (Zpos m2) e2).
Proof.
  intros C1 C2. unfold SFleb, SFcompare.
  destruct (Z.compare_spec e1 e2) as [->|Hlt|Hgt].
  - change (Pos.compare_cont Eq m1 m2) with (Pos.compare m1 m2).
    destruct (Pos.compare_spec m1 m2) as [->|Hm|Hm].
    + split; [lra|reflexivity].
    + split; [intros _|reflexivity]. apply F2R_le. lia.
    + split; [discriminate|]. intros H. apply F2R_le_inv in H. lia.
  - split; [intros _|reflexivity].
    pose proof (canonical_lt (Zpos m1) e1 (Zpos m2) e2 ltac:(lia) ltac:(lia) C1 C2 Hlt). lra.
  - split; [discriminate|]. intros H.
    pose proof (canonical_lt (Zpos m2) e2 (Zpos m1) e1 ltac:(lia) ltac:(lia) C2 C1 Hgt). lra.
Qed.

Lemma SFltb_canonical (m1 m2 : positive) (e1 e2 : Z) :
  canonical (Zpos m1) e1 -> canonical (Zpos m2) e2 ->
  (SFltb (S754_finite false m1 e1) (S754_finite false m2 e2) = true
   <-> F2R (Zpos m1) e1 < F2R (Zpos m2) e2).
Proof.
  intros C1 C2. unfold SFltb, SFcompare.
  destruct (Z.compare_spec e1 e2) as [->|Hlt|Hgt].
  - change (Pos.compare_cont Eq m1 m2) with (Pos.compare m1 m2).
    destruct (Pos.compare_spec m1 m2) as [->|Hm|Hm].
    + split; [discriminate|lra].
    + split; [intros _|reflexivity]. apply F2R_lt. lia.
    + split; [discriminate|]. intros H. apply F2R_lt_inv in H. lia.
  - split; [intros _|reflexivity].
    exact (canonical_lt (Zpos m1) e1 (Zpos m2) e2 ltac:(lia) ltac:(lia) C1 C2 Hlt).
  - split; [discriminate|]. intros H.
    pose proof (canonical_lt (Zpos m2) e2 (Zpos m1) e1 ltac:(lia) ltac:(lia) C2 C1 Hgt). lra.
Qed.

(** *** The grid of a rounding

    A rounding truncates to the grid of step [bpow e], with [m] the
    truncated mantissa: either [m] is canonical at [e], or the value is
    below the smallest positive float and [e] is [emin]. *)
Definition grid (m e : Z) : Prop :=
  ((0 < m)%Z /\ canonical m e) \/ (m = 0%Z /\ e = emin).

(** No float lies strictly between two neighbours of the grid. *)
Lemma grid_gap (m e mz ez : Z) :
  grid m e -> (0 < mz)%Z -> canonical mz ez ->
  F2R mz ez < F2R (m + 1) e -> F2R mz ez <= F2R m e.
Proof.
  intros Hg Hmz Cz Hlt.
  destruct (Z_lt_le_dec ez e) as [Hez|Hez].
  - destruct Hg as [[Hm Cm]|[-> ->]].
    + pose proof (canonical_lt mz ez m e Hmz Hm Cz Cm Hez). lra.
    + pose proof (canonical_digits mz ez Hmz Cz). lia.
  - rewrite <- (F2R_shift mz ez (ez - e)) in * by lia.
    replace (ez - (ez - e))%Z with e in * by lia.
    apply F2R_lt_inv in Hlt. apply F2R_le. lia.
Qed.

Lemma grid_succ (m e : Z) :
  grid m e ->
  canonical (m + 1) e
  \/ ((m + 1 = 2 ^ prec)%Z /\ canonical (2 ^ (prec - 1)) (e + 1)).
Proof.
  intros [[Hm Cm]|[-> ->]].
  - pose proof (Zdigits2_bounds m Hm) as [Hl Hu].
    pose proof (canonical_digits m e Hm Cm) as [Hd He].
    pose proof (Zdigits2_pos m Hm) as Hdp.
    destruct (Z.eq_dec (m + 1) (2 ^ Zdigits2 m)) as [Heq|Hne].
    + assert (Zdigits2 (m + 1) = Zdigits2 m + 1)%Z as Hd1.
      { apply Zdigits2_unique; [|lia].
        replace (Zdigits2 m + 1 - 1)%Z with (Zdigits2 m) by lia.
        rewrite Z.pow_add_r by lia. lia. }
      unfold canonical in *. rewrite Hd1.
      destruct (Z.eq_dec (Zdigits2 m) prec) as [Hp|Hp].
      * right. split; [congruence|].
        assert (Zdigits2 (2 ^ (prec - 1)) = prec) as ->.
        { apply Zdigits2_unique.
          - split; [lia|]. apply Z.pow_lt_mono_r; lia.
          - apply Z.pow_pos_nonneg; lia. }
        unfold SpecFloat.fexp in *. lia.
      * left. unfold SpecFloat.fexp in *. lia.
    + left. unfold canonical in *.
      assert (Zdigits2 (m + 1) = Zdigits2 m) as ->; [|exact Cm].
      apply Zdigits2_unique; lia.
  - left. unfold canonical. simpl. unfold SpecFloat.fexp. lia.
Qed.


(** *** Shifting right *)

Definition inexact (mrs : shr_record) : bool := shr_r mrs || shr_s mrs.

Lemma shr_1_spec (mrs : shr_record) :
  (0 <= shr_m mrs)%Z ->
  shr_m (shr_1 mrs) = (shr_m mrs / 2)%Z
  /\ inexact (shr_1 mrs) = inexact mrs || Z.odd (shr_m mrs).
Proof.
  destruct mrs as [m r s]. cbn [shr_m]. intros Hm.
  destruct m as [|[p|p|]|p]; try lia; unfold inexact;
    cbn [shr_1 shr_m shr_r shr_s Z.odd];
    (split; [|destruct r, s; reflexivity]).
  - reflexivity.
  - apply (Z.div_unique _ 2 _ 1); lia.
  - apply (Z.div_unique _ 2 _ 0); lia.
  - reflexivity.
Qed.

Lemma iter_pos_nat {A : Type} (f : A -> A) (p : positive) (x : A) :
  SpecFloat.iter_pos f p x = Nat.iter (Pos.to_nat p) f x.
Proof.
  revert x. induction p as [p IH|p IH|]; intros x; cbn [SpecFloat.iter_pos].
  - rewrite !IH, Pos2Nat.inj_xI, <- Nat.iter_succ_r, <- Nat.iter_add.
    f_equal. lia.
  - rewrite !IH, Pos2Nat.inj_xO, <- Nat.iter_add. f_equal. lia.
  - reflexivity.
Qed.

Lemma shr_iter_spec (n : nat) (mrs : shr_record) :
  (0 <= shr_m mrs)%Z ->
  shr_m (Nat.iter n shr_1 mrs) = (shr_m mrs / 2 ^ Z.of_nat n)%Z
  /\ (inexact (Nat.iter n shr_1 mrs) = false
      <-> inexact mrs = false /\ (shr_m mrs mod 2 ^ Z.of_nat n = 0)%Z).
Proof.
  intros Hm. induction n as [|n [IHm IHi]].
  - change (Nat.iter 0 shr_1 mrs) with mrs. change (2 ^ Z.of_nat 0)%Z with 1%Z.
    rewrite Z.div_1_r, Z.mod_1_r. tauto.
  - rewrite Nat.iter_succ.
    assert (0 < 2 ^ Z.of_nat n)%Z as Hp by (apply Z.pow_pos_nonneg; lia).
    assert (0 <= shr_m (Nat.iter n shr_1 mrs))%Z as Hn.
    { rewrite IHm. apply Z.div_pos; lia. }
    destruct (shr_1_spec _ Hn) as [Hm1 Hi1].
    rewrite Nat2Z.inj_succ, Z.pow_succ_r by lia.
    rewrite (Z.mul_comm 2).
    split.
    + rewrite Hm1, IHm. apply Z.div_div; lia.
    + rewrite Hi1, orb_false_iff, IHi, IHm.
      rewrite Z.rem_mul_r by lia.
      rewrite <- Z.negb_even, negb_false_iff, Z.even_spec.
      pose proof (Z.mod_pos_bound (shr_m mrs) (2 ^ Z.of_nat n) Hp).
      pose proof (Z.mod_pos_bound (shr_m mrs / 2 ^ Z.of_nat n) 2 ltac:(lia)).
      split.
      * intros [[Hi Hr] [k Hk]]. split; [exact Hi|].
        rewrite Hr, Hk, (Z.mul_comm 2 k), Z.mod_mul by lia. lia.
      * intros [Hi Hr]. split; [split; [exact Hi|nia]|].
        exists (shr_m mrs / 2 ^ Z.of_nat n / 2)%Z.
        pose proof (Z.div_mod (shr_m mrs / 2 ^ Z.of_nat n) 2 ltac:(lia)). nia.
Qed.

Definition exactb (l : location) : bool :=
  match l with loc_Exact => true | _ => false end.

Lemma shr_spec (m e n : Z) (l : location) :
  (0 <= m)%Z ->
  let k := Z.max 0 n in
  let mrs' := (shr (shr_record_of_loc m l) e n).1 in
  (shr (shr_record_of_loc m l) e n).2 = (e + k)%Z
  /\ shr_m mrs' = (m / 2 ^ k)%Z
  /\ (inexact mrs' = false <-> exactb l = true /\ (m mod 2 ^ k = 0)%Z).
Proof.
  intros Hm k mrs'.
  assert (shr_m (shr_record_of_loc m l) = m) as Hm0
      by (destruct l as [|[]]; reflexivity).
  assert (inexact (shr_record_of_loc m l) = false <-> exactb l = true) as Hi0
      by (destruct l as [|[]]; cbn; intuition congruence).
  destruct n as [|p|p]; subst k mrs'; cbn [shr fst snd].
  - change (Z.max 0 0) with 0%Z. change (2 ^ 0)%Z with 1%Z.
    rewrite Z.div_1_r, Z.mod_1_r, Z.add_0_r. tauto.
  - rewrite iter_pos_nat.
    destruct (shr_iter_spec (Pos.to_nat p) (shr_record_of_loc m l)) as [H1 H2];
      [lia|].
    rewrite positive_nat_Z in H1, H2. rewrite Hm0 in H1, H2.
    replace (Z.max 0 (Zpos p)) with (Zpos p) by lia.
    split; [reflexivity|]. split; [exact H1|]. now rewrite H2, Hi0.
  - replace (Z.max 0 (Zneg p)) with 0%Z by lia. change (2 ^ 0)%Z with 1%Z.
    rewrite Z.div_1_r, Z.mod_1_r, Z.add_0_r. tauto.
Qed.

(** *** Locating a real number

    [located m e exact x]: the real [x] is the value of [m] at [e] when
    [exact] holds, and lies strictly between it and the next value of the
    grid otherwise. *)
Definition located (m e : Z) (exact : bool) (x : R) : Prop :=
  if exact then x = F2R m e else F2R m e < x < F2R (m + 1) e.

Lemma located_bounds (m e : Z) (exact : bool) (x : R) :
  located m e exact x -> F2R m e <= x < F2R (m + 1) e.
Proof.
  unfold located. pose proof (F2R_lt m (m + 1) e ltac:(lia)) as Hlt.
  destruct exact; intros H; lra.
Qed.

Lemma located_shift (m e k m' : Z) (exact exact' : bool) (x : R) :
  (0 <= m)%Z -> (0 <= k)%Z -> located m e exact x ->
  m' = (m / 2 ^ k)%Z ->
  (exact' = true <-> exact = true /\ (m mod 2 ^ k = 0)%Z) ->
  located m' (e + k) exact' x.
Proof.
  intros Hm Hk Hloc -> Hex.
  assert (0 < 2 ^ k)%Z as Hp by (apply Z.pow_pos_nonneg; lia).
  pose proof (Z.div_mod m (2 ^ k) ltac:(lia)) as Hdm.
  pose proof (Z.mod_pos_bound m (2 ^ k) Hp) as Hr.
  set (q := (m / 2 ^ k)%Z) in *. set (r := (m mod 2 ^ k)%Z) in *.
  assert (forall a, F2R a (e + k) = F2R (a * 2 ^ k) e) as Hsh.
  { intros a. rewrite <- (F2R_shift a (e + k) k Hk). f_equal. lia. }
  unfold located. rewrite !Hsh.
  pose proof (located_bounds _ _ _ _ Hloc) as [Hlo Hhi].
  destruct exact'.
  - destruct Hex as [Hex _]. destruct (Hex eq_refl) as [-> Hr0].
    unfold located in Hloc. rewrite Hloc. f_equal. lia.
  - assert (F2R (q * 2 ^ k) e <= F2R m e) by (apply F2R_le; lia).
    assert (F2R (m + 1) e <= F2R ((q + 1) * 2 ^ k) e) by (apply F2R_le; nia).
    split; [|lra].
    destruct exact.
    + unfold located in Hloc.
      assert (r <> 0)%Z as Hr0.
      { intros Hr0. destruct Hex as [_ Hex].
        specialize (Hex (conj eq_refl Hr0)). discriminate. }
      rewrite Hloc. apply F2R_lt. lia.
    + unfold located in Hloc. lra.
Qed.


(** *** Rounding *)

(** The end of [binary_round_aux]: the rounded mantissa is shifted once
    more if the rounding carried, and the exponent is checked. *)
Definition finalize (s : bool) (m1 e : Z) : float :=
  let '(mrs, e') := shr_fexp prec emax m1 e loc_Exact in
  match shr_m mrs with
  | Z0 => S754_zero s
  | Zpos m =>
      if (e' <=? emax - prec)%Z then S754_finite s m e' else S754_infinity s
  | Zneg _ => S754_nan
  end.

Definition overflow_or (s : bool) (m e : Z) : float :=
  if (e <=? emax - prec)%Z then S754_finite s (Z.to_pos m) e
  else S754_infinity s.

Lemma binary_round_aux_eq (s : bool) (mx ex : Z) (lx : location) :
  binary_round_aux prec emax s mx ex lx
  = finalize s
      (round_nearest_even (shr_m (shr_fexp prec emax mx ex lx).1)
                          (loc_of_shr_record (shr_fexp prec emax mx ex lx).1))
      (shr_fexp prec emax mx ex lx).2.
Proof.
  unfold binary_round_aux, finalize.
  destruct (shr_fexp prec emax mx ex lx) as [mrs e']. reflexivity.
Qed.

Lemma finalize_shift (s : bool) (m e : Z) :
  (0 <= m)%Z ->
  let k := Z.max 0 (fexp (Zdigits2 m + e) - e) in
  finalize s m e
  = match (m / 2 ^ k)%Z with
    | Z0 => S754_zero s
    | Zpos p =>
        if (e + k <=? emax - prec)%Z then S754_finite s p (e + k)
        else S754_infinity s
    | Zneg _ => S754_nan
    end.
Proof.
  intros Hm k. unfold finalize, shr_fexp.
  pose proof (shr_spec m e (fexp (Zdigits2 m + e) - e) loc_Exact Hm)
    as (He & Hsm & _).
  destruct (shr _ e _) as [mrs e']. cbn [fst snd] in *.
  now rewrite Hsm, He.
Qed.

Lemma finalize_zero (s : bool) (e : Z) : finalize s 0 e = S754_zero s.
Proof.
  rewrite finalize_shift by lia.
  rewrite Z.div_0_l; [reflexivity|]. apply Z.pow_nonzero; lia.
Qed.

Lemma finalize_canonical (s : bool) (m e : Z) :
  (0 < m)%Z -> canonical m e -> finalize s m e = overflow_or s m e.
Proof.
  intros Hm C. rewrite finalize_shift by lia.
  unfold canonical in C. rewrite C, Z.sub_diag.
  change (Z.max 0 0) with 0%Z. change (2 ^ 0)%Z with 1%Z.
  rewrite Z.div_1_r, Z.add_0_r. unfold overflow_or.
  destruct m; try lia. reflexivity.
Qed.

Lemma Zdigits2_pow2 (k : Z) : (0 <= k)%Z -> Zdigits2 (2 ^ k) = (k + 1)%Z.
Proof.
  intros Hk. apply Zdigits2_unique.
  - replace (k + 1 - 1)%Z with k by lia. split; [lia|].
    apply Z.pow_lt_mono_r; lia.
  - apply Z.pow_pos_nonneg; lia.
Qed.

Lemma finalize_carry (s : bool) (e : Z) :
  canonical (2 ^ (prec - 1)) (e + 1) ->
  finalize s (2 ^ prec) e = overflow_or s (2 ^ (prec - 1)) (e + 1).
Proof.
  intros C. unfold canonical in C. rewrite Zdigits2_pow2 in C by lia.
  assert (0 < 2 ^ prec)%Z as Hp by (apply Z.pow_pos_nonneg; lia).
  rewrite finalize_shift by lia.
  rewrite Zdigits2_pow2 by lia.
  replace (prec + 1 + e)%Z with (prec - 1 + 1 + (e + 1))%Z by lia.
  rewrite C. replace (e + 1 - e)%Z with 1%Z by lia.
  change (Z.max 0 1) with 1%Z.
  replace (2 ^ prec)%Z with (2 ^ (prec - 1) * 2 ^ 1)%Z
    by (rewrite <- Z.pow_add_r by lia; f_equal; lia).
  rewrite Z.div_mul by lia. unfold overflow_or.
  assert (0 < 2 ^ (prec - 1))%Z as Hq by (apply Z.pow_pos_nonneg; lia).
  destruct (2 ^ (prec - 1))%Z; try lia. reflexivity.
Qed.

Lemma round_nearest_even_cases (mrs : shr_record) :
  let m1 := round_nearest_even (shr_m mrs) (loc_of_shr_record mrs) in
  m1 = shr_m mrs \/ (m1 = (shr_m mrs + 1)%Z /\ inexact mrs = true).
Proof.
  destruct mrs as [m [|] [|]]; cbn; auto.
  destruct (Z.even m); auto.
Qed.

(** What [binary_round_aux] does to a located real: it truncates to the
    grid and keeps the mantissa or takes the next one, the latter only
    when the real lies above the truncation. *)
Lemma binary_round_aux_char (s : bool) (mx ex : Z) (lx : location) (x : R) :
  (0 < mx)%Z -> (ex <= fexp (Zdigits2 mx + ex))%Z ->
  located mx ex (exactb lx) x ->
  exists m e m1,
    grid m e /\ (0 <= m)%Z /\ F2R m e <= x < F2R (m + 1) e
    /\ (m1 = m \/ (m1 = (m + 1)%Z /\ F2R m e < x))
    /\ binary_round_aux prec emax s mx ex lx = finalize s m1 e.
Proof.
  intros Hmx Hex Hloc. rewrite binary_round_aux_eq. unfold shr_fexp.
  set (n := (fexp (Zdigits2 mx + ex) - ex)%Z).
  pose proof (shr_spec mx ex n lx ltac:(lia)) as (He & Hm & Hi).
  destruct (shr (shr_record_of_loc mx lx) ex n) as [mrs e']. cbn [fst snd] in *.
  replace (Z.max 0 n) with n in * by lia.
  assert (0 < 2 ^ n)%Z as Hp by (apply Z.pow_pos_nonneg; lia).
  assert (0 <= mx / 2 ^ n)%Z as Hq by (apply Z.div_pos; lia).
  assert (located (mx / 2 ^ n) (ex + n) (negb (inexact mrs)) x) as Hloc'.
  { apply (located_shift mx ex n (mx / 2 ^ n) (exactb lx)
                          (negb (inexact mrs)) x);
      [lia|lia|exact Hloc|reflexivity|rewrite negb_true_iff; exact Hi]. }
  exists (mx / 2 ^ n)%Z, e', (round_nearest_even (shr_m mrs) (loc_of_shr_record mrs)).
  subst e'. split; [|split; [exact Hq|split; [now apply located_bounds in Hloc'|]]].
  - destruct (Z.eq_dec (mx / 2 ^ n) 0) as [H0|H0].
    + right. split; [exact H0|].
      apply Z.div_small_iff in H0; [|lia]. destruct H0 as [H0|H0]; [|lia].
      pose proof (Zdigits2_bounds mx Hmx) as [Hl _].
      assert (Zdigits2 mx - 1 < n)%Z as Hd.
      { destruct (Z_lt_le_dec (Zdigits2 mx - 1) n) as [?|Hge]; [assumption|].
        assert (2 ^ n <= 2 ^ (Zdigits2 mx - 1))%Z
          by (apply Z.pow_le_mono_r; lia). lia. }
      subst n. unfold SpecFloat.fexp in *. lia.
    + left. split; [lia|]. unfold canonical.
      rewrite Zdigits2_div by lia.
      replace (Zdigits2 mx - n + (ex + n))%Z with (Zdigits2 mx + ex)%Z by lia.
      subst n. lia.
  - split; [|reflexivity].
    destruct (round_nearest_even_cases mrs) as [H1|[H1 Hin]].
    + left. now rewrite H1, Hm.
    + right. split; [now rewrite H1, Hm|].
      rewrite Hin in Hloc'. cbn in Hloc'. lra.
Qed.

Lemma finalize_value (s : bool) (m e m1 : Z) :
  grid m e -> (0 <= m)%Z -> (m1 = m \/ m1 = (m + 1)%Z) ->
  (m1 = 0%Z /\ finalize s m1 e = S754_zero s)
  \/ (exists m' e',
         (0 < m')%Z /\ canonical m' e' /\ F2R m' e' = F2R m1 e
         /\ finalize s m1 e = overflow_or s m' e').
Proof.
  intros Hg Hm [->| ->].
  - destruct Hg as [[Hm' Cm]|[-> ->]].
    + right. exists m, e. repeat split; try assumption.
      now apply finalize_canonical.
    + left. split; [reflexivity|apply finalize_zero].
  - right. destruct (grid_succ m e Hg) as [C|[Heq C]].
    + exists (m + 1)%Z, e. repeat split; try assumption; try lia.
      apply finalize_canonical; [lia|assumption].
    + exists (2 ^ (prec - 1))%Z, (e + 1)%Z.
      split; [apply Z.pow_pos_nonneg; lia|]. split; [exact C|]. split.
      * rewrite Heq. rewrite <- (F2R_shift (2 ^ (prec - 1)) (e + 1) 1) by lia.
        f_equal; [|lia]. rewrite <- Z.pow_add_r by lia. f_equal. lia.
      * rewrite Heq. now apply finalize_carry.
Qed.

(** The rounded result does not pass a float above the real... *)
Lemma round_aux_le (s : bool) (mx ex : Z) (lx : location) (x : R) (mz ez : Z) :
  (0 < mx)%Z -> (ex <= fexp (Zdigits2 mx + ex))%Z ->
  located mx ex (exactb lx) x ->
  (0 < mz)%Z -> canonical mz ez -> (ez <= emax - prec)%Z ->
  x <= F2R mz ez ->
  binary_round_aux prec emax s mx ex lx = S754_zero s
  \/ exists m e,
       binary_round_aux prec emax s mx ex lx = S754_finite s m e
       /\ canonical (Zpos m) e /\ (e <= emax - prec)%Z
       /\ F2R (Zpos m) e <= F2R mz ez.
Proof.
  intros Hmx Hex Hloc Hmz Cz Hez Hx.
  destruct (binary_round_aux_char s mx ex lx x Hmx Hex Hloc)
    as (m & e & m1 & Hg & Hm & [Hlo Hhi] & Hm1 & ->).
  assert (F2R m1 e <= F2R mz ez) as Hv.
  { destruct Hm1 as [->|[-> Hlt]]; [lra|].
    destruct (Rle_lt_dec (F2R (m + 1) e) (F2R mz ez)) as [?|Hgap];
      [assumption|].
    pose proof (grid_gap m e mz ez Hg Hmz Cz Hgap). lra. }
  destruct (finalize_value s m e m1 Hg Hm) as [[_ ->]|(m' & e' & Hm' & C' & Hv' & ->)].
  - destruct Hm1 as [->|[-> _]]; auto.
  - now left.
  - right. rewrite <- Hv' in Hv.
    pose proof (canonical_le_exp m' e' mz ez Hm' Hmz C' Cz Hv) as Hee.
    unfold overflow_or. destruct (Z.leb_spec e' (emax - prec)); [|lia].
    exists (Z.to_pos m'), e'. rewrite Z2Pos.id by lia. auto.
Qed.

(** ... nor a float below it. *)
Lemma round_aux_ge (s : bool) (mx ex : Z) (lx : location) (x : R) (mz ez : Z) :
  (0 < mx)%Z -> (ex <= fexp (Zdigits2 mx + ex))%Z ->
  located mx ex (exactb lx) x ->
  (0 < mz)%Z -> canonical mz ez ->
  F2R mz ez <= x ->
  binary_round_aux prec emax s mx ex lx = S754_infinity s
  \/ exists m e,
       binary_round_aux prec emax s mx ex lx = S754_finite s m e
       /\ canonical (Zpos m) e /\ (e <= emax - prec)%Z
       /\ F2R mz ez <= F2R (Zpos m) e.
Proof.
  intros Hmx Hex Hloc Hmz Cz Hx.
  destruct (binary_round_aux_char s mx ex lx x Hmx Hex Hloc)
    as (m & e & m1 & Hg & Hm & [Hlo Hhi] & Hm1 & ->).
  assert (0 < F2R mz ez) as Hzpos.
  { unfold F2R. apply IZR_lt in Hmz. pose proof (bpow_gt_0 ez). nra. }
  assert (F2R mz ez <= F2R m1 e) as Hv.
  { destruct Hm1 as [->|[-> Hlt]]; [|lra].
    apply (grid_gap m e mz ez Hg Hmz Cz). lra. }
  destruct (finalize_value s m e m1 Hg Hm) as [[H0 _]|(m' & e' & Hm' & C' & Hv' & ->)].
  - destruct Hm1 as [->|[-> _]]; auto.
  - subst m1. unfold F2R in Hv at 2. rewrite Rmult_0_l in Hv. lra.
  - unfold overflow_or. destruct (Z.leb_spec e' (emax - prec)); [|now left].
    right. exists (Z.to_pos m'), e'. rewrite Z2Pos.id by lia.
    rewrite Hv'. auto.
Qed.


(** *** Positive finite floats and correctly bounded results *)

Definition B2R (x : float) : R :=
  match x with
  | S754_finite s m e => F2R (cond_Zopp s (Zpos m)) e
  | _ => 0
  end.

(** A positive, finite and valid float of the format. *)
Definition pos_finite (x : float) : Prop :=
  exists m e, x = S754_finite false m e
              /\ canonical (Zpos m) e /\ (e <= emax - prec)%Z.

(** [rounds x r]: the float [r] stands for the positive real [x] so that no
    float of the format lies between them; [r] is zero only if no positive
    float is below [x], and infinite only if none is above. *)
Definition rounds (x : R) (r : float) : Prop :=
  (forall z, pos_finite z -> x <= B2R z ->
             r = S754_zero false \/ (pos_finite r /\ B2R r <= B2R z))
  /\ (forall z, pos_finite z -> B2R z <= x ->
                r = S754_infinity false \/ (pos_finite r /\ B2R z <= B2R r)).

Lemma pos_finite_valid (x : float) :
  pos_finite x -> valid_binary prec emax x = true.
Proof.
  intros (m & e & -> & C & He). cbn [valid_binary]. now apply bounded_iff.
Qed.

Lemma valid_pos_finite (m : positive) (e : Z) :
  valid_binary prec emax (S754_finite false m e) = true ->
  pos_finite (S754_finite false m e).
Proof.
  cbn [valid_binary]. intros H. apply bounded_iff in H as [C He].
  exists m, e. auto.
Qed.

Lemma pos_finite_pos (x : float) : pos_finite x -> 0 < B2R x.
Proof.
  intros (m & e & -> & _). cbn [B2R cond_Zopp]. unfold F2R.
  pose proof (bpow_gt_0 e). assert (0 < IZR (Zpos m)) by (apply IZR_lt; lia).
  nra.
Qed.

Lemma pos_finite_lt_emax (x : float) : pos_finite x -> B2R x < bpow emax.
Proof.
  intros (m & e & -> & C & He). cbn [B2R cond_Zopp].
  pose proof (F2R_bounds (Zpos m) e ltac:(lia)) as [_ Hu].
  pose proof (canonical_digits (Zpos m) e ltac:(lia) C) as [Hd _].
  pose proof (bpow_le (Zdigits2 (Zpos m) + e) emax ltac:(lia)). lra.
Qed.

Lemma round_aux_rounds (mx ex : Z) (lx : location) (x : R) :
  (0 < mx)%Z -> (ex <= fexp (Zdigits2 mx + ex))%Z ->
  located mx ex (exactb lx) x ->
  rounds x (binary_round_aux prec emax false mx ex lx).
Proof.
  intros Hmx Hex Hloc. split; intros z (mz & ez & -> & Cz & Hez) Hx;
    cbn [B2R cond_Zopp] in *.
  - destruct (round_aux_le false mx ex lx x (Zpos mz) ez Hmx Hex Hloc
                ltac:(lia) Cz Hez Hx) as [->|(m & e & -> & C & He & Hv)];
      [now left|right].
    split; [exists m, e; auto|exact Hv].
  - destruct (round_aux_ge false mx ex lx x (Zpos mz) ez Hmx Hex Hloc
                ltac:(lia) Cz Hx) as [->|(m & e & -> & C & He & Hv)];
      [now left|right].
    split; [exists m, e; auto|exact Hv].
Qed.

(** A real that is a float of the format is left as it is. *)
Lemma rounds_exact (x : R) (r z : float) :
  rounds x r -> pos_finite z -> B2R z = x -> pos_finite r /\ B2R r = x.
Proof.
  intros [Hle Hge] Hz Hx.
  destruct (Hle z Hz ltac:(lra)) as [->|[Hr Hv1]];
    destruct (Hge z Hz ltac:(lra)) as [Hinf|[Hr' Hv2]];
    try discriminate.
  - destruct Hr' as (m & e & Heq & _). discriminate.
  - subst r. destruct Hr as (m & e & Heq & _). discriminate.
  - split; [assumption|lra].
Qed.

(** Mantissas of at most [prec] digits in the exponent range are floats. *)
Lemma representable (M E : Z) :
  (0 < M)%Z -> (Zdigits2 M <= prec)%Z -> (emin <= E)%Z ->
  (Zdigits2 M + E <= emax)%Z ->
  exists z, pos_finite z /\ B2R z = F2R M E.
Proof.
  intros HM Hd HE Hmax.
  set (e := fexp (Zdigits2 M + E)).
  assert (e <= E)%Z as HeE by (subst e; unfold SpecFloat.fexp; lia).
  assert (0 < M * 2 ^ (E - e))%Z as Hpos.
  { pose proof (Z.pow_pos_nonneg 2 (E - e) ltac:(lia) ltac:(lia)). nia. }
  exists (S754_finite false (Z.to_pos (M * 2 ^ (E - e))) e). split.
  - exists (Z.to_pos (M * 2 ^ (E - e))), e. split; [reflexivity|].
    rewrite Z2Pos.id by exact Hpos. split.
    + unfold canonical. rewrite Zdigits2_shift by lia.
      replace (Zdigits2 M + (E - e) + e)%Z with (Zdigits2 M + E)%Z by lia.
      reflexivity.
    + subst e. unfold SpecFloat.fexp, SpecFloat.emin in *. lia.
  - cbn [B2R cond_Zopp]. rewrite Z2Pos.id by exact Hpos.
    rewrite <- (F2R_shift M E (E - e)) by lia. f_equal. lia.
Qed.

(** *** The operations *)

Lemma shl_align_spec (mx : positive) (ex ex' : Z) :
  let ez := Z.min ex ex' in
  shl_align mx ex ex' = (Z.to_pos (Zpos mx * 2 ^ (ex - ez)), ez).
Proof.
  intros ez. unfold shl_align.
  destruct (ex' - ex)%Z as [|d|d] eqn:Hd.
  - replace ez with ex by lia. rewrite Z.sub_diag, Z.mul_1_r. reflexivity.
  - replace ez with ex by lia. rewrite Z.sub_diag, Z.mul_1_r. reflexivity.
  - replace ez with ex' by lia. f_equal.
    replace (ex - ex')%Z with (Zpos d) by lia.
    change (Pos.iter xO mx d) with (shift_pos d mx).
    apply Pos2Z.inj. rewrite shift_pos_correct, Z2Pos.id.
    + change (Z.pow_pos 2 d) with (2 ^ Zpos d)%Z. lia.
    + pose proof (Z.pow_pos_nonneg 2 (Zpos d) ltac:(lia) ltac:(lia)). nia.
Qed.

Lemma binary_round_rounds (mx : positive) (ex : Z) :
  rounds (F2R (Zpos mx) ex) (binary_round prec emax false mx ex).
Proof.
  unfold binary_round. rewrite shl_align_spec.
  set (ez := Z.min ex (fexp (Zpos (digits2_pos mx) + ex))).
  assert (0 < Zpos mx * 2 ^ (ex - ez))%Z as Hpos.
  { pose proof (Z.pow_pos_nonneg 2 (ex - ez) ltac:(lia) ltac:(lia)). nia. }
  rewrite Z2Pos.id by exact Hpos.
  apply round_aux_rounds; [exact Hpos| |].
  - rewrite Zdigits2_shift by lia.
    replace (Zdigits2 (Zpos mx) + (ex - ez) + ez)%Z
      with (Zpos (digits2_pos mx) + ex)%Z by (cbn [Zdigits2]; lia).
    lia.
  - cbn [exactb located].
    rewrite <- (F2R_shift (Zpos mx) ex (ex - ez)) by lia. f_equal. lia.
Qed.

Lemma to_format_rounds (m : positive) (e : Z) :
  rounds (F2R (Zpos m) e) (to_format prec emax (S754_finite false m e)).
Proof. apply binary_round_rounds. Qed.

Lemma of_int_rounds (n : Z) :
  (0 < n)%Z -> rounds (IZR n) (binary_normalize prec emax n 0 false).
Proof.
  intros Hn. destruct n as [|p|p]; try lia. cbn [binary_normalize].
  replace (IZR (Zpos p)) with (F2R (Zpos p) 0)
    by (unfold F2R; rewrite bpow_0; lra).
  apply binary_round_rounds.
Qed.

Lemma Zdigits2_ge (m k : Z) :
  (0 <= k)%Z -> (2 ^ k <= m)%Z -> (k + 1 <= Zdigits2 m)%Z.
Proof.
  intros Hk Hm.
  assert (0 < m)%Z as Hpos
      by (pose proof (Z.pow_pos_nonneg 2 k ltac:(lia) Hk); lia).
  pose proof (Zdigits2_bounds m Hpos) as [_ Hu].
  pose proof (Zdigits2_pos m Hpos).
  destruct (Z_lt_le_dec k (Zdigits2 m)) as [?|Hge]; [lia|].
  assert (2 ^ Zdigits2 m <= 2 ^ k)%Z by (apply Z.pow_le_mono_r; lia). lia.
Qed.

Lemma SFmul_rounds (a b : float) :
  pos_finite a -> pos_finite b ->
  rounds (B2R a * B2R b) (SFmul prec emax a b).
Proof.
  intros (mx & ex & -> & Cx & Hex) (my & ey & -> & Cy & Hey).
  cbn [SFmul xorb B2R cond_Zopp].
  pose proof (Zdigits2_bounds (Zpos mx) ltac:(lia)) as [Hlx _].
  pose proof (Zdigits2_bounds (Zpos my) ltac:(lia)) as [Hly _].
  pose proof (Zdigits2_pos (Zpos mx) ltac:(lia)) as Hdx.
  pose proof (Zdigits2_pos (Zpos my) ltac:(lia)) as Hdy.
  apply round_aux_rounds.
  - lia.
  - assert (Zdigits2 (Zpos mx) + Zdigits2 (Zpos my) - 2 + 1
            <= Zdigits2 (Zpos (mx * my)))%Z as Hd.
    { apply Zdigits2_ge; [lia|].
      replace (Zdigits2 (Zpos mx) + Zdigits2 (Zpos my) - 2)%Z
        with ((Zdigits2 (Zpos mx) - 1) + (Zdigits2 (Zpos my) - 1))%Z by lia.
      rewrite Z.pow_add_r by lia. rewrite Pos2Z.inj_mul.
      apply Z.mul_le_mono_nonneg; try lia;
        apply Z.pow_nonneg; lia. }
    unfold canonical, SpecFloat.fexp, SpecFloat.emin in *. lia.
  - cbn [exactb located]. unfold F2R.
    rewrite Pos2Z.inj_mul, mult_IZR, bpow_plus. ring.
Qed.

Lemma exactb_new_location (nb_steps k : Z) :
  exactb (new_location nb_steps k) = (k =? 0)%Z.
Proof.
  unfold new_location, new_location_even, new_location_odd.
  destruct (Z.even nb_steps); destruct (k =? 0)%Z; reflexivity.
Qed.

(** Division, for a quotient in the normal range of the format. *)
Lemma SFdiv_rounds (a b : float) :
  pos_finite a -> pos_finite b ->
  bpow (emin + prec + 1) <= B2R a / B2R b ->
  rounds (B2R a / B2R b) (SFdiv prec emax a b).
Proof.
  intros (mx & ex & -> & Cx & Hex) (my & ey & -> & Cy & Hey) Hnorm.
  cbn [SFdiv xorb B2R cond_Zopp] in *.
  unfold SFdiv_core_binary.
  set (d1 := Zdigits2 (Zpos mx)). set (d2 := Zdigits2 (Zpos my)).
  pose proof (F2R_bounds (Zpos mx) ex ltac:(lia)) as [Hx1 Hx2].
  pose proof (F2R_bounds (Zpos my) ey ltac:(lia)) as [Hy1 Hy2].
  fold d1 in Hx1, Hx2. fold d2 in Hy1, Hy2.
  pose proof (bpow_gt_0 (d2 - 1 + ey)) as Hb2.
  assert (emin + prec < d1 + ex - (d2 + ey))%Z as Hk.
  { destruct (Z_lt_le_dec (emin + prec) (d1 + ex - (d2 + ey))) as [?|Hge];
      [assumption|exfalso].
    assert (F2R (Zpos mx) ex / F2R (Zpos my) ey
            < bpow (d1 + ex - (d2 - 1 + ey))) as Hq.
    { replace (d1 + ex)%Z with ((d1 + ex - (d2 - 1 + ey)) + (d2 - 1 + ey))%Z
        in Hx2 by lia.
      rewrite bpow_plus in Hx2.
      pose proof (bpow_gt_0 (d1 + ex - (d2 - 1 + ey))) as Hb.
      apply Rdiv_lt_iff; [lra|]. nra. }
    pose proof (bpow_le (d1 + ex - (d2 - 1 + ey)) (emin + prec + 1) ltac:(lia)).
    lra. }
  set (e' := Z.min (fexp (d1 + ex - (d2 + ey))) (ex - ey)).
  assert (e' <= d1 + ex - (d2 + ey) - prec)%Z as He'1
      by (subst e'; unfold SpecFloat.fexp; lia).
  assert (e' <= ex - ey)%Z as He'2 by (subst e'; lia).
  set (s := (ex - ey - e')%Z).
  assert (0 <= s)%Z as Hs by (subst s; lia).
  assert (match s with
          | Zpos _ => Z.shiftl (Zpos mx) s
          | Z0 => Zpos mx
          | Zneg _ => 0%Z
          end = (Zpos mx * 2 ^ s)%Z) as ->.
  { destruct s as [|p|p] eqn:Hsp; [lia| |lia].
    apply Z.shiftl_mul_pow2. lia. }
  assert (0 < Zpos mx * 2 ^ s)%Z as Hm'.
  { pose proof (Z.pow_pos_nonneg 2 s ltac:(lia) Hs). nia. }
  pose proof (Z_div_mod (Zpos mx * 2 ^ s) (Zpos my) ltac:(lia)) as Hdm.
  destruct (Z.div_eucl (Zpos mx * 2 ^ s) (Zpos my)) as [q r].
  destruct Hdm as [Hdm Hr].
  assert (2 ^ (prec - 1) <= q)%Z as Hq.
  { pose proof (Zdigits2_bounds (Zpos mx) ltac:(lia)) as [Hl1 _].
    pose proof (Zdigits2_bounds (Zpos my) ltac:(lia)) as [_ Hu2].
    fold d1 in Hl1. fold d2 in Hu2.
    pose proof (Zdigits2_pos (Zpos mx) ltac:(lia)) as Hd1. fold d1 in Hd1.
    pose proof (Zdigits2_pos (Zpos my) ltac:(lia)) as Hd2. fold d2 in Hd2.
    assert (2 ^ (prec - 1) * 2 ^ d2 <= Zpos mx * 2 ^ s)%Z as Hbig.
    { rewrite <- Z.pow_add_r by lia.
      apply Z.le_trans with (2 ^ (d1 - 1) * 2 ^ s)%Z.
      - rewrite <- Z.pow_add_r by lia. apply Z.pow_le_mono_r; lia.
      - apply Z.mul_le_mono_nonneg_r; [apply Z.pow_nonneg; lia|exact Hl1]. }
    assert (0 < 2 ^ (prec - 1))%Z by (apply Z.pow_pos_nonneg; lia).
    destruct (Z_lt_le_dec q (2 ^ (prec - 1))) as [Hlt|?]; [exfalso|assumption].
    nia. }
  assert (0 < q)%Z as Hqpos.
  { pose proof (Z.pow_pos_nonneg 2 (prec - 1) ltac:(lia) ltac:(lia)). lia. }
  apply round_aux_rounds; [exact Hqpos| |].
  - pose proof (Zdigits2_ge q (prec - 1) ltac:(lia) Hq).
    unfold SpecFloat.fexp. lia.
  - rewrite exactb_new_location.
    assert (F2R (Zpos mx) ex / F2R (Zpos my) ey
            = (IZR q + IZR r / IZR (Zpos my)) * bpow e') as Hval.
    { unfold F2R.
      assert (0 < IZR (Zpos my)) as Hmy by (apply IZR_lt; lia).
      pose proof (bpow_gt_0 ey) as Hbey.
      replace ex with (s + e' + ey)%Z at 1 by (subst s; lia).
      rewrite !bpow_plus.
      apply (f_equal IZR) in Hdm.
      rewrite plus_IZR, !mult_IZR, <- bpow_IZR in Hdm by exact Hs.
      field_simplify_eq; [|split; lra].
      rewrite Hdm. ring. }
    rewrite Hval. unfold located, F2R.
    assert (0 < IZR (Zpos my)) as Hmy by (apply IZR_lt; lia).
    pose proof (bpow_gt_0 e') as Hbe.
    destruct (Z.eqb_spec r 0) as [->|Hr0].
    + unfold Rdiv. rewrite Rmult_0_l, Rplus_0_r. reflexivity.
    + assert (0 < IZR r / IZR (Zpos my) < 1) as [Hf1 Hf2].
      { assert (0 < IZR r) by (apply IZR_lt; lia).
        assert (IZR r < IZR (Zpos my)) by (apply IZR_lt; lia).
        split.
        - apply Rdiv_lt_0_compat; assumption.
        - apply Rdiv_lt_iff; [assumption|]. lra. }
      rewrite plus_IZR. split; nra.
Qed.

End Format.

(** *** The two formats of the bridge *)

Definition pos32 : float -> Prop := pos_finite prec32 emax32.
Definition pos64 : float -> Prop := pos_finite prec64 emax64.

Lemma format32 : (0 < prec32)%Z /\ (prec32 < emax32)%Z.
Proof. unfold prec32, emax32. lia. Qed.

Lemma format64 : (0 < prec64)%Z /\ (prec64 < emax64)%Z.
Proof. unfold prec64, emax64. lia. Qed.

Lemma Zdigits2_le (m k : Z) :
  (0 < m)%Z -> (0 <= k)%Z -> (m < 2 ^ k)%Z -> (Zdigits2 m <= k)%Z.
Proof.
  intros Hm Hk Hlt. pose proof (Zdigits2_bounds m Hm) as [Hl _].
  pose proof (Zdigits2_pos m Hm).
  destruct (Z_lt_le_dec k (Zdigits2 m)) as [Hgt|?]; [|assumption].
  assert (2 ^ k <= 2 ^ (Zdigits2 m - 1))%Z by (apply Z.pow_le_mono_r; lia).
  lia.
Qed.

Lemma Zdigits2_mul_le (a b : Z) :
  (0 < a)%Z -> (0 < b)%Z -> (Zdigits2 (a * b) <= Zdigits2 a + Zdigits2 b)%Z.
Proof.
  intros Ha Hb.
  pose proof (Zdigits2_bounds a Ha) as [_ Hua].
  pose proof (Zdigits2_bounds b Hb) as [_ Hub].
  pose proof (Zdigits2_pos a Ha). pose proof (Zdigits2_pos b Hb).
  apply Zdigits2_le; [nia|lia|].
  rewrite Z.pow_add_r by lia. nia.
Qed.

(** Widening to [float64] is exact. *)
Lemma to64_exact (y : float) :
  pos32 y -> pos64 (to64 y) /\ B2R (to64 y) = B2R y.
Proof.
  intros Hy. pose proof Hy as (m & e & -> & C & He).
  destruct format32 as [Hp32 He32]. destruct format64 as [Hp64 He64].
  pose proof (canonical_digits prec32 emax32 (Zpos m) e ltac:(lia) C) as [Hd Hemin].
  destruct (representable prec64 emax64 Hp64 He64 (Zpos m) e) as (z & Hz & Hv);
    try lia.
  { unfold prec32, prec64 in *. lia. }
  { unfold SpecFloat.emin, prec32, emax32, prec64, emax64 in *. lia. }
  { unfold prec32, emax32, prec64, emax64 in *. lia. }
  apply (rounds_exact prec64 emax64 _ _ z); [|exact Hz|exact Hv].
  apply to_format_rounds; assumption.
Qed.

(** Small positive integers convert exactly. *)
Lemma of_int_exact (prec emax n : Z) :
  (0 < prec)%Z -> (prec < emax)%Z -> (0 < n < 2 ^ prec)%Z ->
  pos_finite prec emax (binary_normalize prec emax n 0 false)
  /\ B2R (binary_normalize prec emax n 0 false) = IZR n.
Proof.
  intros Hp He Hn.
  destruct (representable prec emax Hp He n 0) as (z & Hz & Hv); try lia.
  { apply Zdigits2_le; lia. }
  { unfold SpecFloat.emin. lia. }
  { pose proof (Zdigits2_le n prec ltac:(lia) ltac:(lia) ltac:(lia)). lia. }
  apply (rounds_exact prec emax _ _ z); [|exact Hz|].
  - apply of_int_rounds; lia.
  - rewrite Hv. unfold F2R. rewrite bpow_0. lra.
Qed.

Lemma rounds_between (prec emax : Z) (x : R) (r lo hi : float) :
  rounds prec emax x r ->
  pos_finite prec emax lo -> pos_finite prec emax hi ->
  B2R lo <= x -> x <= B2R hi ->
  pos_finite prec emax r /\ B2R lo <= B2R r <= B2R hi.
Proof.
  intros [Hle Hge] Hlo Hhi Hx1 Hx2.
  destruct (Hle hi Hhi Hx2) as [->|[Hr Hv1]];
    destruct (Hge lo Hlo Hx1) as [Hinf|[Hr' Hv2]];
    try discriminate.
  - destruct Hr' as (m & e & Heq & _). discriminate.
  - subst r. destruct Hr as (m & e & Heq & _). discriminate.
  - split; [assumption|lra].
Qed.

(** *** Conversion to an integer *)

Lemma trunc_le_value (m : positive) (e : Z) :
  IZR (if (0 <=? e)%Z then Zpos m * 2 ^ e else Zpos m / 2 ^ (- e))
  <= F2R (Zpos m) e.
Proof.
  unfold F2R. destruct (Z.leb_spec 0 e) as [He|He].
  - rewrite mult_IZR, <- bpow_IZR by lia. lra.
  - assert (0 < 2 ^ (- e))%Z as Hp by (apply Z.pow_pos_nonneg; lia).
    pose proof (Z.mul_div_le (Zpos m) (2 ^ (- e)) Hp) as Hd.
    apply IZR_le in Hd. rewrite mult_IZR, <- bpow_IZR in Hd by lia.
    pose proof (bpow_gt_0 e) as Hbe.
    assert (bpow (- e) * bpow e = 1) as Hone
        by (rewrite <- bpow_plus; replace (- e + e)%Z with 0%Z by lia;
            apply bpow_0).
    set (t := IZR (Zpos m / 2 ^ (- e))) in *.
    assert (t * (bpow (- e) * bpow e) <= IZR (Zpos m) * bpow e) by nra.
    rewrite Hone in *. lra.
Qed.

(** A float that converts to a positive integer is positive and finite,
    and at least that integer. *)
Lemma to_int_pos (x : float) (n : Z) :
  (1 <= n)%Z -> (n <= to_int x)%Z ->
  exists m e, x = S754_finite false m e /\ IZR n <= F2R (Zpos m) e.
Proof.
  intros Hn Hx. unfold to_int, minInt64 in Hx.
  destruct x as [s|s| |s m e]; cbn [trunc] in Hx; try (simpl in Hx; lia).
  exists m, e.
  destruct ((- 2 ^ 63 <=? _) && _)%Z eqn:Hr in Hx; [|lia].
  destruct s; cbn [cond_Zopp] in Hx.
  - exfalso.
    assert (0 <= (if (0 <=? e)%Z then Zpos m * 2 ^ e else Zpos m / 2 ^ (- e)))%Z.
    { destruct (Z.leb_spec 0 e).
      - pose proof (Z.pow_nonneg 2 e ltac:(lia)). nia.
      - apply Z.div_pos; [lia|]. apply Z.pow_pos_nonneg; lia. }
    lia.
  - split; [reflexivity|].
    pose proof (trunc_le_value m e) as Hv. apply IZR_le in Hx. lra.
Qed.

(** A value below a positive integer converts to an integer below it. *)
Lemma to_int_lt (x : float) (n : Z) :
  (0 < n)%Z -> B2R x < IZR n -> (to_int x < n)%Z.
Proof.
  intros Hn Hx. unfold to_int, minInt64.
  destruct x as [s|s| |s m e]; cbn [trunc]; try (simpl; lia).
  destruct ((- 2 ^ 63 <=? _) && _)%Z; [|lia].
  destruct s; cbn [cond_Zopp B2R] in *.
  - assert (0 <= (if (0 <=? e)%Z then Zpos m * 2 ^ e else Zpos m / 2 ^ (- e)))%Z.
    { destruct (Z.leb_spec 0 e).
      - pose proof (Z.pow_nonneg 2 e ltac:(lia)). nia.
      - apply Z.div_pos; [lia|]. apply Z.pow_pos_nonneg; lia. }
    lia.
  - pose proof (trunc_le_value m e) as Hv. apply lt_IZR. lra.
Qed.

Lemma binary_round_aux_sign (prec emax : Z) (s : bool) (mx ex : Z)
  (lx : location) (s' : bool) (m : positive) (e : Z) :
  binary_round_aux prec emax s mx ex lx = S754_finite s' m e -> s' = s.
Proof.
  unfold binary_round_aux.
  destruct (shr_fexp prec emax mx ex lx) as [mrs e1].
  destruct (shr_fexp prec emax _ e1 loc_Exact) as [mrs' e2].
  destruct (shr_m mrs'); try discriminate.
  destruct (e2 <=? emax - prec)%Z; try discriminate. congruence.
Qed.

Lemma to_format_finite_inv (prec emax : Z) (y : float) (m : positive) (e : Z) :
  to_format prec emax y = S754_finite false m e ->
  exists m' e', y = S754_finite false m' e'.
Proof.
  destruct y as [s|s| |s m' e']; cbn [to_format]; try discriminate.
  intros H. destruct s; [|eauto].
  cbn [cond_Zopp] in H. change (- Zpos m')%Z with (Zneg m') in H.
  cbn [binary_normalize] in H. unfold binary_round in H.
  destruct (shl_align _ _ _) as [mz ez].
  apply binary_round_aux_sign in H. discriminate.
Qed.

(** *** The letterbox multiplier *)

Lemma one32_exact : pos32 one32 /\ B2R one32 = 1.
Proof.
  destruct format32 as [Hp He].
  apply (of_int_exact prec32 emax32 1 Hp He). unfold prec32. lia.
Qed.

Lemma tiny_pos (prec emax : Z) :
  (3 <= prec)%Z -> (prec < emax)%Z -> (128 <= emax)%Z ->
  exists z, pos_finite prec emax z /\ B2R z = bpow (-128).
Proof.
  intros Hp He H128.
  assert (Zdigits2 1 = 1%Z) as Hd by reflexivity.
  destruct (representable prec emax ltac:(lia) He 1 (-128)) as (z & Hz & Hv).
  - lia.
  - rewrite Hd. lia.
  - unfold SpecFloat.emin. lia.
  - rewrite Hd. lia.
  - exists z. split; [exact Hz|]. rewrite Hv. unfold F2R. lra.
Qed.

Lemma ltb_value (x y : float) :
  pos64 x -> pos64 y -> ltb x y = true -> B2R x < B2R y.
Proof.
  intros (mx & ex & -> & Cx & _) (my & ey & -> & Cy & _) H.
  now apply (SFltb_canonical prec64 emax64 mx my ex ey Cx Cy).
Qed.

Lemma leb_one32 (x : float) :
  x = S754_infinity false \/ (pos32 x /\ 1 <= B2R x) ->
  leb one32 x = true.
Proof.
  intros [->|[Hx Hv]]; [reflexivity|].
  destruct one32_exact as [(m1 & e1 & H1 & C1 & _) Hv1].
  destruct Hx as (m & e & -> & C & _).
  rewrite H1 in *.
  apply (SFleb_canonical prec32 emax32 m1 m e1 e C1 C).
  cbn [B2R cond_Zopp] in *. lra.
Qed.

(** The scaled side of the frame is the model side times the short input
    side over the long one; it does not exceed the model side, so the
    multiplier, the model side over the scaled side, is at least 1. *)
Lemma multiplier_ge_1 (n : Z) (short long : float) :
  (0 < n < 2 ^ 24)%Z -> pos32 short -> pos32 long ->
  1 <= B2R short -> B2R short < B2R long ->
  let side := to32 (div64 (mul64 (of_int64 n) (to64 short)) (to64 long)) in
  leb one32 (div32 (of_int32 n) side) = true.
Proof.
  intros Hn Hs Hl Hs1 Hlt side.
  destruct format32 as [Hp32 He32]. destruct format64 as [Hp64 He64].
  (* the operands *)
  destruct (of_int_exact prec64 emax64 n Hp64 He64) as [Hn64 Vn64];
    [unfold prec64; split; [lia|];
     apply Z.lt_trans with (2 ^ 24)%Z; [lia|reflexivity]|].
  destruct (of_int_exact prec32 emax32 n Hp32 He32) as [Hn32 Vn32];
    [unfold prec32; lia|].
  fold (of_int64 n) in Hn64, Vn64. fold (of_int32 n) in Hn32, Vn32.
  destruct (to64_exact short Hs) as [Hs64 Vs64].
  destruct (to64_exact long Hl) as [Hl64 Vl64].
  assert (0 < IZR n) as Hnpos by (apply IZR_lt; lia).
  assert (1 <= IZR n) as Hn1 by (apply IZR_le; lia).
  pose proof (pos_finite_lt_emax prec32 emax32 long Hl) as Hlmax.
  change (bpow emax32) with (bpow 128) in Hlmax.
  assert (bpow (-128) * bpow 128 = 1) as Hinv
      by (rewrite <- bpow_plus; apply bpow_0).
  pose proof (bpow_gt_0 (-128)) as Htiny.
  (* the product is exact *)
  assert (pos64 (mul64 (of_int64 n) (to64 short))
          /\ B2R (mul64 (of_int64 n) (to64 short)) = IZR n * B2R short)
    as [Hp Vp].
  { destruct Hs as (m & e & -> & C & Hee).
    pose proof (canonical_digits prec32 emax32 (Zpos m) e ltac:(lia) C)
      as [Hd Hemin].
    destruct (representable prec64 emax64 Hp64 He64 (n * Zpos m) e)
      as (z & Hz & Vz).
    - lia.
    - pose proof (Zdigits2_mul_le n (Zpos m) ltac:(lia) ltac:(lia)).
      pose proof (Zdigits2_le n 24 ltac:(lia) ltac:(lia) ltac:(lia)).
      unfold prec32, prec64 in *. lia.
    - unfold SpecFloat.emin, prec32, emax32, prec64, emax64 in *. lia.
    - pose proof (Zdigits2_mul_le n (Zpos m) ltac:(lia) ltac:(lia)).
      pose proof (Zdigits2_le n 24 ltac:(lia) ltac:(lia) ltac:(lia)).
      unfold prec32, emax32, prec64, emax64 in *. lia.
    - apply (rounds_exact prec64 emax64 _ _ z); [|exact Hz|].
      + rewrite <- Vn64, <- Vs64.
        now apply SFmul_rounds.
      + rewrite Vz. cbn [B2R cond_Zopp]. unfold F2R.
        rewrite mult_IZR. ring. }
  (* the quotient lies between 2^-128 and the model side *)
  assert (0 < B2R long) as Hlpos by lra.
  assert (bpow (-128) <= IZR n * B2R short / B2R long <= IZR n) as [Hq1 Hq2].
  { split.
    - apply Rdiv_ge_iff; [exact Hlpos|]. nra.
    - apply Rdiv_le_iff; [exact Hlpos|]. nra. }
  destruct (tiny_pos prec64 emax64) as (t64 & Ht64 & Vt64);
    [unfold prec64; lia|exact He64|unfold emax64; lia|].
  assert (pos64 (div64 (mul64 (of_int64 n) (to64 short)) (to64 long))
          /\ bpow (-128)
             <= B2R (div64 (mul64 (of_int64 n) (to64 short)) (to64 long))
             <= IZR n) as [Hq [Vq1 Vq2]].
  { rewrite <- Vt64, <- Vn64.
    apply (rounds_between prec64 emax64
             (IZR n * B2R short / B2R long)); try assumption.
    - rewrite <- Vp, <- Vl64. apply SFdiv_rounds; try assumption.
      rewrite Vp, Vl64.
      apply Rle_trans with (bpow (-128)); [|exact Hq1].
      apply bpow_le. unfold SpecFloat.emin, prec64, emax64. lia.
    - now rewrite Vt64.
    - now rewrite Vn64. }
  (* so does the scaled side *)
  destruct (tiny_pos prec32 emax32) as (t32 & Ht32 & Vt32);
    [unfold prec32; lia|exact He32|unfold emax32; lia|].
  assert (pos32 side /\ bpow (-128) <= B2R side <= IZR n) as [Hside [Vs1 Vs2]].
  { rewrite <- Vt32, <- Vn32.
    apply (rounds_between prec32 emax32
             (B2R (div64 (mul64 (of_int64 n) (to64 short)) (to64 long))));
      try assumption.
    - subst side. destruct Hq as (m & e & -> & _).
      apply to_format_rounds; assumption.
    - now rewrite Vt32.
    - now rewrite Vn32. }
  (* and the multiplier is at least 1 *)
  apply leb_one32.
  destruct one32_exact as [H1 V1].
  assert (1 <= IZR n / B2R side) as Hx
      by (apply Rdiv_ge_iff; lra).
  assert (rounds prec32 emax32 (IZR n / B2R side) (div32 (of_int32 n) side))
    as [_ Hge].
  { rewrite <- Vn32. apply SFdiv_rounds; try assumption.
    rewrite Vn32.
    apply Rle_trans with 1; [|exact Hx].
    rewrite <- bpow_0. apply bpow_le.
    unfold SpecFloat.emin, prec32, emax32. lia. }
  destruct (Hge one32 H1 ltac:(lra)) as [?|[? ?]]; [now left|right].
  split; [assumption|lra].
Qed.

End IEEEFacts.

(** ** Keyframe duration *)

Module FfmpegFacts.
Import GoStrings Ffmpeg.

Fixpoint count_byte (c : ascii) (s : string) : nat :=
  match s with
  | EmptyString => 0
  | String b s' => (if Ascii.eqb b c then 1 else 0) + count_byte c s'
  end.

(** [Split] yields one field more than there are separators. *)
Lemma Split_length (sep : ascii) (s : string) :
  length (Split sep s) = S (count_byte sep s).
Proof.
  induction s as [|b s IH]; simpl; [reflexivity|].
  destruct (Ascii.eqb b sep); simpl.
  - now rewrite IH.
  - destruct (Split sep s); simpl in *; congruence.
Qed.

Lemma slice_in_range (s : string) (lo hi : nat) :
  (lo <= hi)%nat -> (hi <= String.length s)%nat -> is_Some (slice s lo hi).
Proof.
  intros Hlo Hhi. unfold slice.
  apply Nat.leb_le in Hlo, Hhi. rewrite Hlo, Hhi. simpl. eauto.
Qed.

(** The parser never panics: the two guards cover the index and the
    slice expression. *)
Lemma keyframeDurationOf_no_panic (m3u8 : string) :
  keyframeDurationOf m3u8 <> Panic.
Proof.
  unfold keyframeDurationOf.
  set (lines := Split newline (TrimSpace m3u8)).
  destruct (length lines <? 2)%nat eqn:Hlen; [discriminate|].
  apply Nat.ltb_ge in Hlen.
  destruct (lines !! (length lines - 2)%nat) as [line|] eqn:Hline.
  - destruct (String.length (RemoveAll "." line) <? 12)%nat eqn:Hl; [discriminate|].
    apply Nat.ltb_ge in Hl.
    destruct (slice_in_range (RemoveAll "." line) 8 12) as [d Hd]; [lia|lia|].
    rewrite Hd. destruct (Atoi d); discriminate.
  - apply lookup_ge_None in Hline. lia.
Qed.

Lemma keyframeDurationOf_line (m3u8 line : string) :
  let lines := Split newline (TrimSpace m3u8) in
  (2 <= length lines)%nat ->
  lines !! (length lines - 2)%nat = Some line ->
  keyframeDurationOf m3u8 =
    (let keyframeLine := RemoveAll "." line in
     if (String.length keyframeLine <? 12)%nat then Err ErrInvalidLine
     else match slice keyframeLine 8 12 with
          | None => Panic
          | Some digits =>
              match Atoi digits with
              | None => Err (ErrAtoi digits)
              | Some k => Ok (wrap64 (k * Millisecond))
              end
          end).
Proof.
  intros lines Hlen Hline. unfold keyframeDurationOf. fold lines.
  apply Nat.ltb_ge in Hlen. rewrite Hlen, Hline. reflexivity.
Qed.

(** The playlist of the comment in [getKeyframeDuration]. *)
Definition nl : string := String newline EmptyString.

Definition examplePlaylist (last : string) : string :=
  "#EXTM3U" ++ nl ++ "#EXT-X-VERSION:3" ++ nl ++ "#EXT-X-ALLOW-CACHE:NO" ++ nl
  ++ "#EXT-X-TARGETDURATION:2" ++ nl ++ "#EXT-X-MEDIA-SEQUENCE:251" ++ nl
  ++ "#EXTINF:4.250000," ++ nl ++ "10.ts" ++ nl
  ++ last ++ nl ++ "11.ts" ++ nl.

Definition exampleFS (content : string) : gmap string string :=
  {[ "/hls/x/index.m3u8" := content ]}.

(** C4.  For a readable playlist whose penultimate line (after trimming
    and splitting at newlines) is [#EXTINF:3.500000,],
    [getKeyframeDuration] returns 3500 milliseconds; with
    [#EXTINF:4.250000,] it returns 4250 milliseconds; and a playlist of
    fewer than two lines yields an error. *)
Theorem getKeyframeDuration_spec (fs : gmap string string)
  (hlsPath m3u8 : string) :
  fs !! hlsPath = Some m3u8 ->
  let lines := Split newline (TrimSpace m3u8) in
  ((2 <= length lines)%nat ->
   lines !! (length lines - 2)%nat = Some "#EXTINF:3.500000," ->
   getKeyframeDuration fs hlsPath = Ok (3500 * Millisecond))
  /\ ((2 <= length lines)%nat ->
      lines !! (length lines - 2)%nat = Some "#EXTINF:4.250000," ->
      getKeyframeDuration fs hlsPath = Ok (4250 * Millisecond))
  /\ ((length lines < 2)%nat ->
      getKeyframeDuration fs hlsPath = Err ErrTooFewLines).
Proof.
  intros Hfs lines.
  unfold getKeyframeDuration, ReadFile. rewrite Hfs.
  repeat split.
  - intros Hlen Hline.
    rewrite (keyframeDurationOf_line m3u8 _ Hlen Hline). reflexivity.
  - intros Hlen Hline.
    rewrite (keyframeDurationOf_line m3u8 _ Hlen Hline). reflexivity.
  - intros Hlen. unfold keyframeDurationOf. fold lines.
    apply Nat.ltb_lt in Hlen. now rewrite Hlen.
Qed.

Lemma getKeyframeDuration_spec_witness :
  getKeyframeDuration (exampleFS (examplePlaylist "#EXTINF:3.500000,"))
    "/hls/x/index.m3u8" = Ok (3500 * Millisecond)
  /\ getKeyframeDuration (exampleFS (examplePlaylist "#EXTINF:4.250000,"))
       "/hls/x/index.m3u8" = Ok (4250 * Millisecond)
  /\ getKeyframeDuration (exampleFS ("#EXTM3U" ++ nl)) "/hls/x/index.m3u8"
     = Err ErrTooFewLines.
Proof.
  split; [|split].
  - apply (getKeyframeDuration_spec
             (exampleFS (examplePlaylist "#EXTINF:3.500000,"))
             "/hls/x/index.m3u8" (examplePlaylist "#EXTINF:3.500000,"));
      [reflexivity | vm_compute; lia | reflexivity].
  - apply (getKeyframeDuration_spec
             (exampleFS (examplePlaylist "#EXTINF:4.250000,"))
             "/hls/x/index.m3u8" (examplePlaylist "#EXTINF:4.250000,"));
      [reflexivity | vm_compute; lia | reflexivity].
  - apply (getKeyframeDuration_spec (exampleFS ("#EXTM3U" ++ nl))
             "/hls/x/index.m3u8" ("#EXTM3U" ++ nl));
      [reflexivity | vm_compute; lia].
Defined.

(** A file that cannot be read is an error as well. *)
Lemma getKeyframeDuration_unreadable (fs : gmap string string) (hlsPath : string) :
  fs !! hlsPath = None ->
  getKeyframeDuration fs hlsPath = Err (ErrReadFile hlsPath).
Proof. intros H. unfold getKeyframeDuration, ReadFile. now rewrite H. Qed.

(** Fewer than two lines means: no newline is left after trimming. *)
Lemma too_few_lines_iff (m3u8 : string) :
  (length (Split newline (TrimSpace m3u8)) < 2)%nat
  <-> count_byte newline (TrimSpace m3u8) = 0%nat.
Proof. rewrite Split_length. lia. Qed.

End FfmpegFacts.

(** ** The process supervisor *)

Module ProcessFacts.
Import GoStrings Ffmpeg.

Lemma digits_of_pos_fuel_length (fuel : nat) (n : Z) (acc : string) :
  (0 < fuel)%nat ->
  (String.length acc < String.length (digits_of_pos_fuel fuel n acc))%nat.
Proof.
  revert n acc. induction fuel as [|fuel IH]; intros n acc Hf; [lia|].
  simpl. destruct (n <? 10); simpl; [lia|].
  destruct fuel as [|fuel']; simpl; [lia|].
  specialize (IH (n / 10) (String (ascii_of_N (Z.to_N (48 + n mod 10))) acc)).
  simpl in IH. lia.
Qed.

Lemma digit_char_inj (x y : Z) :
  0 <= x < 10 -> 0 <= y < 10 ->
  ascii_of_N (Z.to_N (48 + x)) = ascii_of_N (Z.to_N (48 + y)) -> x = y.
Proof.
  intros Hx Hy H.
  apply (f_equal N_of_ascii) in H.
  rewrite !N_ascii_embedding in H by lia. lia.
Qed.

Lemma digits_of_pos_fuel_step (fuel : nat) (n : Z) (acc : string) :
  digits_of_pos_fuel (S fuel) n acc =
    if n <? 10 then String (ascii_of_N (Z.to_N (48 + n mod 10))) acc
    else digits_of_pos_fuel fuel (n / 10)
           (String (ascii_of_N (Z.to_N (48 + n mod 10))) acc).
Proof. reflexivity. Qed.

(** Only the status 255 prints as ["255"]. *)
Lemma Itoa_255 (n : Z) : Itoa n = "255" -> n = 255.
Proof.
  unfold Itoa. destruct (n <? 0) eqn:Hneg; [discriminate|].
  apply Z.ltb_ge in Hneg.
  change 20%nat with (S (S (S 17))).
  remember 17%nat as fuel eqn:Hfuel.
  rewrite !digits_of_pos_fuel_step.
  destruct (n <? 10) eqn:H1; [discriminate|].
  destruct (n / 10 <? 10) eqn:H2; [discriminate|].
  apply Z.ltb_ge in H1, H2.
  destruct (n / 10 / 10 <? 10) eqn:H3.
  - apply Z.ltb_lt in H3. intros H.
    injection H as Ha Hb Hc.
    change "2"%char with (ascii_of_N (Z.to_N (48 + 2))) in Ha.
    change "5"%char with (ascii_of_N (Z.to_N (48 + 5))) in Hb, Hc.
    apply digit_char_inj in Ha, Hb, Hc;
      try lia; try (apply Z.mod_pos_bound; lia).
    pose proof (Z.div_mod n 10 ltac:(lia)).
    pose proof (Z.div_mod (n / 10) 10 ltac:(lia)).
    pose proof (Z.div_mod (n / 10 / 10) 10 ltac:(lia)).
    pose proof (Z.div_small (n / 10 / 10) 10 ltac:(lia)).
    lia.
  - intros H. apply (f_equal String.length) in H.
    match type of H with
    | String.length (digits_of_pos_fuel ?f ?m ?acc) = _ =>
        pose proof (digits_of_pos_fuel_length f m acc ltac:(lia)) as Hl
    end.
    rewrite H in Hl. simpl in Hl. lia.
Qed.

Lemma Error_exit_255 (e : goError) :
  e <> OtherError "exit status 255" ->
  String.eqb (Error e) "exit status 255" = true -> e = ExitError 255.
Proof.
  intros Hne H. apply String.eqb_eq in H.
  destruct e as [status|sig|msg]; cbn [Error String.append] in H.
  - f_equal. apply Itoa_255. now injection H.
  - discriminate.
  - congruence.
Qed.

(** What [Start] makes of the error of [cmd.Wait]. *)
Definition returned (w : option goError) : option goError :=
  match w with
  | Some (ExitError 255) => None
  | _ => w
  end.

Lemma Start_returns (p : process) (ch : child) (ctxDoneAt : option Time)
  (t0 : Time) (tieWatch tieStop : bool) :
  startErr ch = None ->
  is_Some ctxDoneAt \/ is_Some (exitsAt ch) ->
  exists trace r, Start p ch ctxDoneAt t0 tieWatch tieStop = Some (trace, r).
Proof.
  intros Hs H. unfold Start. rewrite Hs.
  destruct (stopCalledAt ch ctxDoneAt t0 tieWatch) as [c|] eqn:Hc.
  - destruct (stop p ch c tieStop). eauto.
  - destruct (exitsAt ch) as [e|] eqn:He; [eauto|].
    destruct H as [[c ->]|[e He']]; [|discriminate].
    unfold stopCalledAt in Hc. rewrite He in Hc. discriminate.
Qed.

Lemma returned_spec (w : option goError) :
  (w = Some (ExitError 255) -> returned w = None)
  /\ (w <> Some (ExitError 255) -> returned w = w).
Proof.
  split; [now intros ->|].
  intros Hne. destruct w as [[status| |]|]; try reflexivity.
  simpl. destruct status as [|q|q]; try reflexivity.
  do 8 (destruct q; try reflexivity). congruence.
Qed.

Lemma Start_result (p : process) (ch : child) (ctxDoneAt : option Time)
  (t0 : Time) (tieWatch tieStop : bool) (trace : list event)
  (r : option goError) :
  startErr ch = None ->
  waitErr ch <> Some (OtherError "exit status 255") ->
  Start p ch ctxDoneAt t0 tieWatch tieStop = Some (trace, r) ->
  r = returned (waitErr ch).
Proof.
  intros Hs Hother HS. unfold Start in HS. rewrite Hs in HS.
  destruct (match stopCalledAt ch ctxDoneAt t0 tieWatch with
            | Some now => _ | None => _ end); [|discriminate].
  injection HS as _ <-.
  destruct (waitErr ch) as [e|]; [|reflexivity].
  destruct (String.eqb (Error e) "exit status 255") eqn:He.
  - apply Error_exit_255 in He; [now subst e | congruence].
  - symmetry. apply returned_spec. intros [= ->]. discriminate He.
Qed.

(** C7.  Once the child is launched, [Start] returns when the child has
    exited, be it on its own or stopped after the context is done; it
    returns nil when [cmd.Wait] reports exit status 255 and exactly the
    error of [cmd.Wait] otherwise. *)
Theorem Start_exit_status (p : process) (ch : child)
  (ctxDoneAt : option Time) (t0 : Time) (tieWatch tieStop : bool) :
  startErr ch = None ->
  is_Some ctxDoneAt \/ is_Some (exitsAt ch) ->
  waitErr ch <> Some (OtherError "exit status 255") ->
  exists trace r,
    Start p ch ctxDoneAt t0 tieWatch tieStop = Some (trace, r)
    /\ (waitErr ch = Some (ExitError 255) -> r = None)
    /\ (waitErr ch <> Some (ExitError 255) -> r = waitErr ch).
Proof.
  intros Hs Hrun Hother.
  destruct (Start_returns p ch ctxDoneAt t0 tieWatch tieStop Hs Hrun)
    as (trace & r & HS).
  exists trace, r. split; [exact HS|].
  rewrite (Start_result _ _ _ _ _ _ _ _ Hs Hother HS).
  apply returned_spec.
Qed.

(** An encoder that is interrupted on context cancel and exits with
    status 255 within the grace period. *)
Definition encoder255 : child :=
  {| startErr := None; exitsAt := None;
     afterInterrupt := Some (20 * Millisecond);
     afterKill := 0; waitErr := Some (ExitError 255) |}.

Lemma Start_exit_status_witness :
  exists trace r,
    Start (SetTimeout NewProcess (50 * Millisecond)) encoder255
          (Some 5000000000) 0 false false
    = Some (trace, r)
    /\ (waitErr encoder255 = Some (ExitError 255) -> r = None)
    /\ (waitErr encoder255 <> Some (ExitError 255) -> r = waitErr encoder255).
Proof.
  apply (Start_exit_status (SetTimeout NewProcess (50 * Millisecond))
           encoder255 (Some 5000000000) 0 false false).
  - reflexivity.
  - left. exists 5000000000. reflexivity.
  - discriminate.
Defined.

(** A failed launch is returned as it is, and nothing is signalled. *)
Lemma Start_launch_failed (p : process) (ch : child)
  (ctxDoneAt : option Time) (t0 : Time) (tieWatch tieStop : bool)
  (err : goError) :
  startErr ch = Some err ->
  Start p ch ctxDoneAt t0 tieWatch tieStop = Some ([], Some err).
Proof. intros H. unfold Start. now rewrite H. Qed.

(** *** Stopping *)

(** When [p.done] would be closed if the supervisor sent no [os.Kill]. *)
Definition doneWithoutKill (ch : child) (now : Time) : option Time :=
  earliest (exitsAt ch)
           (option_map (fun d => now + Z.max 0 d) (afterInterrupt ch)).

Lemma stop_cases (p : process) (ch : child) (now : Time) (tie : bool) :
  let timer := now + Z.max 0 (timeout p) in
  (exists e, doneWithoutKill ch now = Some e /\ e <= timer
             /\ stop p ch now tie = ([Signalled now Interrupt], e))
  \/ (exists e, stop p ch now tie
                = ([Signalled now Interrupt; Signalled timer Kill], e)
                /\ timer <= e
                /\ forall d, doneWithoutKill ch now = Some d -> timer <= d).
Proof.
  intros timer. unfold stop. fold (doneWithoutKill ch now). fold timer.
  destruct (doneWithoutKill ch now) as [e|] eqn:Hd.
  - destruct ((e <? timer) || ((e =? timer) && tie)) eqn:Hb.
    + left. exists e. repeat split; try reflexivity.
      apply orb_true_iff in Hb as [Hb|Hb]; [apply Z.ltb_lt in Hb; lia|].
      apply andb_true_iff in Hb as [Hb _]. apply Z.eqb_eq in Hb. lia.
    + right. apply orb_false_iff in Hb as [Hb _]. apply Z.ltb_ge in Hb.
      eexists. split; [reflexivity|]. split; [lia|].
      intros d [= <-]. exact Hb.
  - right. eexists. split; [reflexivity|]. split; [lia|]. discriminate.
Qed.

Lemma stop_killed_gone (p : process) (ch : child) (now : Time) (tie : bool)
  (e : Time) :
  stop p ch now tie
  = ([Signalled now Interrupt;
      Signalled (now + Z.max 0 (timeout p)) Kill], e) ->
  e <= now + Z.max 0 (timeout p) + Z.max 0 (afterKill ch).
Proof.
  unfold stop.
  destruct (earliest _ _) as [d|]; [|intros [= <-]; lia].
  destruct ((d <? _) || _); [discriminate|].
  intros [= <-]. lia.
Qed.

(** The watcher of [Start] calls [stop] when the context is done while
    the child runs: at the cancellation, or at the start for a context
    that was done already. *)
Lemma stopCalledAt_running (ch : child) (c t0 : Time) (tie : bool) :
  (forall e, exitsAt ch = Some e -> Z.max t0 c < e) ->
  stopCalledAt ch (Some c) t0 tie = Some (Z.max t0 c).
Proof.
  intros Hrun. unfold stopCalledAt.
  destruct (exitsAt ch) as [e|]; [|reflexivity].
  specialize (Hrun e eq_refl). apply Z.ltb_lt in Hrun.
  now rewrite Hrun.
Qed.

(** C8.  [NewProcess] sets the timeout to one second.  Let the context be
    done at [c] while the launched child runs (it has not exited on its
    own by then).  [Start] returns, and what the supervisor did is: first
    [os.Interrupt], at that moment; [os.Kill], if at all, only after it,
    exactly when the timeout has elapsed since, never before, and only if
    the child had not exited earlier; then the exit.  A child that has not
    exited when the timeout elapses is sent [os.Kill], and the supervisor
    waits for its exit; a child that exits within the timeout is never
    killed. *)
Theorem stop_escalation (p : process) (ch : child) (c t0 : Time)
  (tieWatch tieStop : bool) :
  startErr ch = None ->
  (forall e, exitsAt ch = Some e -> Z.max t0 c < e) ->
  let cancel := Z.max t0 c in
  let timer := cancel + Z.max 0 (timeout p) in
  timeout NewProcess = 1 * Second
  /\ exists signals e r,
       Start p ch (Some c) t0 tieWatch tieStop
       = Some ((signals ++ [Exited e])%list, r)
       /\ (exists rest, signals = Signalled cancel Interrupt :: rest)
       /\ (forall tk, In (Signalled tk Kill) signals ->
             signals = [Signalled cancel Interrupt; Signalled tk Kill]
             /\ tk = timer
             /\ tk <= e
             /\ forall d, doneWithoutKill ch cancel = Some d -> tk <= d)
       /\ ((forall d, doneWithoutKill ch cancel = Some d -> timer < d) ->
           signals = [Signalled cancel Interrupt; Signalled timer Kill]
           /\ timer <= e <= timer + Z.max 0 (afterKill ch))
       /\ (forall d, doneWithoutKill ch cancel = Some d -> d < timer ->
             signals = [Signalled cancel Interrupt] /\ e = d).
Proof.
  intros Hs Hrun cancel timer. split; [reflexivity|].
  unfold Start. rewrite Hs.
  rewrite (stopCalledAt_running ch c t0 tieWatch Hrun). fold cancel.
  destruct (stop_cases p ch cancel tieStop)
    as [(e & Hd & Hle & Hst)|(e & Hst & Hle & Hd)]; fold timer in Hle.
  - rewrite Hst. exists [Signalled cancel Interrupt], e. eexists.
    split; [reflexivity|]. split; [now exists []|]. split; [|split].
    + intros tk [H|[]]. discriminate.
    + intros Hall. specialize (Hall e Hd). lia.
    + intros d Hd' _. rewrite Hd in Hd'. injection Hd' as <-. now split.
  - pose proof (stop_killed_gone p ch cancel tieStop e Hst) as Hgone.
    fold timer in Hst, Hd, Hgone. rewrite Hst.
    exists [Signalled cancel Interrupt; Signalled timer Kill], e. eexists.
    split; [reflexivity|]. split; [eexists; reflexivity|]. split; [|split].
    + intros tk [H|[H|[]]]; [discriminate|]. injection H as <-.
      repeat split; auto.
    + intros _. split; [reflexivity|lia].
    + intros d Hd' Hlt. specialize (Hd d Hd'). lia.
Qed.

(** An encoder that ignores the interrupt, under a grace of 50ms. *)
Definition stubborn : child :=
  {| startErr := None; exitsAt := None; afterInterrupt := None;
     afterKill := 1 * Millisecond; waitErr := Some (SignalError "killed") |}.

Lemma stop_escalation_witness :
  Start (SetTimeout NewProcess (50 * Millisecond)) stubborn
        (Some 5000000000) 0 false false
  = Some ([Signalled 5000000000 Interrupt; Signalled 5050000000 Kill;
           Exited 5051000000],
          Some (SignalError "killed"))
  /\ timeout NewProcess = 1 * Second
  /\ exists signals e r,
       Start (SetTimeout NewProcess (50 * Millisecond)) stubborn
             (Some 5000000000) 0 false false
       = Some ((signals ++ [Exited e])%list, r)
       /\ (exists rest, signals = Signalled 5000000000 Interrupt :: rest)
       /\ (forall tk, In (Signalled tk Kill) signals ->
             signals = [Signalled 5000000000 Interrupt; Signalled tk Kill]
             /\ tk = 5050000000
             /\ tk <= e
             /\ forall d, doneWithoutKill stubborn 5000000000 = Some d ->
                          tk <= d)
       /\ ((forall d, doneWithoutKill stubborn 5000000000 = Some d ->
                      5050000000 < d) ->
           signals = [Signalled 5000000000 Interrupt;
                      Signalled 5050000000 Kill]
           /\ 5050000000 <= e <= 5050000000 + Z.max 0 (afterKill stubborn))
       /\ (forall d, doneWithoutKill stubborn 5000000000 = Some d ->
                     d < 5050000000 ->
             signals = [Signalled 5000000000 Interrupt] /\ e = d).
Proof.
  split; [reflexivity|].
  apply (stop_escalation (SetTimeout NewProcess (50 * Millisecond)) stubborn
           5000000000 0 false false).
  - reflexivity.
  - discriminate.
Defined.

End ProcessFacts.

(** ** The detection bridge: thresholds *)

Module ThresholdFacts.
Import GoStrings IEEE Doods.

(** *** Disabled labels *)

Definition disabledIn (order : list (string * float)) (key : string) : bool :=
  existsb (fun entry => String.eqb entry.1 key && eqb entry.2 minus_one) order.

Lemma dropDisabledIn_lookup (order : list (string * float))
  (t : gmap string float) (key : string) :
  dropDisabledIn order t !! key
  = if disabledIn order key then None else t !! key.
Proof.
  induction order as [|[k v] order IH]; simpl; [reflexivity|].
  unfold dropDisabledStep; simpl.
  destruct (eqb v minus_one) eqn:Hv.
  - destruct (String.eqb k key) eqn:Hk; simpl.
    + apply String.eqb_eq in Hk. subst k. apply lookup_delete_eq.
    + apply String.eqb_neq in Hk. rewrite lookup_delete_ne by exact Hk. exact IH.
  - rewrite andb_false_r. simpl. exact IH.
Qed.

Lemma disabledIn_map_to_list (t : gmap string float) (key : string) :
  disabledIn (map_to_list t) key
  = match t !! key with Some v => eqb v minus_one | None => false end.
Proof.
  unfold disabledIn.
  destruct (t !! key) as [v|] eqn:Hl.
  - destruct (eqb v minus_one) eqn:Hv.
    + apply existsb_exists. exists (key, v). simpl.
      split; [|now rewrite String.eqb_refl, Hv].
      apply list_elem_of_In, elem_of_map_to_list. exact Hl.
    + apply not_true_is_false. intros H.
      apply existsb_exists in H as ([k w] & Hin & Hb). simpl in Hb.
      apply andb_true_iff in Hb as [Hk Hw]. apply String.eqb_eq in Hk. subst k.
      apply list_elem_of_In, elem_of_map_to_list in Hin. congruence.
  - apply not_true_is_false. intros H.
    apply existsb_exists in H as ([k w] & Hin & Hb). simpl in Hb.
    apply andb_true_iff in Hb as [Hk Hw]. apply String.eqb_eq in Hk. subst k.
    apply list_elem_of_In, elem_of_map_to_list in Hin. congruence.
Qed.

(** Every entry equal to [-1] is gone, every other entry stays. *)
Lemma dropDisabled_lookup (t : gmap string float) (key : string) :
  dropDisabled t !! key
  = match t !! key with
    | Some v => if eqb v minus_one then None else Some v
    | None => None
    end.
Proof.
  unfold dropDisabled.
  rewrite dropDisabledIn_lookup, disabledIn_map_to_list.
  destruct (t !! key) as [v|]; [|reflexivity].
  now destruct (eqb v minus_one).
Qed.

Lemma disabledIn_Permutation (o1 o2 : list (string * float)) (key : string) :
  o1 ≡ₚ o2 -> disabledIn o1 key = disabledIn o2 key.
Proof.
  intros HP. unfold disabledIn.
  induction HP as [|x l l' _ IH|x y l|l l' l'' _ IH1 _ IH2]; simpl.
  - reflexivity.
  - now rewrite IH.
  - now rewrite !orb_assoc, (orb_comm (_ && _) (_ && _)).
  - congruence.
Qed.

(** The order in which Go ranges over the map does not matter. *)
Lemma dropDisabledIn_order (order : list (string * float))
  (t : gmap string float) :
  order ≡ₚ map_to_list t -> dropDisabledIn order t = dropDisabled t.
Proof.
  intros HP. apply map_eq. intros key. unfold dropDisabled.
  rewrite !dropDisabledIn_lookup.
  now rewrite (disabledIn_Permutation _ _ key HP).
Qed.

(** *** Filtering *)

(** A detection survives when its label has a threshold and its score is
    not less than that threshold. *)
Definition survives (thr : gmap string float) (detection : odrpcDetection)
  : bool :=
  match thr !! Label detection with
  | Some thresh => negb (ltb (to64 (Confidence detection)) thresh)
  | None => false
  end.

Lemma matchThresholds_absent (a : addon) (d : odrpcDetection)
  (order : list (string * float)) :
  Label d ∉ order.*1 -> matchThresholds a order d = [].
Proof.
  induction order as [|[k v] order IH]; simpl; intros Hnin; [reflexivity|].
  apply not_elem_of_cons in Hnin as [Hne Hnin].
  unfold matchThresholds in *. cbn [flat_map]. rewrite (IH Hnin).
  unfold matchEntry. cbn [fst snd].
  destruct (String.eqb_spec (Label d) k) as [?|_]; [contradiction|reflexivity].
Qed.

Lemma matchThresholds_present (a : addon) (d : odrpcDetection)
  (order : list (string * float)) (thresh : float) :
  NoDup order.*1 -> (Label d, thresh) ∈ order ->
  matchThresholds a order d
  = if ltb (to64 (Confidence d)) thresh then [] else [toDetection a d].
Proof.
  induction order as [|[k v] order IH]; simpl; intros Hnd Hin.
  - now apply elem_of_nil in Hin.
  - apply NoDup_cons in Hnd as [Hk Hnd].
    unfold matchThresholds in *. cbn [flat_map].
    apply elem_of_cons in Hin as [Heq|Hin].
    + injection Heq as <- <-.
      fold (matchThresholds a order d).
      rewrite (matchThresholds_absent a d order Hk), app_nil_r.
      unfold matchEntry. cbn [fst snd]. now rewrite String.eqb_refl.
    + rewrite (IH Hnd Hin).
      assert (Label d <> k) as Hne.
      { intros <-. apply Hk. apply list_elem_of_fmap.
        exists (Label d, thresh). split; [reflexivity|exact Hin]. }
      unfold matchEntry. cbn [fst snd].
      destruct (String.eqb_spec (Label d) k) as [?|_]; [contradiction|reflexivity].
Qed.

Lemma matchThresholds_survives (a : addon) (d : odrpcDetection)
  (order : list (string * float)) (thr : gmap string float) :
  order ≡ₚ map_to_list thr ->
  matchThresholds a order d
  = if survives thr d then [toDetection a d] else [].
Proof.
  intros HP. unfold survives.
  assert (NoDup order.*1) as Hnd.
  { rewrite HP. apply NoDup_fst_map_to_list. }
  destruct (thr !! Label d) as [thresh|] eqn:Hl.
  - rewrite (matchThresholds_present a d order thresh Hnd).
    + now destruct (ltb _ _).
    + rewrite HP. now apply elem_of_map_to_list.
  - apply matchThresholds_absent. rewrite HP.
    intros Hin. apply list_elem_of_fmap in Hin as ([k v] & Hk & Hin).
    simpl in Hk. subst k. apply elem_of_map_to_list in Hin. congruence.
Qed.

Lemma filterDetections_survivors (a : addon)
  (order : list (string * float)) (thr : gmap string float)
  (detections : list odrpcDetection) :
  order ≡ₚ map_to_list thr ->
  filterDetections a order detections
  = map (toDetection a) (List.filter (survives thr) detections).
Proof.
  intros HP. unfold filterDetections.
  induction detections as [|d ds IH]; simpl; [reflexivity|].
  rewrite IH, (matchThresholds_survives a d order thr HP).
  now destruct (survives thr d).
Qed.

(** What [parseDetections] posts, in terms of the survivors. *)
Definition eventOf (a : addon) (t : Time) (survivors : list odrpcDetection)
  : option Event :=
  match survivors with
  | [] => None
  | _ => Some {| evTime := t;
                 evDetections := map (toDetection a) survivors;
                 evDuration := duration (c a);
                 evRecDuration := recDuration (c a) |}
  end.

Lemma parseDetectionsIn_survivors (a : addon)
  (order : list (string * float)) (t : Time)
  (detections : list odrpcDetection) :
  order ≡ₚ map_to_list (thresholds (c a)) ->
  parseDetectionsIn order a t detections
  = eventOf a t (List.filter (survives (thresholds (c a))) detections).
Proof.
  intros HP. unfold parseDetectionsIn.
  rewrite (filterDetections_survivors a order _ detections HP).
  destruct detections as [|d ds]; [reflexivity|].
  cbn [length Nat.eqb].
  destruct (List.filter _ (d :: ds)); reflexivity.
Qed.

Lemma parseDetections_survivors (a : addon) (t : Time)
  (detections : list odrpcDetection) :
  parseDetections a t detections
  = eventOf a t (List.filter (survives (thresholds (c a))) detections).
Proof. now apply parseDetectionsIn_survivors. Qed.

End ThresholdFacts.

(** ** The detection bridge: events *)

Module BridgeFacts.
Import GoStrings IEEE Doods ThresholdFacts.

(** [strconv.ParseFloat] on plain decimal numerals, for the examples: with
    [bitSize] 32 the numeral is rounded to a [float32], which is checked
    to be one and widened. *)
Definition decimalParseFloat (s : string) (bitSize : Z) : option float :=
  if bitSize =? 32 then
    match of_decimal prec32 emax32 s with
    | Some y => if valid_binary prec32 emax32 y then Some (to64 y) else None
    | None => None
    end
  else of_decimal prec64 emax64 s.

Definition f32 (s : string) : float :=
  default zero (of_decimal prec32 emax32 s).

Definition f64 (s : string) : float :=
  default zero (of_decimal prec64 emax64 s).

(** The thresholds [{"person": 0.5, "car": -1}] as unmarshalled. *)
Definition exampleThresholds : gmap string float :=
  <["person" := f64 "0.5"]> (<["car" := f64 "-1"]> ∅).

Definition exampleConfig : doodsConfig :=
  {| ip := "127.0.0.1:8080"; duration := 333333333;
     recDuration := 120 * Ffmpeg.Second;
     thresholds := dropDisabled exampleThresholds;
     timestampOffset := 500 * Ffmpeg.Millisecond;
     detectorName := "default" |}.

(** A detector with a model input of 300 by 300. *)
Definition exampleAddon : addon :=
  {| c := exampleConfig; id := "1"; name := "front";
     outputWidth := 300; outputHeight := 300;
     xMultiplier := one32; yMultiplier := one32; SHMDir := "/dev/shm" |}.

Definition box (top left bottom right confidence label : string)
  : odrpcDetection :=
  {| Top := f32 top; Left := f32 left; Bottom := f32 bottom;
     Right := f32 right; Confidence := f32 confidence; Label := label |}.

(** The detector response [{person,0.7},{person,0.3},{car,0.9},{dog,0.99}]. *)
Definition exampleResponse : list odrpcDetection :=
  [ box "0.1" "0.2" "0.5" "0.6" "0.7" "person";
    box "0.1" "0.2" "0.5" "0.6" "0.3" "person";
    box "0.3" "0.3" "0.9" "0.9" "0.9" "car";
    box "0.0" "0.0" "0.2" "0.2" "0.99" "dog" ].

Definition labelsAndScores (e : option Event) : option (list (string * float)) :=
  option_map (fun ev => map (fun d => (dLabel d, dScore d)) (evDetections ev)) e.

(** [json.Unmarshal] into a thresholds map on the texts of the examples:
    a flat object whose keys are plain strings and whose values are
    decimal numerals, a later entry for a key replacing an earlier one.
    Any other text is refused. *)
Definition quote : ascii := "034"%char.

Definition quoted (s : string) : string :=
  String quote (s ++ String quote EmptyString).

Definition unquote (s : string) : option string :=
  match s with
  | String c s' =>
      match rev_string s' with
      | String c' r =>
          if Ascii.eqb c quote && Ascii.eqb c' quote
          then Some (rev_string r) else None
      | EmptyString => None
      end
  | EmptyString => None
  end.

Definition jsonEntry (field : string) : option (string * float) :=
  match Split ":" field with
  | [k; v] =>
      match unquote (TrimSpace k), of_decimal prec64 emax64 (TrimSpace v) with
      | Some key, Some x => Some (key, x)
      | _, _ => None
      end
  | _ => None
  end.

Definition jsonEntries (body : string) : option (gmap string float) :=
  foldl (fun acc field =>
           match acc, jsonEntry field with
           | Some m, Some (key, x) => Some (<[key := x]> m)
           | _, _ => None
           end)
        (Some ∅) (Split "," body).

Definition flatUnmarshal (s : string) : option (gmap string float) :=
  match TrimSpace s with
  | String "{" rest =>
      match rev_string rest with
      | String "}" body =>
          let body := rev_string body in
          if String.eqb (TrimSpace body) "" then Some ∅ else jsonEntries body
      | _ => None
      end
  | _ => None
  end.

(** [ffmpeg.FeedRateToDuration] on the feed rate of the examples: three
    frames a second. *)
Definition exampleFeedRate (feedRate : string) : option Duration :=
  if String.eqb feedRate "3" then Some 333333333 else None.

(** The settings of a monitor with the thresholds
    [{"person": 0.5, "car": -1}]. *)
Definition exampleMonitorConfig : gmap string string :=
  <["doodsThresholds" :=
      "{" ++ quoted "person" ++ ": 0.5, " ++ quoted "car" ++ ": -1}"]>
    (<["doodsFeedRate" := "3"]>
       (<["doodsDuration" := "120"]>
          (<["timestampOffset" := "500"]>
             (<["doodsDetectorName" := "default"]> ∅)))).

Lemma eventOf_is_Some (a : addon) (t : Time) (survivors : list odrpcDetection) :
  is_Some (eventOf a t survivors) <-> survivors <> [].
Proof.
  destruct survivors; simpl; split; intros H; try congruence; eauto.
  now destruct H.
Qed.

(** C1.  Parsing removes exactly the thresholds equal to -1: whenever the
    settings can be read, [parseConfig] returns a configuration, and its
    thresholds are those of the settings without the entries equal to -1.
    A detection survives the filter if and only if its label has a
    threshold and its score is not less than it; the event carries the
    survivors in the order of the response, and an event is posted exactly
    when there is a survivor.  The settings with thresholds
    [{"person": 0.5, "car": -1}] are parsed to a configuration that keeps
    the threshold of [person] only, and for the response
    [{person,0.7},{person,0.3},{car,0.9},{dog,0.99}] the event holds
    [{person,0.7}] and nothing else. *)
Theorem threshold_filtering :
  (forall (t : gmap string float) (key : string),
      dropDisabled t !! key
      = match t !! key with
        | Some v => if eqb v minus_one then None else Some v
        | None => None
        end)
  /\ (forall jsonUnmarshal FeedRateToDuration ParseFloat mconfig ip t d r off,
         jsonUnmarshal (cfg mconfig "doodsThresholds") = Some t ->
         FeedRateToDuration (cfg mconfig "doodsFeedRate") = Some d ->
         ParseFloat (cfg mconfig "doodsDuration") 64 = Some r ->
         Atoi (cfg mconfig "timestampOffset") = Some off ->
         exists conf,
           parseConfig jsonUnmarshal FeedRateToDuration ParseFloat mconfig ip
           = Ok conf
           /\ forall key,
                thresholds conf !! key
                = match t !! key with
                  | Some v => if eqb v minus_one then None else Some v
                  | None => None
                  end)
  /\ (forall jsonUnmarshal FeedRateToDuration ParseFloat mconfig ip,
         match parseConfig jsonUnmarshal FeedRateToDuration ParseFloat mconfig ip with
         | Ok conf =>
             exists t, jsonUnmarshal (cfg mconfig "doodsThresholds") = Some t
                       /\ thresholds conf = dropDisabled t
         | _ => True
         end)
  /\ (forall (a : addon) (t : Time) (detections : list odrpcDetection),
         let survivors := List.filter (survives (thresholds (c a))) detections in
         option_map evDetections (parseDetections a t detections)
         = match survivors with
           | [] => None
           | _ => Some (map (toDetection a) survivors)
           end)
  /\ (forall (a : addon) (t : Time) (detections : list odrpcDetection),
         is_Some (parseDetections a t detections)
         <-> exists d, In d detections /\ survives (thresholds (c a)) d = true)
  /\ flatUnmarshal (cfg exampleMonitorConfig "doodsThresholds")
     = Some exampleThresholds
  /\ parseConfig flatUnmarshal exampleFeedRate decimalParseFloat
                 exampleMonitorConfig "127.0.0.1:8080"
     = Ok exampleConfig
  /\ map_to_list (thresholds exampleConfig) = [("person", f64 "0.5")]
  /\ labelsAndScores (parseDetections exampleAddon 0 exampleResponse)
     = Some [("person", to64 (f32 "0.7"))].
Proof.
  split; [exact dropDisabled_lookup|].
  split.
  { intros jsonUnmarshal FeedRateToDuration ParseFloat mconfig ip t d r off
           Ht Hd Hr Hoff.
    unfold parseConfig. rewrite Ht, Hd, Hr, Hoff.
    eexists. split; [reflexivity|].
    intros key. cbn [thresholds]. apply dropDisabled_lookup. }
  split.
  { intros. unfold parseConfig.
    destruct (jsonUnmarshal _) as [t|]; [|exact I].
    destruct (FeedRateToDuration _); [|exact I].
    destruct (ParseFloat _ _); [|exact I].
    destruct (Atoi _); [|exact I].
    exists t. split; reflexivity. }
  split.
  { intros. rewrite parseDetections_survivors. fold survivors.
    now destruct survivors. }
  split.
  { intros. rewrite parseDetections_survivors, eventOf_is_Some. split.
    - intros Hne.
      destruct (List.filter _ detections) as [|d ds] eqn:Hf; [congruence|].
      exists d. apply filter_In. rewrite Hf. now left.
    - intros (d & Hin & Hs) Hf.
      assert (In d (List.filter (survives (thresholds (c a))) detections)) as Hd
          by now apply filter_In.
      rewrite Hf in Hd. exact Hd. }
  split; [vm_compute; reflexivity|].
  split; [vm_compute; reflexivity|].
  split; [vm_compute; reflexivity|].
  vm_compute. reflexivity.
Qed.

(** The event does not depend on the order in which the thresholds map is
    ranged over. *)
Lemma parseDetections_any_order (order : list (string * float)) (a : addon)
  (t : Time) (detections : list odrpcDetection) :
  order ≡ₚ map_to_list (thresholds (c a)) ->
  parseDetectionsIn order a t detections = parseDetections a t detections.
Proof.
  intros HP. now rewrite parseDetections_survivors, parseDetectionsIn_survivors.
Qed.

(** *** Rectangles *)

(** The rectangle of [parseDetections] written out: each coordinate is
    multiplied by its multiplier and by 100 in [float32], and truncated. *)
Definition rectOf (a : addon) (d : odrpcDetection) : Rect :=
  (to_int (mul32 (mul32 (Top d) (yMultiplier a)) hundred32),
   to_int (mul32 (mul32 (Left d) (xMultiplier a)) hundred32),
   to_int (mul32 (mul32 (Bottom d) (yMultiplier a)) hundred32),
   to_int (mul32 (mul32 (Right d) (xMultiplier a)) hundred32)).

(** A detection that covers the whole detector frame. *)
Definition fullFrame : odrpcDetection := box "0" "0" "1" "1" "0.9" "person".

Definition inUnitInterval (x : float) : Prop :=
  leb zero x = true /\ leb x one32 = true.

Definition unitBox (d : odrpcDetection) : Prop :=
  inUnitInterval (Top d) /\ inUnitInterval (Left d)
  /\ inUnitInterval (Bottom d) /\ inUnitInterval (Right d).

(** The range the specification gives for the stored rectangle. *)
Definition within10000 (r : Rect) : Prop :=
  let '(top, lft, bottom, rgt) := r in
  0 <= top <= 10000 /\ 0 <= lft <= 10000
  /\ 0 <= bottom <= 10000 /\ 0 <= rgt <= 10000.

(** The rectangle is not in units of 0 to 10000.  A detection over the
    whole detector frame of a square monitor is stored as (0, 0, 100, 100):
    the full extent is 100.  And the value is not bounded by 10000: with a
    monitor of 40000 by 300 in front of the 300 by 300 model the frame is
    scaled to 300 by 2, [yMultiplier] is 133.33, and the bottom edge of
    the same detection is stored as 13333. *)
Lemma rectangle_not_within_10000 :
  unitBox fullFrame
  /\ (exists a ev d,
         startMultipliers decimalParseFloat exampleAddon ∅ "300x300" = Ok a
         /\ parseDetections a 0 [fullFrame] = Some ev
         /\ evDetections ev = [d]
         /\ dRect d = (0, 0, 100, 100))
  /\ (exists a ev d,
         startMultipliers decimalParseFloat exampleAddon ∅ "40000x300" = Ok a
         /\ parseDetections a 0 [fullFrame] = Some ev
         /\ evDetections ev = [d]
         /\ dRect d = (0, 0, 13333, 100)
         /\ ~ within10000 (dRect d)).
Proof.
  split; [now vm_compute|]. split.
  - eexists. eexists. eexists.
    split; [vm_compute; reflexivity|].
    split; [vm_compute; reflexivity|].
    split; reflexivity.
  - eexists. eexists. eexists.
    split; [vm_compute; reflexivity|].
    split; [vm_compute; reflexivity|].
    split; [reflexivity|]. split; [reflexivity|].
    simpl. lia.
Qed.

(** C2 (amended).  The rectangles of the event are those of the surviving
    detections, in order: each coordinate is multiplied by its multiplier
    ([yMultiplier] for top and bottom, [xMultiplier] for left and right)
    and by 100 in [float32] and truncated toward zero, so the full extent
    of the picture is 100; nothing clamps the value. *)
Theorem event_rectangles (a : addon) (t : Time)
  (detections : list odrpcDetection) (ev : Event) :
  parseDetections a t detections = Some ev ->
  map dRect (evDetections ev)
  = map (rectOf a) (List.filter (survives (thresholds (c a))) detections)
  /\ rectOf (withMultipliers a one32 one32) fullFrame = (0, 0, 100, 100).
Proof.
  intros H. split; [|vm_compute; reflexivity].
  rewrite parseDetections_survivors in H.
  destruct (List.filter _ detections) as [|d ds]; [discriminate|].
  injection H as <-. cbn [evDetections map].
  rewrite map_map. reflexivity.
Qed.

Lemma event_rectangles_witness :
  map dRect
      (evDetections
         {| evTime := 0;
            evDetections := [toDetection exampleAddon fullFrame];
            evDuration := duration exampleConfig;
            evRecDuration := recDuration exampleConfig |})
  = map (rectOf exampleAddon)
        (List.filter (survives (thresholds (c exampleAddon))) [fullFrame])
  /\ rectOf (withMultipliers exampleAddon one32 one32) fullFrame
     = (0, 0, 100, 100).
Proof.
  apply (event_rectangles exampleAddon 0 [fullFrame]).
  vm_compute. reflexivity.
Defined.

(** *** Time stamps *)

Section Stamps.
Variable pngEncode : Z -> Z -> string -> string.

Lemma sendFrame_stamps (d : addon) (t : Time) (b : string) (tn : turn) :
  sentStamps (sendFrame d t b tn).1
  = if sendFails tn then [] else [t].
Proof.
  unfold sendFrame. destruct (sendFails tn); [reflexivity|].
  destruct (recv tn) as [| |detections]; try reflexivity.
  cbn [fst sentStamps flat_map].
  destruct (parseDetections d t detections); reflexivity.
Qed.

Lemma sentStamps_app (e1 e2 : list effect) :
  sentStamps (e1 ++ e2) = (sentStamps e1 ++ sentStamps e2)%list.
Proof. unfold sentStamps. apply flat_map_app. Qed.

(** Every frame is handed to [sendFrame] with the wall-clock reading taken
    after its read; [timestampOffset] plays no part. *)
Lemma readFrames_stamps (d : addon) (turns : list turn) :
  sentStamps (readFrames pngEncode d turns).1 = readTimes turns.
Proof.
  induction turns as [|tn rest IH]; [reflexivity|].
  cbn [readFrames readTimes].
  destruct (ctxDone tn); [reflexivity|].
  destruct (read tn) as [tmp| |]; try reflexivity.
  pose proof (sendFrame_stamps d (now tn)
                (pngEncode (outputWidth d) (outputHeight d) tmp) tn) as Hs.
  destruct (sendFrame d (now tn) _ tn) as [effects [err|]] eqn:Hsend.
  - cbn [fst] in *. rewrite Hs.
    unfold sendFrame in Hsend.
    destruct (sendFails tn); [reflexivity|].
    destruct (recv tn); try discriminate; reflexivity.
  - destruct (readFrames pngEncode d rest) as [effects' err'].
    cbn [fst] in *. rewrite sentStamps_app, Hs, IH.
    unfold sendFrame in Hsend.
    destruct (sendFails tn); [discriminate|].
    destruct (recv tn); try discriminate; reflexivity.
Qed.

End Stamps.

(** One frame read at second 1000 under a [timestampOffset] of 500ms. *)
Definition oneFrame : list turn :=
  [ {| ctxDone := false; read := ReadFrame "rgb"; now := 1000 * Ffmpeg.Second;
       sendFails := false; recv := RecvOk [] |} ].

(** C3 (the code at a non-zero offset).  With [timestampOffset] at 500ms, a
    frame read at wall-clock time 1000s is sent stamped 1000s, not
    999.5s. *)
Theorem frame_stamp_keeps_wall_clock :
  forall pngEncode : Z -> Z -> string -> string,
    timestampOffset (c exampleAddon) = 500 * Ffmpeg.Millisecond
    /\ sentStamps (readFrames pngEncode exampleAddon oneFrame).1
       = [1000 * Ffmpeg.Second]
    /\ sentStamps (readFrames pngEncode exampleAddon oneFrame).1
       <> [TimeAdd (1000 * Ffmpeg.Second) (- timestampOffset (c exampleAddon))].
Proof.
  intros pngEncode. split; [reflexivity|].
  rewrite readFrames_stamps. split; [reflexivity|].
  vm_compute. discriminate.
Qed.

End BridgeFacts.

(** *** The letterbox *)

Module LetterboxFacts.
Import GoStrings IEEE Doods IEEEFacts BridgeFacts.
Import Reals Lra.

(** The contract of [strconv.ParseFloat(s, 32)]: the result is a [float64]
    that is the widening of a [float32]. *)
Definition parsesFloat32 (ParseFloat : string -> Z -> option float) : Prop :=
  forall s x, ParseFloat s 32 = Some x ->
              exists y, valid_binary prec32 emax32 y = true /\ x = to64 y.

Lemma decimalParseFloat_float32 : parsesFloat32 decimalParseFloat.
Proof.
  intros s x. unfold decimalParseFloat. cbn [Z.eqb Pos.eqb].
  destruct (IEEE.of_decimal prec32 emax32 s) as [y|]; [|discriminate].
  destruct (valid_binary prec32 emax32 y) eqn:Hv; [|discriminate].
  intros [= <-]. eauto.
Qed.

(** An input side that passed the guard against the model side. *)
Lemma guarded_side (y x : float) (n : Z) :
  valid_binary prec32 emax32 y = true -> x = to64 y ->
  (0 < n)%Z -> (n <= to_int x)%Z ->
  pos32 y /\ pos64 x /\ B2R x = B2R y /\ (1 <= B2R y)%R.
Proof.
  intros Hv -> Hn Hx.
  destruct (to_int_pos (to64 y) n ltac:(lia) Hx) as (m & e & Heq & Hval).
  destruct (to_format_finite_inv _ _ _ _ _ Heq) as (m' & e' & ->).
  pose proof (valid_pos_finite prec32 emax32 m' e' Hv) as Hy.
  destruct (to64_exact _ Hy) as [H64 V64].
  repeat split; try assumption.
  rewrite <- V64, Heq. cbn [B2R cond_Zopp].
  assert (1 <= IZR n)%R by (apply IZR_le; lia). lra.
Qed.

Lemma letterbox_multipliers (outW outH : Z) (w h yw yh : float) :
  (0 < outW < 2 ^ 24)%Z -> (0 < outH < 2 ^ 24)%Z ->
  valid_binary prec32 emax32 yw = true -> w = to64 yw ->
  valid_binary prec32 emax32 yh = true -> h = to64 yh ->
  (outW <= to_int w)%Z -> (outH <= to_int h)%Z ->
  leb one32 (letterbox outW outH w h).1.2 = true
  /\ leb one32 (letterbox outW outH w h).2 = true
  /\ ((letterbox outW outH w h).1.2 = one32
      \/ (letterbox outW outH w h).2 = one32).
Proof.
  intros HW HH Hvw Hw Hvh Hh Hgw Hgh.
  destruct (guarded_side yw w outW Hvw Hw ltac:(lia) Hgw)
    as (Pw32 & Pw64 & Vw & Hw1).
  destruct (guarded_side yh h outH Hvh Hh ltac:(lia) Hgh)
    as (Ph32 & Ph64 & Vh & Hh1).
  unfold letterbox.
  destruct (ltb h w) eqn:Hhw.
  - cbn [fst snd]. split; [reflexivity|]. split; [|now left].
    rewrite Hh, Hw. apply multiplier_ge_1; try assumption.
    apply ltb_value in Hhw; try assumption. lra.
  - destruct (ltb w h) eqn:Hwh; cbn [fst snd].
    + split; [|split; [reflexivity|now right]].
      rewrite Hh, Hw. apply multiplier_ge_1; try assumption.
      apply ltb_value in Hwh; try assumption. lra.
    + split; [reflexivity|]. split; [reflexivity|now left].
Qed.

Lemma generateFFmpegArgs_ok (ParseFloat : string -> Z -> option float)
  (a : addon) (config : gmap string string) (size : string)
  (args : list string) (xM yM : float) :
  generateFFmpegArgs ParseFloat a config size = Ok (args, xM, yM) ->
  exists split0 split1 w h,
    Split "x" size !! 0%nat = Some split0
    /\ Split "x" size !! 1%nat = Some split1
    /\ ParseFloat split0 32 = Some w /\ ParseFloat split1 32 = Some h
    /\ (outputWidth a <= to_int w)%Z /\ (outputHeight a <= to_int h)%Z
    /\ xM = (letterbox (outputWidth a) (outputHeight a) w h).1.2
    /\ yM = (letterbox (outputWidth a) (outputHeight a) w h).2.
Proof.
  unfold generateFFmpegArgs.
  destruct (Split "x" size !! 0%nat) as [split0|] eqn:H0; [|discriminate].
  destruct (ParseFloat split0 32) as [w|] eqn:Hw; [|discriminate].
  destruct (Split "x" size !! 1%nat) as [split1|] eqn:H1; [|discriminate].
  destruct (ParseFloat split1 32) as [h|] eqn:Hh; [|discriminate].
  destruct (Z.ltb_spec (to_int w) (outputWidth a)); [discriminate|].
  destruct (Z.ltb_spec (to_int h) (outputHeight a)); [discriminate|].
  destruct (letterbox (outputWidth a) (outputHeight a) w h)
    as [[[frameWidth frameHeight] xMultiplier] yMultiplier] eqn:Hbox.
  intros [= _ <- <-].
  exists split0, split1, w, h. rewrite Hbox. cbn [fst snd].
  repeat split; auto.
Qed.

(** C10.  For a detector with model sides between 1 and 2^24:
    [generateFFmpegArgs] returns an error, with no arguments and zero
    multipliers, whenever the parsed input width is below the model width
    or the parsed input height is below the model height; and when it
    succeeds both multipliers are at least 1 and at least one of them is
    exactly 1. *)
Theorem generateFFmpegArgs_no_upscale
  (ParseFloat : string -> Z -> option float) (a : addon)
  (config : gmap string string) (size : string) :
  parsesFloat32 ParseFloat ->
  (0 < outputWidth a < 2 ^ 24)%Z -> (0 < outputHeight a < 2 ^ 24)%Z ->
  (forall split0 split1 w h,
      Split "x" size !! 0%nat = Some split0 ->
      Split "x" size !! 1%nat = Some split1 ->
      ParseFloat split0 32 = Some w -> ParseFloat split1 32 = Some h ->
      (B2R w < IZR (outputWidth a) \/ B2R h < IZR (outputHeight a))%R ->
      let r := generateFFmpegArgs ParseFloat a config size in
      (r = Err (ErrWidthLess w (outputWidth a))
       \/ r = Err (ErrHeightLess h (outputHeight a)))
      /\ returnedArgs r = [] /\ returnedMultipliers r = (zero, zero))
  /\ (forall args xM yM,
         generateFFmpegArgs ParseFloat a config size = Ok (args, xM, yM) ->
         leb one32 xM = true /\ leb one32 yM = true
         /\ (xM = one32 \/ yM = one32)).
Proof.
  intros HP HW HH. split.
  - intros split0 split1 w h H0 H1 Hw Hh Hless r.
    assert (r = Err (ErrWidthLess w (outputWidth a))
            \/ r = Err (ErrHeightLess h (outputHeight a))) as Hr.
    { subst r. unfold generateFFmpegArgs. rewrite H0, Hw, H1, Hh.
      destruct (Z.ltb_spec (to_int w) (outputWidth a)) as [?|Hwge];
        [now left|].
      destruct (Z.ltb_spec (to_int h) (outputHeight a)) as [?|Hhge];
        [now right|].
      exfalso. destruct Hless as [Hl|Hl].
      - pose proof (to_int_lt w (outputWidth a) ltac:(lia) Hl). lia.
      - pose proof (to_int_lt h (outputHeight a) ltac:(lia) Hl). lia. }
    split; [exact Hr|]. destruct Hr as [-> | ->]; split; reflexivity.
  - intros args xM yM Hok.
    destruct (generateFFmpegArgs_ok _ _ _ _ _ _ _ Hok)
      as (split0 & split1 & w & h & _ & _ & Hw & Hh & Hgw & Hgh & -> & ->).
    destruct (HP _ _ Hw) as (yw & Hvw & Hweq).
    destruct (HP _ _ Hh) as (yh & Hvh & Hheq).
    exact (letterbox_multipliers _ _ w h yw yh HW HH Hvw Hweq Hvh Hheq Hgw Hgh).
Qed.

Lemma generateFFmpegArgs_no_upscale_witness :
  (forall split0 split1 w h,
      Split "x" "200x480" !! 0%nat = Some split0 ->
      Split "x" "200x480" !! 1%nat = Some split1 ->
      decimalParseFloat split0 32 = Some w ->
      decimalParseFloat split1 32 = Some h ->
      (B2R w < IZR (outputWidth exampleAddon)
       \/ B2R h < IZR (outputHeight exampleAddon))%R ->
      let r := generateFFmpegArgs decimalParseFloat exampleAddon ∅ "200x480" in
      (r = Err (ErrWidthLess w (outputWidth exampleAddon))
       \/ r = Err (ErrHeightLess h (outputHeight exampleAddon)))
      /\ returnedArgs r = [] /\ returnedMultipliers r = (zero, zero))
  /\ (forall args xM yM,
         generateFFmpegArgs decimalParseFloat exampleAddon ∅ "200x480"
         = Ok (args, xM, yM) ->
         leb one32 xM = true /\ leb one32 yM = true
         /\ (xM = one32 \/ yM = one32)).
Proof.
  apply (generateFFmpegArgs_no_upscale decimalParseFloat exampleAddon ∅
           "200x480").
  - exact decimalParseFloat_float32.
  - cbn. lia.
  - cbn. lia.
Defined.

(** The two outcomes on the 300 by 300 model: a monitor of 640 by 480 is
    scaled to 300 by 225 with multipliers 1 and 4/3, a monitor of 200 by
    480 is refused. *)
Lemma generateFFmpegArgs_examples :
  generateFFmpegArgs decimalParseFloat exampleAddon
    (<["doodsFeedRate" := "3"]> (<["logLevel" := "error"]> ∅)) "640x480"
  = Ok (["-y"; "-loglevel"; "error"; "-i"; "/dev/shm/doods/1/main.fifo";
         "-filter"; "fps=fps=3,scale=300:225,pad=300:300:0:0";
         "-f"; "rawvideo"; "-pix_fmt"; "rgb24"; "-"],
        one32, S754_finite false 11184811 (-23))
  /\ generateFFmpegArgs decimalParseFloat exampleAddon ∅ "200x480"
     = Err (ErrWidthLess (to64 (f32 "200")) 300).
Proof. split; vm_compute; reflexivity. Qed.

End LetterboxFacts.

(** ** The path manager *)

Module PathFacts.
Import Video.

Section Manager.
Variable PathConf : Type.
Variable confError : Type.
Variable CheckAndFillMissing : PathConf -> string -> confError + PathConf.
Variable context : Type.
Variable path : Type.
Variable newPath : context -> string -> PathConf -> path.
Variable closePath : path -> path.

Local Abbreviation pathManager := (pathManager PathConf path).
Local Abbreviation AddPath := (AddPath CheckAndFillMissing newPath).

Lemma AddPath_fresh (pm : pathManager) (ctx : context) (name : string)
  (newConf config : PathConf) :
  CheckAndFillMissing newConf name = inr config ->
  pathConfs pm !! name = None ->
  AddPath pm ctx name newConf
  = (Ok (MuxerByPathName name),
     {| pathConfs := <[name := config]> (pathConfs pm);
        paths := <[name := newPath ctx name config]> (paths pm) |}).
Proof. intros Hc Hn. unfold Video.AddPath. now rewrite Hc, Hn. Qed.

Lemma AddPath_live (pm : pathManager) (ctx : context) (name : string)
  (newConf config : PathConf) :
  CheckAndFillMissing newConf name = inr config ->
  is_Some (pathConfs pm !! name) ->
  AddPath pm ctx name newConf = (Err ErrPathAlreadyExist, pm).
Proof. intros Hc [old Hn]. unfold Video.AddPath. now rewrite Hc, Hn. Qed.

(** A configuration that does not pass its check is refused before the
    name is looked at, and nothing is registered. *)
Lemma AddPath_bad_conf (pm : pathManager) (ctx : context) (name : string)
  (newConf : PathConf) (err : confError) :
  CheckAndFillMissing newConf name = inl err ->
  AddPath pm ctx name newConf = (Err (ErrConf err), pm).
Proof. intros Hc. unfold Video.AddPath. now rewrite Hc. Qed.

(** *** Two concurrent calls *)

Local Abbreviation call := (call PathConf confError context).
Local Abbreviation advance := (advance CheckAndFillMissing newPath).

Definition inCS (p : pc) : bool :=
  match p with InBody | AtUnlock => true | _ => false end.

Definition passed (p : pc) : bool :=
  match p with AtUnlock | Returned => true | _ => false end.

Definition succeeded (name : string) (c : call) : Prop :=
  callResult c = Some (Ok (MuxerByPathName name)).

Definition refused (c : call) : Prop :=
  callResult c = Some (Err ErrPathAlreadyExist).

(** A call for [name] whose configuration passes the check. *)
Definition wellFormed (name : string) (c : call) : Prop :=
  callName c = name
  /\ exists config, CheckAndFillMissing (callConf c) name = inr config.

(** The invariant of two calls for one name on a manager that did not have
    the name at the start: the mutex is held exactly while one call is
    between lock and unlock, never both; the name is registered as soon as
    one call is through its body, the first such call succeeded and the
    second was refused. *)
Definition good (name : string) (pm : pathManager) (mu : bool)
  (c1 c2 : call) : Prop :=
  wellFormed name c1 /\ wellFormed name c2
  /\ mu = inCS (callPc c1) || inCS (callPc c2)
  /\ inCS (callPc c1) && inCS (callPc c2) = false
  /\ match passed (callPc c1), passed (callPc c2) with
     | false, false =>
         pathConfs pm !! name = None
         /\ callResult c1 = None /\ callResult c2 = None
     | true, false =>
         is_Some (pathConfs pm !! name)
         /\ succeeded name c1 /\ callResult c2 = None
     | false, true =>
         is_Some (pathConfs pm !! name)
         /\ callResult c1 = None /\ succeeded name c2
     | true, true =>
         is_Some (pathConfs pm !! name)
         /\ ((succeeded name c1 /\ refused c2)
             \/ (refused c1 /\ succeeded name c2))
     end.

Lemma good_sym (name : string) (pm : pathManager) (mu : bool) (c1 c2 : call) :
  good name pm mu c1 c2 -> good name pm mu c2 c1.
Proof.
  intros (W1 & W2 & Hmu & Hex & Hout).
  split; [exact W2|]. split; [exact W1|].
  split; [now rewrite orb_comm|]. split; [now rewrite andb_comm|].
  destruct (passed (callPc c1)), (passed (callPc c2)); tauto.
Qed.

Lemma advance_good (name : string) (pm : pathManager) (mu : bool)
  (c1 c2 : call) :
  good name pm mu c1 c2 ->
  good name (advance pm mu c1).1.1 (advance pm mu c1).1.2
       (advance pm mu c1).2 c2.
Proof.
  intros (W1 & W2 & Hmu & Hex & Hout).
  pose proof W1 as [Hn1 [config Hc1]]. pose proof W2 as [Hn2 [config2 Hc2]].
  unfold Video.advance.
  destruct (callPc c1) eqn:Hpc1; cbn [inCS passed] in *.
  - (* pm.mu.Lock() *)
    destruct mu; cbn [fst snd].
    + unfold good. rewrite Hpc1. cbn [inCS passed]. auto.
    + symmetry in Hmu. cbn [orb] in Hmu.
      unfold good, wellFormed in *.
      cbn [callPc callName callConf callResult inCS passed].
      rewrite Hmu. repeat split; eauto.
  - (* the body *)
    cbn [andb] in Hex. rewrite Hn1.
    destruct (passed (callPc c2)) eqn:Hp2.
    + destruct Hout as (Hreg & Hr1 & Hs2).
      rewrite (AddPath_live pm _ name _ config Hc1 Hreg). cbn [fst snd].
      unfold good, wellFormed, refused in *.
      cbn [callPc callName callConf callResult inCS passed].
      rewrite Hp2, Hex. cbn. repeat split; eauto.
    + destruct Hout as (Hfree & Hr1 & Hr2).
      rewrite (AddPath_fresh pm _ name _ config Hc1 Hfree). cbn [fst snd].
      unfold good, wellFormed, succeeded in *.
      cbn [callPc callName callConf callResult inCS passed pathConfs].
      rewrite Hp2, Hex, lookup_insert_eq. cbn. repeat split; eauto.
  - (* the deferred pm.mu.Unlock() *)
    cbn [andb] in Hex. cbn [fst snd].
    unfold good, wellFormed, succeeded, refused in *.
    cbn [callPc callName callConf callResult inCS passed].
    rewrite Hex. cbn. repeat split; eauto; tauto.
  - cbn [fst snd]. unfold good. rewrite Hpc1. cbn [inCS passed]. auto.
Qed.

Local Abbreviation duo := (duo PathConf confError context path).

Definition goodDuo (name : string) (s : duo) : Prop :=
  good name (duoManager s) (duoHeld s) (first s) (second s).

Lemma stepDuo_good (name : string) (s : duo) (who : bool) :
  goodDuo name s -> goodDuo name (stepDuo CheckAndFillMissing newPath s who).
Proof.
  unfold goodDuo, stepDuo. intros H. destruct who.
  - pose proof (advance_good name _ _ _ _ H) as H'.
    destruct (advance (duoManager s) (duoHeld s) (first s)) as [[pm mu] c].
    exact H'.
  - apply good_sym in H. pose proof (advance_good name _ _ _ _ H) as H'.
    destruct (advance (duoManager s) (duoHeld s) (second s)) as [[pm mu] c].
    apply good_sym. exact H'.
Qed.

Lemma schedule_good (name : string) (sched : list bool) (s : duo) :
  goodDuo name s ->
  goodDuo name (schedule CheckAndFillMissing newPath s sched).
Proof.
  unfold schedule. revert s.
  induction sched as [|who sched IH]; intros s H; [exact H|].
  cbn [fold_left]. apply IH. now apply stepDuo_good.
Qed.

(** Whatever the interleaving, when both calls have returned one of them
    succeeded and the other got [ErrPathAlreadyExist]. *)
Lemma AddPath_concurrent (pm : pathManager) (ctx ctx' : context)
  (name : string) (newConf config newConf' config' : PathConf)
  (sched : list bool) :
  CheckAndFillMissing newConf name = inr config ->
  CheckAndFillMissing newConf' name = inr config' ->
  pathConfs pm !! name = None ->
  let s := schedule CheckAndFillMissing newPath
             {| duoManager := pm; duoHeld := false;
                first := newCall ctx name newConf;
                second := newCall ctx' name newConf' |} sched in
  callPc (first s) = Returned -> callPc (second s) = Returned ->
  duoHeld s = false
  /\ ((succeeded name (first s) /\ refused (second s))
      \/ (refused (first s) /\ succeeded name (second s))).
Proof.
  intros Hc Hc' Hfree s H1 H2.
  assert (goodDuo name s) as (_ & _ & Hmu & _ & Hout).
  { apply schedule_good. unfold goodDuo, good, wellFormed. cbn.
    repeat split; eauto. }
  rewrite H1, H2 in *. cbn in *. tauto.
Qed.

(** *** Every interleaving comes to its end *)

(** What a call still has to do: its lock, its body and its unlock. *)
Definition todo (p : pc) : nat :=
  match p with AtLock => 3 | InBody => 2 | AtUnlock => 1 | Returned => 0 end.

(** A call can take a step unless it has returned or waits at its lock
    for a mutex that is held. *)
Definition enabled (mu : bool) (c : call) : bool :=
  match callPc c with
  | AtLock => negb mu
  | InBody | AtUnlock => true
  | Returned => false
  end.

Definition mover (s : duo) (who : bool) : call :=
  if who then first s else second s.

(** The steps of a schedule that are taken: the call picked can move. *)
Fixpoint moves (s : duo) (sched : list bool) : nat :=
  match sched with
  | [] => 0
  | who :: rest =>
      (if enabled (duoHeld s) (mover s who) then 1 else 0)
      + moves (stepDuo CheckAndFillMissing newPath s who) rest
  end.

Definition todoDuo (s : duo) : nat :=
  todo (callPc (first s)) + todo (callPc (second s)).

Lemma advance_idle (pm : pathManager) (mu : bool) (c : call) :
  enabled mu c = false -> advance pm mu c = (pm, mu, c).
Proof.
  unfold enabled, Video.advance.
  destruct (callPc c); try discriminate; [|reflexivity].
  now destruct mu.
Qed.

Lemma advance_todo (pm : pathManager) (mu : bool) (c : call) :
  enabled mu c = true ->
  (todo (callPc (advance pm mu c).2) + 1 = todo (callPc c))%nat.
Proof.
  unfold enabled, Video.advance.
  destruct (callPc c); try discriminate.
  - destruct mu; [discriminate|reflexivity].
  - now destruct (Video.AddPath _ _ _ _ _ _).
  - reflexivity.
Qed.

Lemma stepDuo_idle (s : duo) (who : bool) :
  enabled (duoHeld s) (mover s who) = false ->
  stepDuo CheckAndFillMissing newPath s who = s.
Proof.
  unfold stepDuo, mover. destruct who; intros H;
    rewrite (advance_idle _ _ _ H); now destruct s.
Qed.

Lemma stepDuo_todo (s : duo) (who : bool) :
  (todoDuo (stepDuo CheckAndFillMissing newPath s who)
   + (if enabled (duoHeld s) (mover s who) then 1 else 0)
   = todoDuo s)%nat.
Proof.
  destruct (enabled (duoHeld s) (mover s who)) eqn:He;
    [|rewrite (stepDuo_idle s who He); lia].
  unfold stepDuo, mover, todoDuo in *. destruct who;
    pose proof (advance_todo (duoManager s) (duoHeld s) _ He) as H;
    destruct (advance (duoManager s) (duoHeld s) _) as [[pm mu] c];
    cbn [first second snd] in *; lia.
Qed.

Lemma schedule_todo (sched : list bool) (s : duo) :
  (todoDuo (schedule CheckAndFillMissing newPath s sched) + moves s sched
   = todoDuo s)%nat.
Proof.
  unfold schedule. revert s.
  induction sched as [|who sched IH]; intros s; cbn [fold_left moves]; [lia|].
  specialize (IH (stepDuo CheckAndFillMissing newPath s who)).
  pose proof (stepDuo_todo s who). lia.
Qed.

Lemma todo_Returned (p : pc) : todo p = 0%nat <-> p = Returned.
Proof. destruct p; cbn; split; intros H; try reflexivity; discriminate. Qed.

(** While a call has not returned, one of the two can move: a call waits
    only at its lock, and then the other one is between lock and unlock. *)
Lemma good_not_stuck (name : string) (s : duo) :
  goodDuo name s ->
  callPc (first s) <> Returned \/ callPc (second s) <> Returned ->
  exists who, enabled (duoHeld s) (mover s who) = true.
Proof.
  intros (_ & _ & Hmu & _ & _) Hleft. unfold enabled, mover.
  destruct (callPc (first s)) eqn:H1; cbn [inCS orb] in Hmu.
  - destruct (duoHeld s) eqn:Hh; [|exists true; now rewrite H1].
    exists false. destruct (callPc (second s)); try discriminate; reflexivity.
  - exists true. now rewrite H1.
  - exists true. now rewrite H1.
  - exists false. destruct (callPc (second s)) eqn:H2.
    + cbn in Hmu. now rewrite Hmu.
    + reflexivity.
    + reflexivity.
    + destruct Hleft as [H|H]; now elim H.
Qed.


(** The removal goroutine on a registered path: it runs to its end, both
    entries are gone and the mutex is free again, and its one call of
    [path.close] is made with the mutex held. *)
Lemma removePath_run (pm : pathManager) (name : string) (p : path)
  (log : list (string * bool)) :
  paths pm !! name = Some p ->
  run closePath
      {| manager := pm; held := false; closes := log |} (removePath name)
  = Some {| manager := {| pathConfs := delete name (pathConfs pm);
                          paths := delete name (paths pm) |};
            held := false;
            closes := (log ++ [(name, true)])%list |}.
Proof.
  intros Hp. cbn [removePath run step held manager closes pathConfs paths].
  rewrite Hp. cbn [run step held manager closes pathConfs paths].
  do 3 f_equal. apply delete_insert_eq.
Qed.

End Manager.

Arguments enabled {PathConf confError context} mu c.
Arguments mover {PathConf confError context path} s who.
Arguments moves {PathConf confError} CheckAndFillMissing {context path} newPath
  s sched.

(** A manager of the kind the package test builds: the configuration is
    the monitor id, a path is its name and whether it is closed, and the
    check refuses the empty name. *)
Definition testCheck (conf : string) (name : string) : string + string :=
  if String.eqb name "" then inl "name can not be empty" else inr conf.

Definition testNewPath (ctx : nat) (name : string) (conf : string)
  : string * bool := (name, false).

Definition testClose (p : string * bool) : string * bool := (p.1, true).

Definition testManager : pathManager string (string * bool) :=
  newPathManager.


(** A check in the manner of the package's: it refuses the empty name and
    a configuration without monitor id. *)
Definition monitorCheck (conf : string) (name : string) : string + string :=
  if String.eqb name "" then inl "name can not be empty"
  else if String.eqb conf "" then inl "MonitorID missing"
  else inr conf.

(** The manager with the path ["mypath"] live. *)
Definition liveManager : pathManager string (string * bool) :=
  (AddPath monitorCheck testNewPath testManager 0%nat "mypath" "x").2.


(** An interleaving in which the second call takes the mutex first: the
    first call waits at its lock, then finds the name registered. *)
Lemma AddPath_interleaved :
  let s := schedule testCheck testNewPath
             {| duoManager := testManager; duoHeld := false;
                first := newCall 0%nat "mypath" "x";
                second := newCall 1%nat "mypath" "y" |}
             [false; true; false; true; false; true; true; true] in
  callPc (first s) = Returned /\ callPc (second s) = Returned
  /\ callResult (first s) = Some (Err ErrPathAlreadyExist)
  /\ callResult (second s) = Some (Ok (MuxerByPathName "mypath"))
  /\ pathConfs (duoManager s) !! "mypath" = Some "y"
  /\ duoHeld s = false.
Proof. vm_compute. repeat split. Qed.

(** C6 (the code).  The path ["mypath"] is added and its context is
    cancelled: the removal goroutine calls [path.close] once, and the
    manager's mutex is held at that call. *)
Theorem removePath_closes_under_lock :
  let pm := (AddPath testCheck testNewPath
                     testManager 0%nat "mypath" "x").2 in
  option_map (fun w => (closes w, held w,
                        pathExist (manager w) "mypath"))
             (run testClose
                  {| manager := pm; held := false; closes := [] |}
                  (removePath "mypath"))
  = Some ([("mypath", true)], false, false).
Proof. vm_compute. reflexivity. Qed.

End PathFacts.

(** ** The fan-out stream *)

Module StreamFacts.
Import Gortsplib.

(** C9.  When [pkt.Marshal] fails, [WritePacketRTP] returns with the stream
    and every session as they were: no counter of any track is touched and
    nothing is written to a reader. *)
Theorem WritePacketRTP_marshal_error (Marshal : Packet -> option string)
  (ServerSession : Type)
  (writePacketRTP : ServerSession -> Z -> string -> ServerSession)
  (st : ServerStream) (h : heap ServerSession) (trackID : Z) (pkt : Packet)
  (now : Z) :
  Marshal pkt = None ->
  WritePacketRTP Marshal ServerSession writePacketRTP st h trackID pkt now
  = Ok (st, h).
Proof. intros H. unfold WritePacketRTP. now rewrite H. Qed.

(** A marshaller with pion's rule that a header extension is a whole number
    of 32-bit words; a session is the list of what was written to it. *)
Definition wordsMarshal (pkt : Packet) : option string :=
  if Extension pkt
     && negb (Nat.eqb (Nat.modulo (String.length (ExtensionPayload pkt)) 4) 0)
  then None
  else Some (ExtensionPayload pkt ++ Payload pkt).

Definition logWrite (ss : list (Z * string)) (trackID : Z) (byts : string)
  : list (Z * string) := (ss ++ [(trackID, byts)])%list.

Definition oddPacket : Packet :=
  {| SequenceNumber := 7; Timestamp := 90000; SSRC := 1;
     Extension := true; ExtensionPayload := "abc"; Payload := "frame" |}.

Definition goodPacket : Packet :=
  {| SequenceNumber := 7; Timestamp := 90000; SSRC := 1;
     Extension := false; ExtensionPayload := ""; Payload := "frame" |}.

Definition oneTrack : ServerStream :=
  {| stTracks := [ {| lastSequenceNumber := 6; lastTimeRTP := 87000;
                      lastTimeNTP := 1600000000; lastSSRC := 1 |} ];
     readersUnicast := {[ 1%positive ]};
     readers := {[ 1%positive; 2%positive ]} |}.

Definition twoSessions : heap (list (Z * string)) :=
  <[1%positive := []]> (<[2%positive := []]> ∅).

Lemma WritePacketRTP_marshal_error_witness :
  WritePacketRTP wordsMarshal (list (Z * string)) logWrite
                 oneTrack twoSessions 0 oddPacket 1600000001
  = Ok (oneTrack, twoSessions).
Proof.
  apply (WritePacketRTP_marshal_error wordsMarshal (list (Z * string)) logWrite
           oneTrack twoSessions 0 oddPacket 1600000001).
  reflexivity.
Defined.

(** For contrast, a packet that marshals: the counters of its track are
    set and the active reader, and only it, gets the bytes. *)
Lemma WritePacketRTP_good_packet :
  match WritePacketRTP wordsMarshal (list (Z * string)) logWrite
                       oneTrack twoSessions 0 goodPacket 1600000001 with
  | Ok (st, h) =>
      stTracks st = [ {| lastSequenceNumber := 7; lastTimeRTP := 90000;
                         lastTimeNTP := 1600000001; lastSSRC := 1 |} ]
      /\ h !! 1%positive = Some [(0, "frame")]
      /\ h !! 2%positive = Some []
  | _ => False
  end.
Proof. vm_compute. repeat split. Qed.

End StreamFacts.

(** ** Strings *)

Module StringFacts.
Import GoStrings FfmpegFacts.

Lemma append_assoc (a b c : string) : (a ++ b) ++ c = a ++ b ++ c.
Proof.
  induction a as [|x a IH]; [reflexivity|].
  change (String x ((a ++ b) ++ c) = String x (a ++ b ++ c)). now rewrite IH.
Qed.

Lemma String_length_app (a b : string) :
  String.length (a ++ b) = (String.length a + String.length b)%nat.
Proof.
  induction a as [|x a IH]; [reflexivity|].
  change (S (String.length (a ++ b)) = S (String.length a + String.length b)).
  now rewrite IH.
Qed.

Lemma substring_length (n m : nat) (s : string) :
  (n + m <= String.length s)%nat -> String.length (substring n m s) = m.
Proof.
  revert n m. induction s as [|c s IH]; intros n m H; cbn [String.length] in H.
  - destruct n, m; simpl; try reflexivity; lia.
  - destruct n as [|n]; [destruct m as [|m]|]; simpl; try reflexivity.
    + f_equal. apply (IH 0%nat m). lia.
    + apply IH. lia.
Qed.

Lemma substring_0_app (a b : string) :
  substring 0 (String.length a) (a ++ b) = a.
Proof.
  induction a as [|x a IH].
  - cbn [String.length]. now destruct b.
  - change (String x (substring 0 (String.length a) (a ++ b)) = String x a).
    now rewrite IH.
Qed.

Lemma Split_not_nil (sep : ascii) (s : string) : Split sep s <> [].
Proof.
  intros H. apply (f_equal (@length string)) in H.
  rewrite Split_length in H. discriminate.
Qed.

(** A string without the separator is one field. *)
Lemma Split_none (sep : ascii) (s : string) :
  count_byte sep s = 0%nat -> Split sep s = [s].
Proof.
  induction s as [|c s IH]; [reflexivity|].
  cbn [count_byte Split]. destruct (Ascii.eqb c sep); [discriminate|].
  intros H. now rewrite (IH H).
Qed.

(** The first field ends at the first separator. *)
Lemma Split_at (sep : ascii) (a b : string) :
  count_byte sep a = 0%nat ->
  Split sep (a ++ String sep b) = a :: Split sep b.
Proof.
  induction a as [|c a IH]; intros H.
  - change (Split sep (String sep b) = "" :: Split sep b).
    cbn [Split]. now rewrite Ascii.eqb_refl.
  - cbn [count_byte] in H.
    change (Split sep (String c (a ++ String sep b)) = String c a :: Split sep b).
    cbn [Split]. destruct (Ascii.eqb c sep); [discriminate|].
    now rewrite (IH H).
Qed.

(** Joining the fields with the separator gives the string back. *)
Lemma Split_concat (sep : ascii) (s : string) :
  String.concat (String sep EmptyString) (Split sep s) = s.
Proof.
  induction s as [|c s IH]; [reflexivity|].
  cbn [Split]. destruct (Ascii.eqb_spec c sep) as [->|Hne].
  - pose proof (Split_not_nil sep s) as Hnn.
    destruct (Split sep s) as [|f fs] eqn:Hs; [congruence|].
    cbn [String.concat]. cbn [String.concat] in IH. now rewrite IH.
  - pose proof (Split_not_nil sep s) as Hnn.
    destruct (Split sep s) as [|f fs] eqn:Hs; [congruence|].
    cbn [String.concat] in *. destruct fs as [|g gs].
    + now rewrite IH.
    + change (String c f ++ String sep "" ++ String.concat (String sep "") (g :: gs))
        with (String c (f ++ String sep "" ++ String.concat (String sep "") (g :: gs))).
      now rewrite IH.
Qed.

Lemma Split_fields (sep : ascii) (s : string) :
  Forall (fun f => count_byte sep f = 0%nat) (Split sep s).
Proof.
  induction s as [|c s IH]; [repeat constructor|].
  cbn [Split]. destruct (Ascii.eqb_spec c sep) as [->|Hne].
  - constructor; [reflexivity|exact IH].
  - destruct (Split sep s) as [|f fs]; [repeat constructor|].
    + cbn [count_byte]. destruct (Ascii.eqb_spec c sep); [contradiction|reflexivity].
    + apply Forall_cons in IH as [Hf Hfs]. constructor; [|exact Hfs].
      cbn [count_byte]. destruct (Ascii.eqb_spec c sep); [contradiction|].
      exact Hf.
Qed.

Lemma list_ascii_app (a b : string) :
  list_ascii_of_string (a ++ b)
  = (list_ascii_of_string a ++ list_ascii_of_string b)%list.
Proof.
  induction a as [|x a IH]; [reflexivity|].
  change (x :: list_ascii_of_string (a ++ b)
          = x :: (list_ascii_of_string a ++ list_ascii_of_string b)%list).
  now rewrite IH.
Qed.

Lemma rev_string_involutive (s : string) : rev_string (rev_string s) = s.
Proof.
  unfold rev_string.
  now rewrite list_ascii_of_string_of_list_ascii, rev_involutive,
    string_of_list_ascii_of_string.
Qed.

Lemma rev_string_snoc (s : string) (c : ascii) :
  rev_string (s ++ String c EmptyString) = String c (rev_string s).
Proof.
  unfold rev_string. rewrite list_ascii_app, rev_app_distr. reflexivity.
Qed.

End StringFacts.

(** ** The image mask *)

Module MaskFacts.
Import GoStrings Ffmpeg.

Definition int64 (z : Z) : Prop := minInt64 <= z <= maxInt64.

Lemma wrap64_id (z : Z) : int64 z -> wrap64 z = z.
Proof.
  unfold int64, wrap64, minInt64, maxInt64. intros H.
  rewrite Z.mod_small by lia. lia.
Qed.

Lemma wrap64_sub_neq (a b : Z) :
  int64 a -> int64 b -> a <> b -> wrap64 (a - b) <> 0.
Proof.
  unfold int64, wrap64, minInt64, maxInt64. intros Ha Hb Hne H.
  pose proof (Z.div_mod (a - b + 2 ^ 63) (2 ^ 64) ltac:(lia)) as Hdm.
  pose proof (Z.mod_pos_bound (a - b + 2 ^ 63) (2 ^ 64) ltac:(lia)).
  assert ((a - b + 2 ^ 63) / 2 ^ 64 = 0 \/ (a - b + 2 ^ 63) / 2 ^ 64 = -1
          \/ (a - b + 2 ^ 63) / 2 ^ 64 = 1 \/ (a - b + 2^63) / 2^64 < -1 \/ 1 < (a - b + 2^63)/2^64) as Hq by lia.
  nia.
Qed.

Definition inRange (p : Z * Z) : Prop := int64 p.1 /\ int64 p.2.

Lemma crossing_no_panic (x y : Z) (pi pj : Z * Z) :
  inRange pi -> inRange pj -> exists b, crossing x y pi pj = Ok b.
Proof.
  intros [_ Hi] [_ Hj]. unfold crossing.
  destruct (xorb (pi.2 >? y) (pj.2 >? y)) eqn:Hx; [|eauto].
  assert (pj.2 <> pi.2) as Hne.
  { intros Heq. rewrite Heq, xorb_nilpotent in Hx. discriminate. }
  unfold intQuo.
  destruct (Z.eqb_spec (intSub pj.2 pi.2) 0) as [H0|_]; [|eauto].
  exfalso. revert H0. now apply wrap64_sub_neq.
Qed.

Lemma index_of_nat {A} (l : list A) (i : nat) : index l (Z.of_nat i) = l !! i.
Proof.
  unfold index. destruct (Z.ltb_spec (Z.of_nat i) 0); [lia|].
  now rewrite Nat2Z.id.
Qed.

Lemma insideLoop_step (poly : list (Z * Z)) (x y : Z) (n i : nat) (j : Z)
  (inside : bool) :
  insideLoop poly x y (S n) i j inside
  = match poly !! i, index poly j with
    | Some pi, Some pj =>
        match crossing x y pi pj with
        | Ok cross =>
            insideLoop poly x y n (S i) (Z.of_nat i)
                       (if cross then negb inside else inside)
        | Err e => Err e
        | Panic => Panic
        end
    | _, _ => Panic
    end.
Proof. reflexivity. Qed.

Lemma insideLoop_total (poly : list (Z * Z)) (x y : Z) (n i : nat) (j : Z)
  (inside : bool) :
  Forall inRange poly ->
  (i + n = length poly)%nat -> 0 <= j < Z.of_nat (length poly) ->
  exists b, insideLoop poly x y n i j inside = Ok b.
Proof.
  intros Hr. revert i j inside.
  induction n as [|n IH]; intros i j inside Hlen Hj; [simpl; eauto|].
  cbn [insideLoop].
  destruct (lookup_lt_is_Some_2 poly i ltac:(lia)) as [pi Hpi].
  destruct (lookup_lt_is_Some_2 poly (Z.to_nat j) ltac:(lia)) as [pj Hpj].
  rewrite Hpi. unfold index at 1.
  destruct (Z.ltb_spec j 0); [lia|]. rewrite Hpj.
  destruct (crossing_no_panic x y pi pj) as [b ->].
  - eapply Forall_lookup_1; eauto.
  - eapply Forall_lookup_1; eauto.
  - apply IH; lia.
Qed.

Lemma vertexInsidePoly_answers (x y : Z) (poly : list (Z * Z)) :
  Forall inRange poly ->
  exists inside, vertexInsidePoly x y poly = Ok inside.
Proof.
  intros Hr. unfold vertexInsidePoly.
  destruct poly as [|p poly]; [simpl; eauto|].
  apply insideLoop_total; [exact Hr|reflexivity|].
  cbn [length]. lia.
Qed.

(** X1.  [vertexInsidePoly] answers for every point and every polygon of
    [int] vertices: the index expressions stay in range and the divisor is
    never zero, for an empty polygon as well. *)
Theorem vertexInsidePoly_total (x y : Z) (poly : list (Z * Z)) :
  Forall inRange poly ->
  vertexInsidePoly x y poly = Ok true \/ vertexInsidePoly x y poly = Ok false.
Proof.
  intros Hr. destruct (vertexInsidePoly_answers x y poly Hr) as [[] ->]; auto.
Qed.


Lemma insideLoop_same_side (poly : list (Z * Z)) (x y : Z) (side : bool)
  (n i : nat) (j : Z) (inside : bool) :
  Forall (fun p => (p.2 >? y) = side) poly ->
  (i + n = length poly)%nat -> 0 <= j < Z.of_nat (length poly) ->
  insideLoop poly x y n i j inside = Ok inside.
Proof.
  intros Hs. revert i j inside.
  induction n as [|n IH]; intros i j inside Hlen Hj; [reflexivity|].
  cbn [insideLoop].
  destruct (lookup_lt_is_Some_2 poly i ltac:(lia)) as [pi Hpi].
  destruct (lookup_lt_is_Some_2 poly (Z.to_nat j) ltac:(lia)) as [pj Hpj].
  rewrite Hpi. unfold index at 1.
  destruct (Z.ltb_spec j 0); [lia|]. rewrite Hpj.
  unfold crossing.
  rewrite (Forall_lookup_1 _ _ _ _ Hs Hpi), (Forall_lookup_1 _ _ _ _ Hs Hpj).
  rewrite xorb_nilpotent. apply IH; lia.
Qed.

(** X2.  A point level with or above every vertex, or strictly below every
    vertex, is outside: no edge is crossed.  This covers the empty polygon
    and every polygon whose vertices lie on one horizontal line. *)
Theorem vertexInsidePoly_outside_extent (x y : Z) (poly : list (Z * Z)) :
  Forall (fun p => y < p.2) poly \/ Forall (fun p => p.2 <= y) poly ->
  vertexInsidePoly x y poly = Ok false.
Proof.
  intros H. unfold vertexInsidePoly.
  destruct poly as [|p poly]; [reflexivity|].
  destruct H as [H|H].
  - apply (insideLoop_same_side _ x y true); [|reflexivity|cbn [length]; lia].
    eapply Forall_impl; [exact H|]. intros q Hq. cbn beta in *.
    apply Z.gtb_lt. exact Hq.
  - apply (insideLoop_same_side _ x y false); [|reflexivity|cbn [length]; lia].
    eapply Forall_impl; [exact H|]. intros q Hq. cbn beta in *.
    rewrite Z.gtb_ltb. apply Z.ltb_ge. exact Hq.
Qed.

Lemma vertexInsidePoly_outside_extent_witness :
  vertexInsidePoly 5 20 [(0, 0); (10, 0); (10, 10)] = Ok false.
Proof.
  apply (vertexInsidePoly_outside_extent 5 20 [(0, 0); (10, 0); (10, 10)]).
  right. repeat constructor; simpl; lia.
Defined.

Lemma vertexInsidePoly_total_witness :
  vertexInsidePoly 3 2 [(0, 0); (10, 0); (10, 10)] = Ok true
  \/ vertexInsidePoly 3 2 [(0, 0); (10, 0); (10, 10)] = Ok false.
Proof.
  apply (vertexInsidePoly_total 3 2 [(0, 0); (10, 0); (10, 10)]).
  repeat constructor; vm_compute; congruence.
Defined.

Lemma vertical_edge (x y a yi yj : Z) :
  int64 a -> int64 yi -> int64 yj ->
  crossing x y (a, yi) (a, yj)
  = Ok (xorb (yi >? y) (yj >? y) && (x <? a)).
Proof.
  intros Ha Hi Hj. unfold crossing. cbn [fst snd].
  destruct (xorb (yi >? y) (yj >? y)) eqn:Hx; [|reflexivity].
  assert (yj <> yi) as Hne.
  { intros Heq. rewrite Heq, xorb_nilpotent in Hx. discriminate. }
  unfold intQuo.
  destruct (Z.eqb_spec (intSub yj yi) 0) as [H0|_].
  { exfalso. revert H0. now apply wrap64_sub_neq. }
  unfold intSub at 1, intMul, intAdd. rewrite Z.sub_diag.
  change (wrap64 0) with 0. rewrite Z.mul_0_l.
  change (wrap64 0) with 0. rewrite Z.quot_0_l.
  2:{ intros H0. unfold intSub in H0. revert H0. unfold intSub.
      intros H0. apply (wrap64_sub_neq yj yi Hj Hi Hne). exact H0. }
  change (wrap64 0) with 0. rewrite Z.add_0_l, (wrap64_id a Ha). reflexivity.
Qed.

Lemma horizontal_edge (x y xi xj b : Z) :
  crossing x y (xi, b) (xj, b) = Ok false.
Proof. unfold crossing. cbn [fst snd]. now rewrite xorb_nilpotent. Qed.

(** X3.  For the axis-parallel rectangle with corners [(a, b)] and
    [(c, d)], listed corner by corner, the points inside are those of the
    half-open rectangle: [a <= x < c] and [b <= y < d]. *)
Theorem vertexInsidePoly_rectangle (x y a b c d : Z) :
  int64 a -> int64 b -> int64 c -> int64 d -> a <= c -> b <= d ->
  vertexInsidePoly x y [(a, b); (c, b); (c, d); (a, d)]
  = Ok ((a <=? x) && (x <? c) && (b <=? y) && (y <? d)).
Proof.
  intros Ha Hb Hc Hd Hac Hbd.
  unfold vertexInsidePoly.
  change (length [(a, b); (c, b); (c, d); (a, d)]) with 4%nat.
  change (Z.of_nat 4 - 1) with (Z.of_nat 3).
  rewrite insideLoop_step, index_of_nat.
  change ([(a, b); (c, b); (c, d); (a, d)] !! 0%nat) with (Some (a, b)).
  change ([(a, b); (c, b); (c, d); (a, d)] !! 3%nat) with (Some (a, d)).
  cbv iota beta. rewrite (vertical_edge x y a b d Ha Hb Hd).
  rewrite insideLoop_step, index_of_nat.
  change ([(a, b); (c, b); (c, d); (a, d)] !! 1%nat) with (Some (c, b)).
  change ([(a, b); (c, b); (c, d); (a, d)] !! 0%nat) with (Some (a, b)).
  cbv iota beta. rewrite horizontal_edge.
  rewrite insideLoop_step, index_of_nat.
  change ([(a, b); (c, b); (c, d); (a, d)] !! 2%nat) with (Some (c, d)).
  change ([(a, b); (c, b); (c, d); (a, d)] !! 1%nat) with (Some (c, b)).
  cbv iota beta. rewrite (vertical_edge x y c d b Hc Hd Hb).
  rewrite insideLoop_step, index_of_nat.
  change ([(a, b); (c, b); (c, d); (a, d)] !! 3%nat) with (Some (a, d)).
  change ([(a, b); (c, b); (c, d); (a, d)] !! 2%nat) with (Some (c, d)).
  cbv iota beta. rewrite horizontal_edge.
  cbn [insideLoop]. f_equal.
  rewrite !Z.gtb_ltb.
  destruct (Z.ltb_spec y b), (Z.ltb_spec y d), (Z.ltb_spec x a),
    (Z.ltb_spec x c), (Z.leb_spec a x), (Z.leb_spec b y);
    cbn; try reflexivity; lia.
Qed.

Lemma vertexInsidePoly_rectangle_witness :
  vertexInsidePoly 3 4 [(1, 2); (10, 2); (10, 20); (1, 20)]
  = Ok ((1 <=? 3) && (3 <? 10) && (2 <=? 4) && (4 <? 20)).
Proof.
  apply (vertexInsidePoly_rectangle 3 4 1 2 10 20);
    vm_compute; try split; congruence.
Defined.


(** *** The mask *)

Lemma AlphaAt_AlphaSet (img : Alpha) (x y a px py : Z) :
  AlphaAt (AlphaSet img x y a) px py
  = if (px =? x) && (py =? y) && inBounds (Bounds img) x y then a
    else AlphaAt img px py.
Proof.
  unfold AlphaSet, AlphaAt.
  destruct (inBounds (Bounds img) x y) eqn:Hin; cbn [Bounds Pix].
  - destruct (Z.eqb_spec px x) as [->|Hx]; cbn [andb].
    + destruct (Z.eqb_spec py y) as [->|Hy]; cbn [andb].
      * now rewrite Hin, lookup_insert_eq.
      * rewrite lookup_insert_ne by congruence. reflexivity.
    + rewrite lookup_insert_ne by congruence. reflexivity.
  - now rewrite andb_false_r.
Qed.

Lemma Bounds_AlphaSet (img : Alpha) (x y a : Z) :
  Bounds (AlphaSet img x y a) = Bounds img.
Proof. unfold AlphaSet. now destruct (inBounds _ _ _). Qed.

(** The alpha [CreateMask] gives a pixel: transparent inside the polygon,
    opaque outside. *)
Definition maskAlpha (poly : list (Z * Z)) (px py : Z) : Z :=
  match vertexInsidePoly px py poly with
  | Ok true => 0
  | _ => 255
  end.

Lemma maskColumn_spec (poly : list (Z * Z)) (n : nat) (img : Alpha)
  (y x : Z) :
  Forall inRange poly ->
  exists img',
    maskColumn poly img y x n = Ok img'
    /\ Bounds img' = Bounds img
    /\ forall px py,
         AlphaAt img' px py
         = if (px =? y) && (x <=? py) && (py <? x + Z.of_nat n)
              && inBounds (Bounds img) px py
           then maskAlpha poly px py
           else AlphaAt img px py.
Proof.
  intros Hr. revert img x.
  induction n as [|n IH]; intros img x.
  - exists img. split; [reflexivity|]. split; [reflexivity|].
    intros px py.
    destruct (Z.leb_spec x py), (Z.ltb_spec py (x + Z.of_nat 0));
      rewrite ?andb_false_r; cbn [andb]; try reflexivity; lia.
  - cbn [maskColumn].
    destruct (vertexInsidePoly_answers y x poly Hr) as [inside Hin].
    rewrite Hin.
    set (a := if inside then 0 else 255).
    assert (maskAlpha poly y x = a) as Ha.
    { unfold maskAlpha. rewrite Hin. now destruct inside. }
    destruct (IH (AlphaSet img y x a) (x + 1)) as (img' & Hrun & Hb & Hpix).
    exists img'. split.
    { destruct inside; exact Hrun. }
    split; [now rewrite Hb, Bounds_AlphaSet|].
    intros px py. rewrite Hpix, Bounds_AlphaSet, AlphaAt_AlphaSet.
    destruct (Z.eqb_spec px y) as [->|Hne]; cbn [andb]; [|reflexivity].
    destruct (inBounds (Bounds img) y py) eqn:Hbd.
    + destruct (Z.eqb_spec py x) as [->|Hxy].
      * rewrite Hbd.
        destruct (Z.leb_spec (x + 1) x); [lia|].
        destruct (Z.leb_spec x x); [|lia].
        destruct (Z.ltb_spec x (x + Z.of_nat (S n))); [|lia].
        cbn [andb]. now rewrite Ha.
      * rewrite !andb_true_r. cbn [andb].
        destruct (Z.leb_spec (x + 1) py), (Z.leb_spec x py),
          (Z.ltb_spec py (x + 1 + Z.of_nat n)),
          (Z.ltb_spec py (x + Z.of_nat (S n)));
          cbn [andb]; try reflexivity; lia.
    + rewrite !andb_false_r.
      destruct (Z.eqb_spec py x) as [->|Hxy]; [|reflexivity].
      now rewrite Hbd.
Qed.

Lemma maskRows_spec (poly : list (Z * Z)) (h : Z) (n : nat) (img : Alpha)
  (y : Z) :
  Forall inRange poly ->
  exists img',
    maskRows poly img h y n = Ok img'
    /\ Bounds img' = Bounds img
    /\ forall px py,
         AlphaAt img' px py
         = if (y <=? px) && (px <? y + Z.of_nat n)
              && (0 <=? py) && (py <? h) && inBounds (Bounds img) px py
           then maskAlpha poly px py
           else AlphaAt img px py.
Proof.
  intros Hr. revert img y.
  induction n as [|n IH]; intros img y.
  - exists img. split; [reflexivity|]. split; [reflexivity|].
    intros px py.
    destruct (Z.leb_spec y px), (Z.ltb_spec px (y + Z.of_nat 0));
      cbn [andb]; try reflexivity; lia.
  - cbn [maskRows].
    destruct (maskColumn_spec poly (Z.to_nat h) img y 0 Hr)
      as (img1 & Hcol & Hb1 & Hpix1).
    rewrite Hcol.
    destruct (IH img1 (y + 1)) as (img' & Hrun & Hb & Hpix).
    exists img'. split; [exact Hrun|].
    split; [now rewrite Hb|].
    intros px py. rewrite Hpix, Hpix1, Hb1.
    assert ((py <? 0 + Z.of_nat (Z.to_nat h)) = ((0 <=? py) && (py <? h))
            \/ (0 <=? py) = false) as Hh.
    { destruct (Z.leb_spec 0 py); [left|now right].
      cbn [andb]. destruct (Z.ltb_spec py h), (Z.ltb_spec py (0 + Z.of_nat (Z.to_nat h)));
        try reflexivity; lia. }
    destruct (inBounds (Bounds img) px py) eqn:Hbd;
      [|now rewrite !andb_false_r].
    rewrite !andb_true_r.
    destruct (Z.leb_spec 0 py) as [Hpy|Hpy].
    2:{ rewrite !andb_false_r. cbn [andb]. reflexivity. }
    destruct Hh as [Hh|Hh]; [|destruct (Z.leb_spec 0 py); [discriminate|lia]].
    rewrite Hh. destruct (Z.leb_spec 0 py); [|lia]. cbn [andb].
    rewrite !andb_true_r.
    destruct (Z.ltb_spec py h); [|now rewrite !andb_false_r].
    rewrite !andb_true_r.
    destruct (Z.eqb_spec px y) as [->|Hne].
    + destruct (Z.leb_spec (y + 1) y); [lia|].
      destruct (Z.leb_spec y y); [|lia].
      destruct (Z.ltb_spec y (y + Z.of_nat (S n))); [|lia]. reflexivity.
    + destruct (Z.leb_spec (y + 1) px), (Z.leb_spec y px),
        (Z.ltb_spec px (y + 1 + Z.of_nat n)),
        (Z.ltb_spec px (y + Z.of_nat (S n)));
        cbn [andb]; try reflexivity; lia.
Qed.

(** X4.  For a width and a height that are not negative and whose product
    fits an [int], [CreateMask] returns an image of that size.  A pixel
    [(px, py)] with [0 <= px < w] and [0 <= py < h] has alpha 0 when
    [vertexInsidePoly] places it inside the polygon and 255 when outside;
    everywhere else the image reads 0. *)
Theorem CreateMask_pixels (w h : Z) (poly : list (Z * Z)) :
  Forall inRange poly ->
  0 <= w <= maxInt64 -> 0 <= h <= maxInt64 -> w * h <= maxInt64 ->
  exists img,
    CreateMask w h poly = Ok img
    /\ Bounds img = (0, 0, w, h)
    /\ forall px py,
         AlphaAt img px py
         = if (0 <=? px) && (px <? w) && (0 <=? py) && (py <? h)
           then match vertexInsidePoly px py poly with
                | Ok true => 0
                | _ => 255
                end
           else 0.
Proof.
  intros Hr Hw Hh Hwh. unfold CreateMask.
  assert (imageRect 0 0 w h = (0, 0, w, h)) as ->.
  { unfold imageRect. destruct (Z.ltb_spec w 0); [lia|].
    destruct (Z.ltb_spec h 0); [lia|]. reflexivity. }
  assert (NewAlpha (0, 0, w, h) = Some {| Bounds := (0, 0, w, h); Pix := ∅ |})
    as ->.
  { unfold NewAlpha, intSub. rewrite !Z.sub_0_r.
    rewrite !wrap64_id by (unfold int64, minInt64, maxInt64 in *; lia).
    destruct (Z.leb_spec 0 w); [|lia]. destruct (Z.leb_spec 0 h); [|lia].
    destruct (Z.leb_spec (w * h) maxInt64); [|lia]. reflexivity. }
  destruct (maskRows_spec poly h (Z.to_nat w)
              {| Bounds := (0, 0, w, h); Pix := ∅ |} 0 Hr)
    as (img & Hrun & Hb & Hpix).
  exists img. split; [exact Hrun|]. split; [exact Hb|].
  intros px py. rewrite Hpix. fold (maskAlpha poly px py).
  cbn [Bounds].
  assert (AlphaAt {| Bounds := (0, 0, w, h); Pix := ∅ |} px py = 0) as H0.
  { unfold AlphaAt. cbn [Bounds Pix]. rewrite lookup_empty.
    now destruct (inBounds _ _ _). }
  rewrite H0.
  destruct (Z.leb_spec 0 px) as [Hpx|Hpx]; cbn [andb]; [|reflexivity].
  destruct (Z.ltb_spec px w) as [Hpw|Hpw].
  2:{ destruct (Z.ltb_spec px (0 + Z.of_nat (Z.to_nat w))); [lia|reflexivity]. }
  destruct (Z.ltb_spec px (0 + Z.of_nat (Z.to_nat w))); [|lia]. cbn [andb].
  destruct (Z.leb_spec 0 py) as [Hpy|Hpy]; cbn [andb]; [|reflexivity].
  destruct (Z.ltb_spec py h) as [Hph|Hph]; cbn [andb]; [|reflexivity].
  assert (inBounds (0, 0, w, h) px py = true) as ->; [|reflexivity].
  unfold inBounds.
  destruct (Z.leb_spec 0 px), (Z.ltb_spec px w), (Z.leb_spec 0 py),
    (Z.ltb_spec py h); try reflexivity; lia.
Qed.

Lemma CreateMask_pixels_witness :
  exists img,
    CreateMask 4 3 [(1, 0); (3, 0); (3, 2); (1, 2)] = Ok img
    /\ Bounds img = (0, 0, 4, 3)
    /\ forall px py,
         AlphaAt img px py
         = if (0 <=? px) && (px <? 4) && (0 <=? py) && (py <? 3)
           then match vertexInsidePoly px py [(1, 0); (3, 0); (3, 2); (1, 2)] with
                | Ok true => 0
                | _ => 255
                end
           else 0.
Proof.
  apply (CreateMask_pixels 4 3 [(1, 0); (3, 0); (3, 2); (1, 2)]).
  - repeat constructor; vm_compute; congruence.
  - vm_compute. split; congruence.
  - vm_compute. split; congruence.
  - vm_compute. congruence.
Defined.

End MaskFacts.

(** ** The playlist, digit by digit *)

Module PlaylistFacts.
Import GoStrings Ffmpeg FfmpegFacts StringFacts.

Lemma digit_of_bounds (c : ascii) (v : Z) : digit_of c = Some v -> 0 <= v <= 9.
Proof.
  unfold digit_of. 
  destruct ((48 <=? byte_of c)%N && (byte_of c <=? 57)%N) eqn:H; [|discriminate].
  intros [= <-]. apply andb_true_iff in H as [H1 H2].
  apply N.leb_le in H1, H2. lia.
Qed.

Lemma digits_value_bounds (s : string) (acc v : Z) :
  0 <= acc -> digits_value acc s = Some v ->
  acc * 10 ^ Z.of_nat (String.length s) <= v
  < (acc + 1) * 10 ^ Z.of_nat (String.length s).
Proof.
  revert acc. induction s as [|c s IH]; intros acc Hacc H.
  - injection H as <-. cbn [String.length Z.of_nat Z.pow]. lia.
  - cbn [digits_value] in H.
    destruct (digit_of c) as [d|] eqn:Hd; [|discriminate].
    apply digit_of_bounds in Hd.
    apply IH in H; [|lia].
    cbn [String.length]. rewrite Nat2Z.inj_succ, Z.pow_succ_r by lia.
    pose proof (Z.pow_pos_nonneg 10 (Z.of_nat (String.length s)) ltac:(lia) ltac:(lia)).
    nia.
Qed.

Lemma decimal_bounds (s : string) (v : Z) :
  decimal s = Some v -> 0 <= v < 10 ^ Z.of_nat (String.length s).
Proof.
  unfold decimal. intros H.
  assert (digits_value 0 s = Some v) as H' by (destruct s; [discriminate|exact H]).
  apply digits_value_bounds in H'; lia.
Qed.

(** [Atoi] of four bytes lies between -999 and 9999. *)
Lemma Atoi_four (s : string) (k : Z) :
  String.length s = 4%nat -> Atoi s = Some k -> -999 <= k <= 9999.
Proof.
  intros Hlen H. unfold Atoi in H.
  match type of H with
  | match ?signed with _ => _ end = _ => destruct signed as [v|] eqn:Hs; [|discriminate]
  end.
  destruct ((minInt64 <=? v) && (v <=? maxInt64)); [|discriminate].
  injection H as <-.
  assert ((exists s', s = String "-" s' /\ option_map Z.opp (decimal s') = Some v)
          \/ (exists s', s = String "+" s' /\ decimal s' = Some v)
          \/ decimal s = Some v) as Hcases.
  { destruct s as [|c s']; [right; right; exact Hs|].
    destruct c as [[] [] [] [] [] [] [] []];
      try (right; right; exact Hs).
    - right. left. eauto.
    - left. eauto. }
  destruct Hcases as [(s' & -> & Hd)|[(s' & -> & Hd)|Hd]].
  - destruct (decimal s') as [u|] eqn:Hu; [|discriminate].
    injection Hd as <-. apply decimal_bounds in Hu.
    cbn [String.length] in Hlen.
    replace (String.length s') with 3%nat in Hu by lia.
    change (10 ^ Z.of_nat 3) with 1000 in Hu. lia.
  - apply decimal_bounds in Hd. cbn [String.length] in Hlen.
    replace (String.length s') with 3%nat in Hd by lia.
    change (10 ^ Z.of_nat 3) with 1000 in Hd. lia.
  - apply decimal_bounds in Hd. rewrite Hlen in Hd.
    change (10 ^ Z.of_nat 4) with 10000 in Hd. lia.
Qed.

Lemma slice_length (s : string) (lo hi : nat) (r : string) :
  slice s lo hi = Some r -> String.length r = (hi - lo)%nat.
Proof.
  unfold slice.
  destruct (Nat.leb_spec lo hi); [|discriminate].
  destruct (Nat.leb_spec hi (String.length s)); [|discriminate].
  intros [= <-]. apply substring_length. lia.
Qed.

(** X5.  [getKeyframeDuration] never panics, and a duration it returns is a
    whole number of milliseconds between -999 and 9999: four bytes of the
    line are read, so a segment of ten seconds or more cannot be
    reported. *)
Theorem getKeyframeDuration_range (fs : gmap string string) (hlsPath : string) :
  match getKeyframeDuration fs hlsPath with
  | Ok d => exists k, -999 <= k <= 9999 /\ d = k * Millisecond
  | Err _ => True
  | Panic => False
  end.
Proof.
  unfold getKeyframeDuration, ReadFile.
  destruct (fs !! hlsPath) as [m3u8|]; [|exact I].
  pose proof (keyframeDurationOf_no_panic m3u8) as Hnp.
  destruct (keyframeDurationOf m3u8) as [d|e|] eqn:Hk; [|exact I|congruence].
  unfold keyframeDurationOf in Hk.
  destruct (length _ <? 2)%nat; [discriminate|].
  destruct (_ !! _) as [line|]; [|discriminate].
  destruct (String.length _ <? 12)%nat; [discriminate|].
  destruct (slice _ 8 12) as [digits|] eqn:Hsl; [|discriminate].
  destruct (Atoi digits) as [k|] eqn:Ha; [|discriminate].
  injection Hk as <-.
  apply slice_length in Hsl.
  pose proof (Atoi_four digits k Hsl Ha) as Hb.
  exists k. split; [exact Hb|].
  unfold wrap64, Millisecond. rewrite Z.mod_small by lia. lia.
Qed.

Lemma digit_not_dot (c : ascii) (v : Z) :
  digit_of c = Some v -> Ascii.eqb c "." = false.
Proof.
  intros H. destruct (Ascii.eqb_spec c ".") as [->|]; [|reflexivity].
  vm_compute in H. discriminate.
Qed.

Lemma Atoi_digit_first (c : ascii) (s : string) (v : Z) :
  digit_of c = Some v ->
  Atoi (String c s)
  = match decimal (String c s) with
    | Some v => if (minInt64 <=? v) && (v <=? maxInt64) then Some v else None
    | None => None
    end.
Proof.
  intros H. unfold Atoi.
  destruct c as [[] [] [] [] [] [] [] []]; try reflexivity;
    vm_compute in H; discriminate.
Qed.

Lemma Atoi_four_digits (d1 d2 d3 d4 : ascii) (v1 v2 v3 v4 : Z) :
  digit_of d1 = Some v1 -> digit_of d2 = Some v2 ->
  digit_of d3 = Some v3 -> digit_of d4 = Some v4 ->
  Atoi (String d1 (String d2 (String d3 (String d4 EmptyString))))
  = Some (1000 * v1 + 100 * v2 + 10 * v3 + v4).
Proof.
  intros H1 H2 H3 H4. rewrite (Atoi_digit_first d1 _ v1 H1).
  unfold decimal. cbn [digits_value]. rewrite H1, H2, H3, H4.
  apply digit_of_bounds in H1, H2, H3, H4.
  replace (10 * (10 * (10 * (10 * 0 + v1) + v2) + v3) + v4)
    with (1000 * v1 + 100 * v2 + 10 * v3 + v4) by lia.
  destruct (Z.leb_spec minInt64 (1000 * v1 + 100 * v2 + 10 * v3 + v4));
    [|unfold minInt64 in *; lia].
  destruct (Z.leb_spec (1000 * v1 + 100 * v2 + 10 * v3 + v4) maxInt64);
    [|unfold maxInt64 in *; lia].
  reflexivity.
Qed.

Lemma RemoveAll_digit (c : ascii) (v : Z) (s : string) :
  digit_of c = Some v -> RemoveAll "." (String c s) = String c (RemoveAll "." s).
Proof. intros H. cbn [RemoveAll]. now rewrite (digit_not_dot c v H). Qed.

(** X6.  The duration is read from the first four digits after
    [#EXTINF:], the decimal point left out.  A line [#EXTINF:a.bcd...]
    gives [abcd] milliseconds, the duration cut to the millisecond; a
    line [#EXTINF:ab.cd...] gives [abcd] milliseconds as well, a tenth of
    the duration it states. *)
Theorem getKeyframeDuration_four_digits (fs : gmap string string)
  (hlsPath m3u8 line rest : string) (d1 d2 d3 d4 : ascii) (v1 v2 v3 v4 : Z) :
  fs !! hlsPath = Some m3u8 ->
  (2 <= length (Split newline (TrimSpace m3u8)))%nat ->
  Split newline (TrimSpace m3u8)
    !! (length (Split newline (TrimSpace m3u8)) - 2)%nat = Some line ->
  digit_of d1 = Some v1 -> digit_of d2 = Some v2 ->
  digit_of d3 = Some v3 -> digit_of d4 = Some v4 ->
  line = "#EXTINF:" ++ String d1 ("." ++ String d2 (String d3 (String d4 rest)))
  \/ line = "#EXTINF:" ++ String d1 (String d2 ("." ++ String d3 (String d4 rest))) ->
  getKeyframeDuration fs hlsPath
  = Ok ((1000 * v1 + 100 * v2 + 10 * v3 + v4) * Millisecond).
Proof.
  intros Hfs Hlen Hline H1 H2 H3 H4 Hshape.
  unfold getKeyframeDuration, ReadFile. rewrite Hfs.
  rewrite (keyframeDurationOf_line m3u8 line Hlen Hline).
  assert (RemoveAll "." line
          = "#EXTINF:" ++ String d1 (String d2 (String d3 (String d4
                                                   (RemoveAll "." rest)))))
    as ->.
  { pose proof (digit_not_dot d1 v1 H1) as N1.
    pose proof (digit_not_dot d2 v2 H2) as N2.
    pose proof (digit_not_dot d3 v3 H3) as N3.
    pose proof (digit_not_dot d4 v4 H4) as N4.
    destruct Hshape as [-> | ->]; simpl; rewrite N1, N2, N3, N4; reflexivity. }
  cbv zeta.
  set (kept := RemoveAll "." rest).
  assert ((String.length
             ("#EXTINF:" ++ String d1 (String d2 (String d3 (String d4 kept))))
           <? 12)%nat = false) as -> by reflexivity.
  assert (slice ("#EXTINF:" ++ String d1 (String d2 (String d3 (String d4 kept))))
                8 12
          = Some (String d1 (String d2 (String d3 (String d4 EmptyString)))))
    as -> by (now destruct kept).
  rewrite (Atoi_four_digits d1 d2 d3 d4 v1 v2 v3 v4 H1 H2 H3 H4).
  apply digit_of_bounds in H1, H2, H3, H4.
  f_equal. unfold wrap64, Millisecond. rewrite Z.mod_small by lia. lia.
Qed.


Lemma getKeyframeDuration_four_digits_witness :
  getKeyframeDuration (exampleFS (examplePlaylist "#EXTINF:4.250000,"))
    "/hls/x/index.m3u8"
  = Ok ((1000 * 4 + 100 * 2 + 10 * 5 + 0) * Millisecond)
  /\ getKeyframeDuration (exampleFS (examplePlaylist "#EXTINF:12.345678,"))
       "/hls/x/index.m3u8"
     = Ok ((1000 * 1 + 100 * 2 + 10 * 3 + 4) * Millisecond).
Proof.
  split.
  - apply (getKeyframeDuration_four_digits
             (exampleFS (examplePlaylist "#EXTINF:4.250000,"))
             "/hls/x/index.m3u8" (examplePlaylist "#EXTINF:4.250000,")
             "#EXTINF:4.250000," "000," "4" "2" "5" "0" 4 2 5 0);
      try reflexivity; [vm_compute; lia | left; reflexivity].
  - apply (getKeyframeDuration_four_digits
             (exampleFS (examplePlaylist "#EXTINF:12.345678,"))
             "/hls/x/index.m3u8" (examplePlaylist "#EXTINF:12.345678,")
             "#EXTINF:12.345678," "5678," "1" "2" "3" "4" 1 2 3 4);
      try reflexivity; [vm_compute; lia | right; reflexivity].
Defined.

End PlaylistFacts.

(** ** Argument lists *)

Module ArgsFacts.
Import GoStrings Ffmpeg Doods FfmpegFacts StringFacts.

(** X7.  [ParseArgs] cuts the trimmed string at every single space: there
    is one argument more than there are spaces, never none; no argument
    holds a space; and the arguments joined by single spaces are the
    trimmed string again, so two spaces in a row give an empty argument. *)
Theorem ParseArgs_join (args : string) :
  length (ParseArgs args) = S (count_byte " " (TrimSpace args))
  /\ Forall (fun a => count_byte " " a = 0%nat) (ParseArgs args)
  /\ String.concat " " (ParseArgs args) = TrimSpace args.
Proof.
  unfold ParseArgs. split; [apply Split_length|].
  split; [apply Split_fields|apply Split_concat].
Qed.

End ArgsFacts.

(** ** The size of a stream *)

Module SizeFacts.
Import GoStrings Ffmpeg IEEE Doods FfmpegFacts StringFacts.

Definition allDigits (s : string) : Prop :=
  s <> EmptyString
  /\ Forall (fun c => isDigit c = true) (list_ascii_of_string s).

Lemma matchDigits_spec (k : option ascii -> string -> option nat)
  (s : string) (n : nat) :
  matchDigits k s = Some n ->
  exists w rest prev m,
    s = w ++ rest /\ allDigits w /\ k prev rest = Some m
    /\ n = (String.length w + m)%nat.
Proof.
  revert n. induction s as [|b s IH]; intros n H; [discriminate|].
  cbn [matchDigits] in H.
  destruct (isDigit b) eqn:Hb; [|discriminate].
  destruct (matchDigits k s) as [n'|] eqn:Hm.
  - injection H as <-.
    destruct (IH n' eq_refl) as (w & rest & prev & m & -> & [Hne Hall] & Hk & ->).
    exists (String b w), rest, prev, m.
    split; [reflexivity|]. split; [|split; [exact Hk|reflexivity]].
    split; [discriminate|]. cbn [list_ascii_of_string]. now constructor.
  - destruct (k (Some b) s) as [m|] eqn:Hk; [|discriminate].
    injection H as <-.
    exists (String b EmptyString), s, (Some b), m.
    split; [reflexivity|]. split; [|split; [exact Hk|reflexivity]].
    split; [discriminate|]. cbn [list_ascii_of_string]. now repeat constructor.
Qed.

Lemma matchHere_sizePattern (prev : option ascii) (s : string) (n : nat) :
  matchHere sizePattern prev s = Some n ->
  exists w h rest,
    s = (w ++ "x" ++ h) ++ rest /\ allDigits w /\ allDigits h
    /\ n = String.length (w ++ "x" ++ h).
Proof.
  unfold sizePattern. cbn [matchHere].
  destruct (atBoundary prev s); [|discriminate].
  intros H.
  apply matchDigits_spec in H
    as (w & rest1 & prev1 & m1 & -> & Hw & Hk1 & ->).
  destruct rest1 as [|b rest1]; [discriminate|].
  destruct (Ascii.eqb_spec b "x") as [->|]; [|discriminate].
  destruct (matchDigits _ rest1) as [m2|] eqn:H2; [|discriminate].
  injection Hk1 as <-.
  apply matchDigits_spec in H2
    as (h & rest2 & prev2 & m3 & -> & Hh & Hk2 & ->).
  destruct (atBoundary prev2 rest2); [|discriminate].
  injection Hk2 as <-.
  exists w, h, rest2.
  split; [|split; [exact Hw|split; [exact Hh|]]].
  - rewrite !append_assoc. reflexivity.
  - rewrite !String_length_app. cbn [String.length]. lia.
Qed.

Lemma findFrom_cons (pat : list atom) (prev : option ascii) (c : ascii)
  (s : string) :
  findFrom pat prev (String c s)
  = match matchHere pat prev (String c s) with
    | Some n => Some (substring 0 n (String c s))
    | None => findFrom pat (Some c) s
    end.
Proof. reflexivity. Qed.

Lemma findFrom_sizePattern (prev : option ascii) (s out : string) :
  findFrom sizePattern prev s = Some out ->
  exists w h pre post,
    out = w ++ "x" ++ h /\ allDigits w /\ allDigits h
    /\ s = pre ++ out ++ post.
Proof.
  revert prev out. induction s as [|c s IH]; intros prev out H.
  - unfold findFrom in H.
    destruct (matchHere sizePattern prev "") as [n|] eqn:Hm; [|discriminate].
    apply matchHere_sizePattern in Hm as (w & h & rest & Heq & [Hne _] & _).
    destruct w; [congruence|discriminate Heq].
  - rewrite findFrom_cons in H.
    destruct (matchHere sizePattern prev (String c s)) as [n|] eqn:Hm.
    + apply matchHere_sizePattern in Hm as (w & h & rest & Heq & Hw & Hh & ->).
      rewrite Heq, substring_0_app in H.
      assert (w ++ "x" ++ h = out) as <- by congruence.
      exists w, h, EmptyString, rest. rewrite Heq.
      split; [reflexivity|]. split; [exact Hw|]. split; [exact Hh|reflexivity].
    + destruct (IH _ _ H) as (w & h & pre & post & -> & Hw & Hh & ->).
      exists w, h, (String c pre), post.
      split; [reflexivity|]. split; [exact Hw|]. split; [exact Hh|reflexivity].
Qed.

Lemma isDigit_not_x (c : ascii) : isDigit c = true -> Ascii.eqb c "x" = false.
Proof.
  intros H. destruct (Ascii.eqb_spec c "x") as [->|]; [|reflexivity].
  vm_compute in H. discriminate.
Qed.

Lemma allDigits_no_x (s : string) : allDigits s -> count_byte "x" s = 0%nat.
Proof.
  intros [_ Hall]. induction s as [|c s IH]; [reflexivity|].
  cbn [list_ascii_of_string] in Hall. apply Forall_cons in Hall as [Hc Hs].
  cbn [count_byte]. now rewrite (isDigit_not_x c Hc), (IH Hs).
Qed.

(** X8.  A size that [SizeFromStream] returns occurs in what ffmpeg wrote
    to its standard error and reads [W] [x] [H] with two non-empty runs of
    decimal digits; [generateFFmpegArgs] splits it into exactly these two
    fields, so it does not panic on it. *)
Theorem SizeFromStream_shape (run : list string -> string * option goError)
  (url size : string) :
  SizeFromStream run url = Ok size ->
  exists w h pre post,
    size = w ++ "x" ++ h /\ allDigits w /\ allDigits h
    /\ (run ["-i"; url; "-f"; "ffmetadata"; "-"]).1 = pre ++ size ++ post
    /\ Split "x" size = [w; h]
    /\ forall ParseFloat a config,
         generateFFmpegArgs ParseFloat a config size <> Panic.
Proof.
  unfold SizeFromStream.
  destruct (run _) as [stderr [e|]]; [discriminate|].
  unfold FindString.
  destruct (findFrom sizePattern None stderr) as [out|] eqn:Hf;
    [|intros H; discriminate H].
  change (default "" (Some out)) with out.
  destruct (String.eqb out ""); [intros H; discriminate H|].
  intros [= <-].
  destruct (findFrom_sizePattern None stderr out Hf)
    as (w & h & pre & post & -> & Hw & Hh & ->).
  assert (Split "x" (w ++ "x" ++ h) = [w; h]) as Hsplit.
  { change (w ++ "x" ++ h) with (w ++ String "x" h).
    rewrite (Split_at "x" w h (allDigits_no_x w Hw)).
    now rewrite (Split_none "x" h (allDigits_no_x h Hh)). }
  exists w, h, pre, post.
  split; [reflexivity|]. split; [exact Hw|]. split; [exact Hh|].
  split; [reflexivity|]. split; [exact Hsplit|].
  intros ParseFloat a config. unfold generateFFmpegArgs.
  rewrite Hsplit. cbn [lookup list_lookup].
  destruct (ParseFloat w 32); [|discriminate].
  destruct (ParseFloat h 32); [|discriminate].
  destruct (_ <? _); [discriminate|]. destruct (_ <? _); [discriminate|].
  destruct (letterbox _ _ _ _) as [[[? ?] ?] ?]. discriminate.
Qed.

(** The line of the comment in [SizeFromStream]. *)
Definition probe (args : list string) : string * option goError :=
  ("Stream #0:0: Video: h264 (Main), yuv420p(progressive), 720x1280 fps, 30.00",
   None).

Lemma SizeFromStream_shape_witness :
  SizeFromStream probe "rtsp://camera/stream" = Ok "720x1280"
  /\ exists w h pre post,
       "720x1280" = w ++ "x" ++ h /\ allDigits w /\ allDigits h
       /\ (probe ["-i"; "rtsp://camera/stream"; "-f"; "ffmetadata"; "-"]).1
          = pre ++ "720x1280" ++ post
       /\ Split "x" "720x1280" = [w; h]
       /\ forall ParseFloat a config,
            generateFFmpegArgs ParseFloat a config "720x1280" <> Panic.
Proof.
  split; [reflexivity|].
  apply (SizeFromStream_shape probe "rtsp://camera/stream" "720x1280").
  reflexivity.
Defined.

End SizeFacts.

(** ** Signals *)

Module SignalFacts.
Import GoStrings Ffmpeg ProcessFacts.

Lemma earliest_ge (a b : option Time) (lo e : Time) :
  earliest a b = Some e ->
  (forall x, a = Some x -> lo <= x) -> (forall y, b = Some y -> lo <= y) ->
  lo <= e.
Proof.
  intros H Ha Hb. destruct a as [x|], b as [y|]; cbn in H;
    try discriminate; injection H as <-.
  - specialize (Ha x eq_refl). specialize (Hb y eq_refl). lia.
  - now apply Ha.
  - now apply Hb.
Qed.

(** X9.  The supervisor signals a child only between the moment its context
    is done and the moment the child is seen to have exited: the trace of
    [Start] ends with its one exit, every signal before it is stamped at or
    after both the start and the end of the context and at or before the
    exit, and under a context that is never done the trace is the exit
    alone. *)
Theorem Start_signals_window (p : process) (ch : child)
  (ctxDoneAt : option Time) (t0 : Time) (tieWatch tieStop : bool)
  (trace : list event) (r : option goError) :
  startErr ch = None ->
  Start p ch ctxDoneAt t0 tieWatch tieStop = Some (trace, r) ->
  exists signals e,
    trace = (signals ++ [Exited e])%list
    /\ (forall ev, In ev signals ->
          exists t sig c,
            ev = Signalled t sig /\ ctxDoneAt = Some c
            /\ t0 <= t /\ c <= t /\ t <= e)
    /\ (ctxDoneAt = None -> signals = []).
Proof.
  intros Hs HS. unfold Start in HS. rewrite Hs in HS.
  destruct (stopCalledAt ch ctxDoneAt t0 tieWatch) as [now|] eqn:Hc.
  - unfold stopCalledAt in Hc.
    destruct ctxDoneAt as [c|]; [|discriminate].
    assert (now = Z.max t0 c
            /\ forall x, exitsAt ch = Some x -> now <= x) as [Hnow Hexit].
    { destruct (exitsAt ch) as [x|].
      - destruct ((Z.max t0 c <? x) || ((Z.max t0 c =? x) && tieWatch)) eqn:Hb;
          [|discriminate].
        injection Hc as <-. split; [reflexivity|]. intros y [= <-].
        apply orb_true_iff in Hb as [Hb|Hb]; [apply Z.ltb_lt in Hb; lia|].
        apply andb_true_iff in Hb as [Hb _]. apply Z.eqb_eq in Hb. lia.
      - injection Hc as <-. split; [reflexivity|]. discriminate. }
    destruct (stop p ch now tieStop) as [signals e] eqn:Hstop.
    injection HS as <- _. exists signals, e. split; [reflexivity|].
    split; [|discriminate].
    unfold stop in Hstop.
    set (done := earliest (exitsAt ch)
                   (option_map (fun d => now + Z.max 0 d) (afterInterrupt ch)))
      in Hstop.
    assert (forall d, done = Some d -> now <= d) as Hdone.
    { intros d Hd. apply (earliest_ge _ _ now d Hd Hexit).
      intros y Hy. destruct (afterInterrupt ch); [|discriminate].
      injection Hy as <-. lia. }
    destruct done as [d|].
    + specialize (Hdone d eq_refl).
      destruct ((d <? now + Z.max 0 (timeout p))
                || ((d =? now + Z.max 0 (timeout p)) && tieStop)) eqn:Hb.
      * injection Hstop as <- <-. intros ev [<-|[]].
        exists now, Interrupt, c. repeat split; try reflexivity; lia.
      * injection Hstop as <- <-.
        apply orb_false_iff in Hb as [Hb _]. apply Z.ltb_ge in Hb.
        intros ev [<-|[<-|[]]].
        -- exists now, Interrupt, c. repeat split; try reflexivity; lia.
        -- exists (now + Z.max 0 (timeout p)), Kill, c.
           repeat split; try reflexivity; lia.
    + injection Hstop as <- <-. intros ev [<-|[<-|[]]].
      * exists now, Interrupt, c. repeat split; try reflexivity; lia.
      * exists (now + Z.max 0 (timeout p)), Kill, c.
        repeat split; try reflexivity; lia.
  - destruct (exitsAt ch) as [e|]; [|discriminate].
    injection HS as <- _. exists [], e. split; [reflexivity|].
    split; [intros ev []|reflexivity].
Qed.

Lemma Start_signals_window_witness :
  exists signals e,
    [Signalled 5000000000 Interrupt; Signalled 5050000000 Kill;
     Exited 5051000000]
    = (signals ++ [Exited e])%list
    /\ (forall ev, In ev signals ->
          exists t sig c,
            ev = Signalled t sig /\ Some 5000000000 = Some c
            /\ 0 <= t /\ c <= t /\ t <= e)
    /\ (Some 5000000000 = None -> signals = []).
Proof.
  apply (Start_signals_window (SetTimeout NewProcess (50 * Millisecond))
           stubborn (Some 5000000000) 0 false false _
           (Some (SignalError "killed"))); reflexivity.
Defined.

End SignalFacts.

(** ** The bridge and its two ffmpeg processes *)

Module WiringFacts.
Import GoStrings IEEE Doods FfmpegFacts BridgeFacts StringFacts.

(** X10.  [generateFFmpegArgs] panics exactly on a size without an [x]
    whose text nevertheless parses as a number: the width is parsed before
    the missing second field is indexed.  A size without an [x] never
    yields arguments. *)
Theorem generateFFmpegArgs_panics_iff
  (ParseFloat : string -> Z -> option float) (a : addon)
  (config : gmap string string) (size : string) :
  (generateFFmpegArgs ParseFloat a config size = Panic
   <-> count_byte "x" size = 0%nat /\ is_Some (ParseFloat size 32))
  /\ (count_byte "x" size = 0%nat ->
      ParseFloat size 32 = None ->
      generateFFmpegArgs ParseFloat a config size = Err ErrInputWidth).
Proof.
  unfold generateFFmpegArgs.
  pose proof (Split_length "x" size) as Hlen.
  destruct (count_byte "x" size) as [|n] eqn:Hx.
  - rewrite (Split_none "x" size Hx). cbn [lookup list_lookup].
    destruct (ParseFloat size 32) as [w|]; split.
    + split; [intros _; eauto|reflexivity].
    + discriminate.
    + split; [discriminate|]. intros [_ [? ?]]. discriminate.
    + reflexivity.
  - destruct (Split "x" size) as [|split0 [|split1 rest]]; try discriminate.
    cbn [lookup list_lookup]. split; [|discriminate]. split.
    + destruct (ParseFloat split0 32); [|discriminate].
      destruct (ParseFloat split1 32); [|discriminate].
      destruct (_ <? _); [discriminate|].
      destruct (_ <? _); [discriminate|].
      destruct (letterbox _ _ _ _) as [[[? ?] ?] ?]. discriminate.
    + intros [? _]. discriminate.
Qed.


(** *** The argument list *)

(** The filter argument for a frame scaled to [frameWidth] by
    [frameHeight]. *)
Definition filterArg (a : addon) (config : gmap string string)
  (frameWidth frameHeight : string) : string :=
  "fps=fps=" ++ cfg config "doodsFeedRate" ++ ",scale=" ++ frameWidth ++ ":"
    ++ frameHeight ++ ",pad=" ++ Itoa (outputWidth a) ++ ":"
    ++ Itoa (outputHeight a) ++ ":0:0".

Definition hwaccelArgs (config : gmap string string) : list string :=
  if String.eqb (cfg config "hwaccel") "" then []
  else ParseArgs ("-hwaccel " ++ cfg config "hwaccel").

Lemma generateFFmpegArgs_args (ParseFloat : string -> Z -> option float)
  (a : addon) (config : gmap string string) (size : string)
  (args : list string) (xM yM : float) :
  generateFFmpegArgs ParseFloat a config size = Ok (args, xM, yM) ->
  exists w h,
    args = (["-y"; "-loglevel"; cfg config "logLevel"]
              ++ hwaccelArgs config
              ++ ["-i"; mainPipe a; "-filter";
                  filterArg a config
                    (letterbox (outputWidth a) (outputHeight a) w h).1.1.1
                    (letterbox (outputWidth a) (outputHeight a) w h).1.1.2;
                  "-f"; "rawvideo"; "-pix_fmt"; "rgb24"; "-"])%list
    /\ (exists split0, Split "x" size !! 0%nat = Some split0
                       /\ ParseFloat split0 32 = Some w)
    /\ (exists split1, Split "x" size !! 1%nat = Some split1
                       /\ ParseFloat split1 32 = Some h)
    /\ outputWidth a <= to_int w /\ outputHeight a <= to_int h.
Proof.
  unfold generateFFmpegArgs.
  destruct (Split "x" size !! 0%nat) as [split0|] eqn:H0; [|discriminate].
  destruct (ParseFloat split0 32) as [w|] eqn:Hw; [|discriminate].
  destruct (Split "x" size !! 1%nat) as [split1|] eqn:H1; [|discriminate].
  destruct (ParseFloat split1 32) as [h|] eqn:Hh; [|discriminate].
  destruct (Z.ltb_spec (to_int w) (outputWidth a)); [discriminate|].
  destruct (Z.ltb_spec (to_int h) (outputHeight a)); [discriminate|].
  destruct (letterbox (outputWidth a) (outputHeight a) w h)
    as [[[frameWidth frameHeight] xMultiplier] yMultiplier] eqn:Hbox.
  intros [= <- _ _].
  exists w, h. rewrite Hbox. cbn [fst snd].
  split; [|eauto 10].
  unfold hwaccelArgs, filterArg.
  destruct (String.eqb (cfg config "hwaccel") ""); cbn [app];
    rewrite <- ?app_assoc; reflexivity.
Qed.

Definition graphic (c : ascii) : bool :=
  ((33 <=? byte_of c) && (byte_of c <=? 126))%N.

Lemma strip_space_graphic (c : ascii) (s : string) :
  graphic c = true ->
  strip_space unicodeSpaces (String c s) = None
  /\ strip_space (map rev_string unicodeSpaces) (String c s) = None.
Proof.
  intros H.
  destruct c as [[] [] [] [] [] [] [] []];
    try (vm_compute in H; discriminate H); split; reflexivity.
Qed.

(** A string that starts and ends with a printable, non-blank ASCII byte
    is left alone by [TrimSpace]. *)
Lemma TrimSpace_graphic_ends (c1 c2 : ascii) (s1 s0 : string) :
  graphic c1 = true -> graphic c2 = true ->
  String c1 s1 = s0 ++ String c2 EmptyString ->
  TrimSpace (String c1 s1) = String c1 s1.
Proof.
  intros H1 H2 Heq. unfold TrimSpace.
  assert (TrimLeft (String c1 s1) = String c1 s1) as ->.
  { unfold TrimLeft. cbn [String.length trim_left_fuel].
    now rewrite (proj1 (strip_space_graphic c1 s1 H1)). }
  unfold TrimRight. rewrite Heq, rev_string_snoc, String_length_app.
  cbn [String.length]. rewrite Nat.add_1_r. cbn [trim_left_fuel].
  rewrite (proj2 (strip_space_graphic c2 _ H2)).
  now rewrite <- rev_string_snoc, rev_string_involutive.
Qed.

(** A word: not empty, and printable non-blank ASCII throughout. *)
Definition word (s : string) : Prop :=
  s <> EmptyString /\ Forall (fun c => graphic c = true) (list_ascii_of_string s).

Lemma word_last (s : string) :
  word s -> exists s0 c, s = s0 ++ String c EmptyString /\ graphic c = true.
Proof.
  intros [Hne Hall]. induction s as [|x s IH]; [congruence|].
  cbn [list_ascii_of_string] in Hall. apply Forall_cons in Hall as [Hx Hs].
  destruct s as [|y s'].
  - exists EmptyString, x. split; [reflexivity|exact Hx].
  - destruct (IH ltac:(discriminate) Hs) as (s0 & c & Heq & Hc).
    exists (String x s0), c. split; [|exact Hc].
    change (String x (String y s') = String x (s0 ++ String c "")).
    now rewrite Heq.
Qed.

Lemma word_no_space (s : string) : word s -> count_byte " " s = 0%nat.
Proof.
  intros [_ Hall]. induction s as [|x s IH]; [reflexivity|].
  cbn [list_ascii_of_string] in Hall. apply Forall_cons in Hall as [Hx Hs].
  cbn [count_byte]. rewrite (IH Hs).
  destruct (Ascii.eqb_spec x " ") as [->|]; [discriminate Hx|reflexivity].
Qed.

Lemma ParseArgs_hwaccel (hw : string) :
  word hw -> ParseArgs ("-hwaccel " ++ hw) = ["-hwaccel"; hw].
Proof.
  intros Hw. destruct (word_last hw Hw) as (s0 & c & Heq & Hc).
  unfold ParseArgs.
  change ("-hwaccel " ++ hw) with (String "-" ("hwaccel " ++ hw)).
  rewrite (TrimSpace_graphic_ends "-" c ("hwaccel " ++ hw) ("-hwaccel " ++ s0)).
  - change (String "-" ("hwaccel " ++ hw)) with ("-hwaccel" ++ String " " hw).
    pose proof (Split_none " " hw (word_no_space hw Hw)) as Hs.
    cbv [String.append]. cbn [Split Ascii.eqb Bool.eqb]. fold String.append.
    cbn. rewrite Hs. reflexivity.
  - reflexivity.
  - exact Hc.
  - rewrite Heq. now rewrite <- append_assoc.
Qed.


(** X11.  The arguments of the detector's ffmpeg.  Without a [hwaccel]
    setting they are the twelve fixed ones around the log level, the main
    pipe as input and the filter.  With a [hwaccel] setting of one word
    the two arguments [-hwaccel] and the word come right before the
    input. *)
Theorem generateFFmpegArgs_hwaccel
  (ParseFloat : string -> Z -> option float) (a : addon)
  (config : gmap string string) (size : string)
  (args : list string) (xM yM : float) :
  generateFFmpegArgs ParseFloat a config size = Ok (args, xM, yM) ->
  exists filter,
    (cfg config "hwaccel" = "" ->
     args = ["-y"; "-loglevel"; cfg config "logLevel";
             "-i"; mainPipe a; "-filter"; filter;
             "-f"; "rawvideo"; "-pix_fmt"; "rgb24"; "-"])
    /\ (word (cfg config "hwaccel") ->
        args = ["-y"; "-loglevel"; cfg config "logLevel";
                "-hwaccel"; cfg config "hwaccel";
                "-i"; mainPipe a; "-filter"; filter;
                "-f"; "rawvideo"; "-pix_fmt"; "rgb24"; "-"]).
Proof.
  intros Hok.
  destruct (generateFFmpegArgs_args _ _ _ _ _ _ _ Hok) as (w & h & -> & _).
  eexists. unfold hwaccelArgs. split.
  - intros ->. reflexivity.
  - intros Hw. rewrite (ParseArgs_hwaccel _ Hw).
    destruct (String.eqb_spec (cfg config "hwaccel") "") as [He|_];
      [|reflexivity].
    destruct Hw as [Hne _]. contradiction.
Qed.

Definition vaapiConfig : gmap string string :=
  <["hwaccel" := "vaapi"]>
    (<["doodsFeedRate" := "3"]> (<["logLevel" := "error"]> ∅)).

Lemma generateFFmpegArgs_hwaccel_witness :
  exists filter,
    (cfg vaapiConfig "hwaccel" = "" ->
     fst (fst (match generateFFmpegArgs decimalParseFloat exampleAddon
                       vaapiConfig "640x480" with
               | Ok r => r | _ => ([], zero, zero) end))
     = ["-y"; "-loglevel"; cfg vaapiConfig "logLevel";
        "-i"; mainPipe exampleAddon; "-filter"; filter;
        "-f"; "rawvideo"; "-pix_fmt"; "rgb24"; "-"])
    /\ (word (cfg vaapiConfig "hwaccel") ->
        fst (fst (match generateFFmpegArgs decimalParseFloat exampleAddon
                          vaapiConfig "640x480" with
                  | Ok r => r | _ => ([], zero, zero) end))
        = ["-y"; "-loglevel"; cfg vaapiConfig "logLevel";
           "-hwaccel"; cfg vaapiConfig "hwaccel";
           "-i"; mainPipe exampleAddon; "-filter"; filter;
           "-f"; "rawvideo"; "-pix_fmt"; "rgb24"; "-"]).
Proof.
  apply (generateFFmpegArgs_hwaccel decimalParseFloat exampleAddon vaapiConfig
           "640x480" _ one32 (S754_finite false 11184811 (-23))).
  vm_compute. reflexivity.
Defined.

(** *** The fifo between the two ffmpeg processes *)

Section Wiring.
Variable jsonUnmarshal : string -> option (gmap string float).
Variable FeedRateToDuration : string -> option Duration.
Variable ParseFloat : string -> Z -> option float.
Variable detectorByName : string -> option Detector.
Variable doodsIP : string.
Variable prepareEnvironment : addon -> bool.

Local Abbreviation start :=
  (start jsonUnmarshal FeedRateToDuration ParseFloat detectorByName doodsIP
         prepareEnvironment).
Local Abbreviation main :=
  (main jsonUnmarshal FeedRateToDuration ParseFloat detectorByName doodsIP
        prepareEnvironment).
Local Abbreviation sub :=
  (sub jsonUnmarshal FeedRateToDuration ParseFloat detectorByName doodsIP
       prepareEnvironment).

Lemma genArgs_mainPipe (m : Monitor) (c : doodsConfig) (detector : Detector)
  (x y : float) :
  genArgs m
  = " -c:v copy -map 0:v -f fifo -fifo_format mpegts -drop_pkts_on_overflow 1 -attempt_recovery 1 -restart_with_keyframe 1 -recovery_wait_time 1 "
      ++ mainPipe (withMultipliers (newAddon m c detector) x y).
Proof.
  unfold genArgs, mainPipe, fifoDir, withMultipliers, newAddon.
  cbn [SHMDir id]. cbv zeta.
  rewrite !append_assoc. reflexivity.
Qed.

Lemma start_ok (m : Monitor) (a : addon) (ffmpegArgs : list string) :
  start m = Ok (a, ffmpegArgs) ->
  exists detector config a0,
    detectorByName (cfg (Config m) "doodsDetectorName") = Some detector
    /\ parseConfig jsonUnmarshal FeedRateToDuration ParseFloat (Config m) doodsIP
       = Ok config
    /\ a0 = newAddon m config detector
    /\ prepareEnvironment a0 = true
    /\ generateFFmpegArgs ParseFloat a0 (Config m)
         (cfg (Config m) (if SubInputEnabled m then "sizeSub" else "sizeMain"))
       = Ok (ffmpegArgs, xMultiplier a, yMultiplier a)
    /\ a = withMultipliers a0 (xMultiplier a) (yMultiplier a).
Proof.
  unfold Doods.start.
  destruct (detectorByName _) as [detector|]; [|discriminate].
  destruct (parseConfig _ _ _ _ _) as [config| |]; try discriminate.
  destruct (prepareEnvironment _) eqn:Hprep; [|discriminate].
  cbn [negb].
  destruct (generateFFmpegArgs _ _ _ _) as [[[args x] y]| |] eqn:Hgen;
    try discriminate.
  intros [= <- <-]. exists detector, config, (newAddon m config detector).
  repeat split; try assumption.
  destruct (SubInputEnabled m); exact Hgen.
Qed.

(** X12.  The recording ffmpeg and the detector's ffmpeg meet at one fifo.
    A monitor without [doodsEnable] set to [true] is left alone by both
    hooks.  With it, exactly one hook acts, [main] without a sub input and
    [sub] with one: it appends the fifo output to the recorder's arguments
    and calls [start], with the size of that input.  When [start]
    succeeds, the path that ends the appended arguments is the main pipe
    of the addon, and the detector's ffmpeg reads it: it follows [-i] in
    its arguments. *)
Theorem fifo_wiring (m : Monitor) (args : string) :
  (cfg (Config m) "doodsEnable" <> "true" ->
   main m args = (args, None) /\ sub m args = (args, None))
  /\ (cfg (Config m) "doodsEnable" = "true" ->
      if SubInputEnabled m
      then main m args = (args, None)
           /\ sub m args = (args ++ genArgs m, Some (start m))
      else main m args = (args ++ genArgs m, Some (start m))
           /\ sub m args = (args, None))
  /\ (forall a ffmpegArgs,
         start m = Ok (a, ffmpegArgs) ->
         genArgs m
         = " -c:v copy -map 0:v -f fifo -fifo_format mpegts -drop_pkts_on_overflow 1 -attempt_recovery 1 -restart_with_keyframe 1 -recovery_wait_time 1 "
             ++ mainPipe a
         /\ (exists pre post,
                ffmpegArgs = (pre ++ ["-i"; mainPipe a] ++ post)%list)
         /\ exists xM yM,
              generateFFmpegArgs ParseFloat a (Config m)
                (cfg (Config m)
                     (if SubInputEnabled m then "sizeSub" else "sizeMain"))
              = Ok (ffmpegArgs, xM, yM)).
Proof.
  split; [|split].
  - intros Hne. unfold Doods.main, Doods.sub.
    destruct (String.eqb_spec (cfg (Config m) "doodsEnable") "true");
      [contradiction|]. split; reflexivity.
  - intros He. unfold Doods.main, Doods.sub. rewrite He.
    destruct (SubInputEnabled m); split; reflexivity.
  - intros a ffmpegArgs Hok.
    destruct (start_ok m a ffmpegArgs Hok)
      as (detector & config & a0 & _ & _ & Ha0 & _ & Hgen & Ha).
    split; [rewrite Ha, Ha0; apply genArgs_mainPipe|].
    assert (mainPipe a = mainPipe a0) as Hpipe by now rewrite Ha.
    split.
    + destruct (generateFFmpegArgs_args _ _ _ _ _ _ _ Hgen)
        as (w & h & -> & _).
      rewrite Hpipe.
      exists (["-y"; "-loglevel"; cfg (Config m) "logLevel"]
                ++ hwaccelArgs (Config m))%list.
      eexists. rewrite <- app_assoc. reflexivity.
    + exists (xMultiplier a), (yMultiplier a).
      rewrite <- Hgen. rewrite Ha. reflexivity.
Qed.

End Wiring.

End WiringFacts.

(** ** Scaling and durations *)

Module ScaleFacts.
Import GoStrings IEEE Doods IEEEFacts BridgeFacts LetterboxFacts WiringFacts.
Import Reals Lra.

Local Open Scope R_scope.

(** The scaled side of the frame, as a real number, lies between 0 and the
    model side. *)
Lemma scaled_side_bounds (n : Z) (short long : float) :
  (0 < n < 2 ^ 24)%Z -> pos32 short -> pos32 long ->
  1 <= B2R short -> B2R short < B2R long ->
  let side := to32 (div64 (mul64 (of_int64 n) (to64 short)) (to64 long)) in
  pos32 side /\ B2R side <= IZR n.
Proof.
  intros Hn Hs Hl Hs1 Hlt side.
  destruct format32 as [Hp32 He32]. destruct format64 as [Hp64 He64].
  destruct (of_int_exact prec64 emax64 n Hp64 He64) as [Hn64 Vn64];
    [unfold prec64; split; [lia|];
     apply Z.lt_trans with (2 ^ 24)%Z; [lia|reflexivity]|].
  destruct (of_int_exact prec32 emax32 n Hp32 He32) as [Hn32 Vn32];
    [unfold prec32; lia|].
  fold (of_int64 n) in Hn64, Vn64. fold (of_int32 n) in Hn32, Vn32.
  destruct (to64_exact short Hs) as [Hs64 Vs64].
  destruct (to64_exact long Hl) as [Hl64 Vl64].
  assert (0 < IZR n) as Hnpos by (apply IZR_lt; lia).
  assert (1 <= IZR n) as Hn1 by (apply IZR_le; lia).
  pose proof (pos_finite_lt_emax prec32 emax32 long Hl) as Hlmax.
  change (bpow emax32) with (bpow 128) in Hlmax.
  assert (bpow (-128) * bpow 128 = 1) as Hinv
      by (rewrite <- bpow_plus; apply bpow_0).
  pose proof (bpow_gt_0 (-128)) as Htiny.
  assert (pos64 (mul64 (of_int64 n) (to64 short))
          /\ B2R (mul64 (of_int64 n) (to64 short)) = IZR n * B2R short)
    as [Hp Vp].
  { destruct Hs as (m & e & -> & C & Hee).
    pose proof (canonical_digits prec32 emax32 (Zpos m) e ltac:(lia) C)
      as [Hd Hemin].
    destruct (representable prec64 emax64 Hp64 He64 (n * Zpos m) e)
      as (z & Hz & Vz).
    - lia.
    - pose proof (Zdigits2_mul_le n (Zpos m) ltac:(lia) ltac:(lia)).
      pose proof (Zdigits2_le n 24 ltac:(lia) ltac:(lia) ltac:(lia)).
      unfold prec32, prec64 in *. lia.
    - unfold SpecFloat.emin, prec32, emax32, prec64, emax64 in *. lia.
    - pose proof (Zdigits2_mul_le n (Zpos m) ltac:(lia) ltac:(lia)).
      pose proof (Zdigits2_le n 24 ltac:(lia) ltac:(lia) ltac:(lia)).
      unfold prec32, emax32, prec64, emax64 in *. lia.
    - apply (rounds_exact prec64 emax64 _ _ z); [|exact Hz|].
      + rewrite <- Vn64, <- Vs64.
        now apply SFmul_rounds.
      + rewrite Vz. cbn [B2R cond_Zopp]. unfold F2R.
        rewrite mult_IZR. ring. }
  assert (0 < B2R long) as Hlpos by lra.
  assert (bpow (-128) <= IZR n * B2R short / B2R long <= IZR n) as [Hq1 Hq2].
  { split.
    - apply Rdiv_ge_iff; [exact Hlpos|]. nra.
    - apply Rdiv_le_iff; [exact Hlpos|]. nra. }
  destruct (tiny_pos prec64 emax64) as (t64 & Ht64 & Vt64);
    [unfold prec64; lia|exact He64|unfold emax64; lia|].
  assert (pos64 (div64 (mul64 (of_int64 n) (to64 short)) (to64 long))
          /\ bpow (-128)
             <= B2R (div64 (mul64 (of_int64 n) (to64 short)) (to64 long))
             <= IZR n) as [Hq [Vq1 Vq2]].
  { rewrite <- Vt64, <- Vn64.
    apply (rounds_between prec64 emax64
             (IZR n * B2R short / B2R long)); try assumption.
    - rewrite <- Vp, <- Vl64. apply SFdiv_rounds; try assumption.
      rewrite Vp, Vl64.
      apply Rle_trans with (bpow (-128)); [|exact Hq1].
      apply bpow_le. unfold SpecFloat.emin, prec64, emax64. lia.
    - now rewrite Vt64.
    - now rewrite Vn64. }
  destruct (tiny_pos prec32 emax32) as (t32 & Ht32 & Vt32);
    [unfold prec32; lia|exact He32|unfold emax32; lia|].
  assert (pos32 side /\ bpow (-128) <= B2R side <= IZR n) as [Hside [Vs1 Vs2]].
  { rewrite <- Vt32, <- Vn32.
    apply (rounds_between prec32 emax32
             (B2R (div64 (mul64 (of_int64 n) (to64 short)) (to64 long))));
      try assumption.
    - subst side. destruct Hq as (m & e & -> & _).
      apply to_format_rounds; assumption.
    - now rewrite Vt32.
    - now rewrite Vn32. }
  split; assumption.
Qed.

(** A positive float that does not exceed [n] converts to an integer
    between 0 and [n]. *)
Lemma to_int_bounded (prec emax : Z) (x : float) (n : Z) :
  pos_finite prec emax x -> B2R x <= IZR n -> (n <= maxInt64)%Z ->
  (0 <= to_int x <= n)%Z.
Proof.
  intros (m & e & -> & _) Hx Hn. cbn [B2R cond_Zopp] in Hx.
  unfold to_int. cbn [trunc cond_Zopp].
  set (z := if (0 <=? e)%Z then (Zpos m * 2 ^ e)%Z else (Zpos m / 2 ^ (- e))%Z).
  assert (0 <= z)%Z as Hz0.
  { subst z. destruct (Z.leb_spec 0 e).
    - pose proof (Z.pow_nonneg 2 e ltac:(lia)). nia.
    - apply Z.div_pos; [lia|]. apply Z.pow_pos_nonneg; lia. }
  assert (z <= n)%Z as Hzn.
  { pose proof (trunc_le_value m e) as Hv. fold z in Hv.
    apply le_IZR. lra. }
  unfold minInt64, maxInt64 in *.
  destruct (Z.leb_spec (- 2 ^ 63) z); [|lia].
  destruct (Z.leb_spec z (2 ^ 63 - 1)); [|lia].
  cbn [andb]. lia.
Qed.

Local Close Scope R_scope.

Lemma letterbox_frame (outW outH : Z) (w h yw yh : float) :
  0 < outW < 2 ^ 24 -> 0 < outH < 2 ^ 24 ->
  valid_binary prec32 emax32 yw = true -> w = to64 yw ->
  valid_binary prec32 emax32 yh = true -> h = to64 yh ->
  outW <= to_int w -> outH <= to_int h ->
  exists frameWidth frameHeight,
    (letterbox outW outH w h).1.1.1 = Itoa frameWidth
    /\ (letterbox outW outH w h).1.1.2 = Itoa frameHeight
    /\ 0 <= frameWidth <= outW /\ 0 <= frameHeight <= outH
    /\ (frameWidth = outW \/ frameHeight = outH).
Proof.
  intros HW HH Hvw Hw Hvh Hh Hgw Hgh.
  destruct (guarded_side yw w outW Hvw Hw ltac:(lia) Hgw)
    as (Pw32 & Pw64 & Vw & Hw1).
  destruct (guarded_side yh h outH Hvh Hh ltac:(lia) Hgh)
    as (Ph32 & Ph64 & Vh & Hh1).
  assert (2 ^ 24 <= maxInt64) as Hmax by (vm_compute; congruence).
  unfold letterbox.
  destruct (ltb h w) eqn:Hhw.
  - cbn [fst snd]. eexists. eexists.
    split; [reflexivity|]. split; [reflexivity|].
    apply ltb_value in Hhw; try assumption.
    destruct (scaled_side_bounds outH yh yw HH Ph32 Pw32 Hh1 ltac:(lra))
      as [Hside Hle].
    rewrite Hh, Hw.
    pose proof (to_int_bounded prec32 emax32 _ outH Hside Hle ltac:(lia)).
    lia.
  - destruct (ltb w h) eqn:Hwh; cbn [fst snd].
    + eexists. eexists.
      split; [reflexivity|]. split; [reflexivity|].
      apply ltb_value in Hwh; try assumption.
      destruct (scaled_side_bounds outW yw yh HW Pw32 Ph32 Hw1 ltac:(lra))
        as [Hside Hle].
      rewrite Hh, Hw.
      pose proof (to_int_bounded prec32 emax32 _ outW Hside Hle ltac:(lia)).
      lia.
    + exists outW, outH. repeat split; try reflexivity; lia.
Qed.

(** X13.  For a detector with model sides between 1 and 2^24, the frame
    that the filter scales to fits the box it is padded to: when
    [generateFFmpegArgs] succeeds, its filter argument reads
    [scale=W:H,pad=OW:oH:0:0] with [0 <= W <= OW] and [0 <= H <= OH], and
    one of the two sides fills the box. *)
Theorem generateFFmpegArgs_frame_fits
  (ParseFloat : string -> Z -> option float) (a : addon)
  (config : gmap string string) (size : string)
  (args : list string) (xM yM : float) :
  parsesFloat32 ParseFloat ->
  0 < outputWidth a < 2 ^ 24 -> 0 < outputHeight a < 2 ^ 24 ->
  generateFFmpegArgs ParseFloat a config size = Ok (args, xM, yM) ->
  exists frameWidth frameHeight,
    In ("fps=fps=" ++ cfg config "doodsFeedRate"
          ++ ",scale=" ++ Itoa frameWidth ++ ":" ++ Itoa frameHeight
          ++ ",pad=" ++ Itoa (outputWidth a) ++ ":" ++ Itoa (outputHeight a)
          ++ ":0:0") args
    /\ 0 <= frameWidth <= outputWidth a
    /\ 0 <= frameHeight <= outputHeight a
    /\ (frameWidth = outputWidth a \/ frameHeight = outputHeight a).
Proof.
  intros HP HW HH Hok.
  destruct (generateFFmpegArgs_args _ _ _ _ _ _ _ Hok)
    as (w & h & -> & (split0 & _ & Hw) & (split1 & _ & Hh) & Hgw & Hgh).
  destruct (HP _ _ Hw) as (yw & Hvw & Hweq).
  destruct (HP _ _ Hh) as (yh & Hvh & Hheq).
  destruct (letterbox_frame _ _ w h yw yh HW HH Hvw Hweq Hvh Hheq Hgw Hgh)
    as (fw & fh & -> & -> & Hfw & Hfh & Hfill).
  exists fw, fh. split; [|auto].
  apply in_or_app. right. apply in_or_app. right.
  unfold filterArg. cbn [In]. auto.
Qed.

Lemma generateFFmpegArgs_frame_fits_witness :
  exists frameWidth frameHeight,
    In ("fps=fps=" ++ cfg vaapiConfig "doodsFeedRate"
          ++ ",scale=" ++ Itoa frameWidth ++ ":" ++ Itoa frameHeight
          ++ ",pad=" ++ Itoa (outputWidth exampleAddon)
          ++ ":" ++ Itoa (outputHeight exampleAddon) ++ ":0:0")
       ["-y"; "-loglevel"; "error"; "-hwaccel"; "vaapi";
        "-i"; "/dev/shm/doods/1/main.fifo"; "-filter";
        "fps=fps=3,scale=300:225,pad=300:300:0:0";
        "-f"; "rawvideo"; "-pix_fmt"; "rgb24"; "-"]
    /\ 0 <= frameWidth <= outputWidth exampleAddon
    /\ 0 <= frameHeight <= outputHeight exampleAddon
    /\ (frameWidth = outputWidth exampleAddon
        \/ frameHeight = outputHeight exampleAddon).
Proof.
  apply (generateFFmpegArgs_frame_fits decimalParseFloat exampleAddon
           vaapiConfig "640x480" _ one32 (S754_finite false 11184811 (-23))).
  - exact decimalParseFloat_float32.
  - cbn. lia.
  - cbn. lia.
  - vm_compute. reflexivity.
Defined.


(** *** The durations of the configuration *)

Local Open Scope R_scope.

(** A positive float whose value is an integer converts to it. *)
Lemma to_int_integer (prec emax : Z) (x : float) (N : Z) :
  pos_finite prec emax x -> B2R x = IZR N -> (N <= maxInt64)%Z ->
  to_int x = N.
Proof.
  intros Hx Hv HN.
  pose proof (pos_finite_pos prec emax x Hx) as Hpos.
  assert (0 < N)%Z as HN0 by (apply lt_IZR; lra).
  destruct Hx as (m & e & -> & _). cbn [B2R cond_Zopp] in Hv.
  unfold to_int. cbn [trunc cond_Zopp].
  assert ((if (0 <=? e)%Z then Zpos m * 2 ^ e else Zpos m / 2 ^ (- e))%Z = N)
    as ->.
  { unfold F2R in Hv. destruct (Z.leb_spec 0 e) as [He|He].
    - apply eq_IZR. rewrite mult_IZR, <- bpow_IZR by lia. exact Hv.
    - assert (Zpos m = N * 2 ^ (- e))%Z as ->.
      { apply eq_IZR. rewrite mult_IZR, <- bpow_IZR by lia.
        rewrite <- Hv, Rmult_assoc, <- bpow_plus.
        replace (e + - e)%Z with 0%Z by lia. rewrite bpow_0. lra. }
      apply Z.div_mul.
      pose proof (Z.pow_pos_nonneg 2 (- e) ltac:(lia) ltac:(lia)). lia. }
  unfold minInt64, maxInt64 in *.
  destruct (Z.leb_spec (- 2 ^ 63) N); [|lia].
  destruct (Z.leb_spec N (2 ^ 63 - 1)); [|lia].
  reflexivity.
Qed.

Lemma whole_seconds (n : Z) :
  (0 <= n <= 9007199)%Z ->
  to_int (mul64 (of_int64 n) (of_int64 Ffmpeg.Second)) = (n * Ffmpeg.Second)%Z.
Proof.
  intros Hn. destruct (Z.eq_dec n 0) as [->|Hne]; [reflexivity|].
  destruct format64 as [Hp64 He64].
  destruct (of_int_exact prec64 emax64 n Hp64 He64) as [Hn64 Vn64].
  { unfold prec64. split; [lia|].
    apply Z.le_lt_trans with 9007199%Z; [lia|reflexivity]. }
  destruct (of_int_exact prec64 emax64 Ffmpeg.Second Hp64 He64) as [Hs64 Vs64].
  { unfold prec64, Ffmpeg.Second. split; [lia|reflexivity]. }
  fold (of_int64 n) in Hn64, Vn64.
  fold (of_int64 Ffmpeg.Second) in Hs64, Vs64.
  assert (0 < n * Ffmpeg.Second < 2 ^ 53)%Z as Hprod.
  { unfold Ffmpeg.Second. split; [lia|].
    apply Z.le_lt_trans with (9007199 * 1000000000)%Z; [lia|reflexivity]. }
  destruct (representable prec64 emax64 Hp64 He64 (n * Ffmpeg.Second) 0)
    as (z & Hz & Vz).
  - lia.
  - apply Zdigits2_le; unfold prec64; lia.
  - unfold SpecFloat.emin, prec64, emax64. lia.
  - pose proof (Zdigits2_le (n * Ffmpeg.Second) 53 ltac:(lia) ltac:(lia)
                  ltac:(lia)).
    unfold emax64. lia.
  - destruct (rounds_exact prec64 emax64 (IZR n * IZR Ffmpeg.Second)
                (mul64 (of_int64 n) (of_int64 Ffmpeg.Second)) z)
      as [Hr Vr].
    + rewrite <- Vn64, <- Vs64. now apply SFmul_rounds.
    + exact Hz.
    + rewrite Vz. unfold F2R. rewrite bpow_0, mult_IZR. lra.
    + apply (to_int_integer prec64 emax64); [exact Hr| |].
      * rewrite Vr, mult_IZR. reflexivity.
      * unfold maxInt64. lia.
Qed.

Local Close Scope R_scope.

(** X14.  The unit conversions of [parseConfig].  A [doodsDuration] that
    parses to a whole number of seconds, up to 9007199, becomes that many
    seconds in nanoseconds, without rounding; a [timestampOffset] of up to
    9223372036854 milliseconds either way becomes that many milliseconds
    in nanoseconds, without wrapping. *)
Theorem parseConfig_durations
  (jsonUnmarshal : string -> option (gmap string float))
  (FeedRateToDuration : string -> option Duration)
  (ParseFloat : string -> Z -> option float)
  (mconfig : gmap string string) (ip : string) (conf : doodsConfig)
  (n ms : Z) :
  parseConfig jsonUnmarshal FeedRateToDuration ParseFloat mconfig ip = Ok conf ->
  ParseFloat (cfg mconfig "doodsDuration") 64 = Some (of_int64 n) ->
  0 <= n <= 9007199 ->
  Atoi (cfg mconfig "timestampOffset") = Some ms ->
  -9223372036854 <= ms <= 9223372036854 ->
  recDuration conf = n * Ffmpeg.Second
  /\ timestampOffset conf = ms * Ffmpeg.Millisecond.
Proof.
  intros Hok Hd Hn Ha Hms. unfold parseConfig in Hok.
  destruct (jsonUnmarshal _) as [t|]; [|discriminate].
  destruct (FeedRateToDuration _) as [d|]; [|discriminate].
  rewrite Hd, Ha in Hok. injection Hok as <-.
  cbn [recDuration timestampOffset]. split.
  - now apply whole_seconds.
  - unfold wrap64, Ffmpeg.Millisecond. rewrite Z.mod_small by lia. lia.
Qed.

Definition durationsConfig : gmap string string :=
  <["doodsThresholds" := "{}"]>
    (<["doodsFeedRate" := "3"]>
       (<["doodsDuration" := "120"]> (<["timestampOffset" := "-500"]> ∅))).

Lemma parseConfig_durations_witness :
  match parseConfig (fun _ => Some ∅) (fun _ => Some 333333333)
                    decimalParseFloat durationsConfig "127.0.0.1:8080" with
  | Ok conf =>
      recDuration conf = 120 * Ffmpeg.Second
      /\ timestampOffset conf = -500 * Ffmpeg.Millisecond
  | _ => False
  end.
Proof.
  pose proof (parseConfig_durations (fun _ => Some ∅) (fun _ => Some 333333333)
                decimalParseFloat durationsConfig "127.0.0.1:8080") as H.
  destruct (parseConfig _ _ _ _ _) as [conf| |] eqn:Hc;
    [|vm_compute in Hc; discriminate Hc|vm_compute in Hc; discriminate Hc].
  apply (H conf 120 (-500) eq_refl); try reflexivity; lia.
Defined.

End ScaleFacts.

(** ** Detections that are not numbers *)

Module DetectionFacts.
Import GoStrings IEEE Doods ThresholdFacts BridgeFacts.

Lemma ltb_nan_l (x : float) : ltb S754_nan x = false.
Proof. reflexivity. Qed.

Lemma ltb_nan_r (x : float) : ltb x S754_nan = false.
Proof. now destruct x. Qed.

(** X15.  A comparison with NaN is false, so [score < thresh] does not drop
    a detection whose confidence is NaN, nor one whose label has NaN for
    its threshold: such a detection is in the event that is posted. *)
Theorem parseDetections_NaN (a : addon) (t : Time)
  (detections : list odrpcDetection) (d : odrpcDetection) (thresh : float) :
  In d detections ->
  thresholds (c a) !! Label d = Some thresh ->
  Confidence d = S754_nan \/ thresh = S754_nan ->
  exists ev,
    parseDetections a t detections = Some ev
    /\ In (toDetection a d) (evDetections ev).
Proof.
  intros Hin Hl Hnan.
  assert (survives (thresholds (c a)) d = true) as Hs.
  { unfold survives. rewrite Hl.
    destruct Hnan as [-> | ->]; [reflexivity|now rewrite ltb_nan_r]. }
  rewrite parseDetections_survivors.
  assert (In d (List.filter (survives (thresholds (c a))) detections)) as Hf
      by now apply filter_In.
  destruct (List.filter _ detections) as [|d0 ds] eqn:Hfl; [destruct Hf|].
  eexists. split; [reflexivity|].
  cbn [evDetections]. now apply in_map.
Qed.

Definition nanBox : odrpcDetection :=
  {| Top := f32 "0.1"; Left := f32 "0.2"; Bottom := f32 "0.5";
     Right := f32 "0.6"; Confidence := S754_nan; Label := "person" |}.

Lemma parseDetections_NaN_witness :
  exists ev,
    parseDetections exampleAddon 0 [nanBox] = Some ev
    /\ In (toDetection exampleAddon nanBox) (evDetections ev).
Proof.
  apply (parseDetections_NaN exampleAddon 0 [nanBox] nanBox (f64 "0.5")).
  - now left.
  - vm_compute. reflexivity.
  - now left.
Defined.

End DetectionFacts.

(** ** The path manager over time *)

Module ManagerFacts.
Import Video PathFacts.

Section Invariant.
Variable PathConf : Type.
Variable confError : Type.
Variable CheckAndFillMissing : PathConf -> string -> confError + PathConf.
Variable context : Type.
Variable path : Type.
Variable newPath : context -> string -> PathConf -> path.
Variable closePath : path -> path.

Local Abbreviation system := (system PathConf path).
Local Abbreviation act := (act PathConf confError CheckAndFillMissing context path newPath closePath).
Local Abbreviation acts := (acts PathConf confError CheckAndFillMissing context path newPath closePath).

(** Both maps hold the names whose removal goroutine is still to run, and
    each of these names once. *)
Definition consistent (s : system) : Prop :=
  NoDup (waiting s)
  /\ forall name,
       (is_Some (pathConfs (sysManager s) !! name) <-> name ∈ waiting s)
       /\ (is_Some (paths (sysManager s) !! name) <-> name ∈ waiting s).

Lemma act_consistent (s : system) (a : action PathConf context) :
  consistent s -> exists s', act s a = Some s' /\ consistent s'.
Proof.
  intros [Hnd Hdom]. destruct a as [ctx name newConf|name]; cbn [Video.act].
  - unfold AddPath.
    destruct (CheckAndFillMissing newConf name) as [err|config];
      [eexists; split; [reflexivity|]; split; assumption|].
    destruct (pathConfs (sysManager s) !! name) as [old|] eqn:Hl;
      [eexists; split; [reflexivity|]; split; assumption|].
    eexists. split; [reflexivity|]. unfold consistent. cbv zeta.
    cbn [sysManager waiting pathConfs paths].
    assert (name ∉ waiting s) as Hnin.
    { intros Hin. destruct (proj2 (proj1 (Hdom name)) Hin) as [x Hx].
      congruence. }
    split; [now constructor|].
    intros n. destruct (decide (n = name)) as [->|Hne].
    + rewrite !lookup_insert_eq. split; split; intros _; eauto; left.
    + rewrite !lookup_insert_ne by congruence.
      destruct (Hdom n) as [H1 H2]. rewrite H1, H2.
      split; split; intros H; try (now right);
        apply elem_of_cons in H as [?|?]; congruence.
  - destruct (bool_decide_reflect (name ∈ waiting s)) as [Hin|Hnin];
      [|eexists; split; [reflexivity|]; split; assumption].
    pose proof (proj2 (proj2 (Hdom name)) Hin) as [p Hp].
    rewrite (removePath_run _ _ closePath _ name p [] Hp).
    eexists. split; [reflexivity|]. unfold consistent.
    cbn [manager sysManager waiting pathConfs paths].
    split; [now apply NoDup_filter|].
    intros n. rewrite list_elem_of_filter.
    destruct (decide (n = name)) as [->|Hne].
    + rewrite !lookup_delete_eq. split; split; intros H;
        try (now destruct H); destruct H as [[] ?]; congruence.
    + rewrite !lookup_delete_ne by congruence.
      destruct (Hdom n) as [H1 H2]. rewrite H1, H2. tauto.
Qed.

Lemma acts_consistent (l : list (action PathConf context)) (s : system) :
  consistent s -> exists s', acts s l = Some s' /\ consistent s'.
Proof.
  revert s. induction l as [|a l IH]; intros s Hs; [now exists s|].
  cbn [Video.acts].
  destruct (act_consistent s a Hs) as (s1 & -> & Hs1). now apply IH.
Qed.

Lemma newSystem_consistent : consistent newSystem.
Proof.
  split; [constructor|]. intros name. cbn.
  rewrite !lookup_empty. split; split; intros H;
    try (now destruct H); now apply elem_of_nil in H.
Qed.

Lemma reachable_consistent (l : list (action PathConf context)) (s : system) :
  acts newSystem l = Some s -> consistent s.
Proof.
  intros Hrun.
  destruct (acts_consistent l newSystem newSystem_consistent)
    as (s0 & Hrun0 & Hs0).
  rewrite Hrun in Hrun0. now injection Hrun0 as <-.
Qed.

(** X16.  Whatever is added and whichever contexts end, in whatever order:
    no removal goroutine finds its path missing, and afterwards the two
    maps of the manager hold the same names, those whose removal is still
    to come, so that [pathExist] is true exactly for them. *)
Theorem manager_consistent (l : list (action PathConf context)) :
  exists s,
    acts newSystem l = Some s
    /\ NoDup (waiting s)
    /\ forall name,
         (pathExist (sysManager s) name = true <-> name ∈ waiting s)
         /\ (is_Some (paths (sysManager s) !! name) <-> name ∈ waiting s).
Proof.
  destruct (acts_consistent l newSystem newSystem_consistent)
    as (s & Hrun & Hnd & Hdom).
  exists s. split; [exact Hrun|]. split; [exact Hnd|].
  intros name. destruct (Hdom name) as [H1 H2]. split; [|exact H2].
  unfold pathExist. rewrite bool_decide_eq_true. exact H1.
Qed.


Lemma filter_fresh (name : string) (l : list string) :
  name ∉ l -> filter (fun n => n <> name) l = l.
Proof.
  induction l as [|x l IH]; intros Hnin; [reflexivity|].
  apply not_elem_of_cons in Hnin as [Hne Hnin].
  rewrite filter_cons_True by congruence. now rewrite (IH Hnin).
Qed.

(** X17.  Adding a path and ending its context is a round trip.  In any
    state the manager can be in, and for a name that is not in use: with a
    configuration that passes its check the path is added, exists, and,
    once its context is done, is removed again, the manager and the
    goroutines that wait being exactly as before; with a configuration
    that fails its check nothing is added, and no goroutine is left to
    wait. *)
Theorem AddPath_round_trip (l : list (action PathConf context)) (s : system)
  (ctx : context) (name : string) (newConf : PathConf) :
  acts newSystem l = Some s ->
  pathExist (sysManager s) name = false ->
  (forall config,
      CheckAndFillMissing newConf name = inr config ->
      exists mid,
        act s (Add ctx name newConf) = Some mid
        /\ pathExist (sysManager mid) name = true
        /\ paths (sysManager mid) !! name = Some (newPath ctx name config)
        /\ act mid (Done name) = Some s)
  /\ (forall err,
        CheckAndFillMissing newConf name = inl err ->
        act s (Add ctx name newConf) = Some s).
Proof.
  intros Hrun Hex. split.
  2:{ intros err Hc. cbn [Video.act].
      rewrite (AddPath_bad_conf _ _ CheckAndFillMissing _ _ newPath _ ctx name
                 _ _ Hc).
      now destruct s. }
  intros config Hc.
  destruct (reachable_consistent l s Hrun) as [Hnd Hdom].
  unfold pathExist in Hex. rewrite bool_decide_eq_false in Hex.
  assert (pathConfs (sysManager s) !! name = None) as Hl
      by (destruct (pathConfs (sysManager s) !! name); [exfalso; eauto|reflexivity]).
  assert (name ∉ waiting s) as Hnin.
  { intros Hin. apply Hex. now apply (Hdom name). }
  assert (paths (sysManager s) !! name = None) as Hp.
  { destruct (paths (sysManager s) !! name) eqn:E; [|reflexivity].
    exfalso. apply Hnin. apply (Hdom name). eauto. }
  cbn [Video.act].
  rewrite (AddPath_fresh _ _ CheckAndFillMissing _ _ newPath _ ctx name _ _ Hc Hl).
  eexists. split; [reflexivity|]. cbn [sysManager waiting pathConfs paths].
  split; [|split].
  - unfold pathExist. cbn [pathConfs]. rewrite bool_decide_eq_true.
    rewrite lookup_insert_eq. eauto.
  - apply lookup_insert_eq.
  - rewrite bool_decide_true by left.
    erewrite removePath_run by (cbn [paths]; apply lookup_insert_eq).
    cbn [manager pathConfs paths].
    rewrite !delete_insert_eq, !delete_id by assumption.
    rewrite filter_cons_False by (intros H; now apply H).
    rewrite (filter_fresh name _ Hnin).
    destruct s as [[pc ps] w]. reflexivity.
Qed.

End Invariant.

Section LookupFacts.
Variable PathConf : Type.
Variable confError : Type.
Variable CheckAndFillMissing : PathConf -> string -> confError + PathConf.
Variable context : Type.
Variable path : Type.
Variable newPath : context -> string -> PathConf -> path.
Variable closePath : path -> path.
Variable pathErr : Type.
Variable isNoOnePublishing : pathErr -> bool.
Variable rtspSession : Type.
Variable stream : Type.
Variable logFunc : Type.
Variable publisherAnswer : Type.
Variable readerAnswer : Type.
Variable streamGet : path -> pathErr + stream.
Variable pathPublisherAdd : path -> rtspSession -> path * publisherAnswer.
Variable pathReaderAdd : path -> rtspSession -> path * readerAnswer.
Variable logf : path -> logFunc.

Local Abbreviation acts := (acts PathConf confError CheckAndFillMissing context path newPath closePath).
Local Abbreviation onDescribe := (onDescribe PathConf path pathErr isNoOnePublishing stream streamGet).
Local Abbreviation publisherAdd := (publisherAdd PathConf path rtspSession publisherAnswer pathPublisherAdd).
Local Abbreviation readerAdd := (readerAdd PathConf path rtspSession readerAnswer pathReaderAdd).
Local Abbreviation pathLogfByName := (pathLogfByName PathConf path logFunc logf).


End LookupFacts.

(** The manager of the package test, with one path added. *)
Definition testActions : list (action string nat) := [Add 0%nat "mypath" "x"].

Definition testSystem : system string (string * bool) :=
  {| sysManager := {| pathConfs := {[ "mypath" := "x" ]};
                      paths := {[ "mypath" := ("mypath", false) ]} |};
     waiting := ["mypath"] |}.

Lemma AddPath_round_trip_witness :
  (forall config,
      monitorCheck "y" "other" = inr config ->
      exists mid,
        act string string monitorCheck nat (string * bool) testNewPath testClose
            testSystem (Add 1%nat "other" "y") = Some mid
        /\ pathExist (sysManager mid) "other" = true
        /\ paths (sysManager mid) !! "other"
           = Some (testNewPath 1%nat "other" config)
        /\ act string string monitorCheck nat (string * bool) testNewPath
               testClose mid (Done "other") = Some testSystem)
  /\ (forall err,
        monitorCheck "y" "other" = inl err ->
        act string string monitorCheck nat (string * bool) testNewPath testClose
            testSystem (Add 1%nat "other" "y") = Some testSystem).
Proof.
  apply (AddPath_round_trip string string monitorCheck nat (string * bool)
           testNewPath testClose testActions testSystem 1%nat "other" "y").
  - vm_compute. reflexivity.
  - vm_compute. reflexivity.
Defined.

(** The two cases on the test manager: the configuration ["y"] passes and
    makes the round trip, the empty one is refused and changes nothing. *)
Lemma AddPath_round_trip_cases :
  monitorCheck "y" "other" = inr "y"
  /\ monitorCheck "" "other" = inl "MonitorID missing"
  /\ acts string string monitorCheck nat (string * bool) testNewPath testClose
          newSystem testActions = Some testSystem
  /\ acts string string monitorCheck nat (string * bool) testNewPath testClose
          testSystem [Add 1%nat "other" "y"; Done "other"] = Some testSystem
  /\ acts string string monitorCheck nat (string * bool) testNewPath testClose
          testSystem [Add 1%nat "other" ""] = Some testSystem.
Proof. vm_compute. repeat split. Qed.

(** Path methods for the test manager: a path is its name and whether it
    has a publisher; a session carries its own name. *)
Definition testStreamGet (p : string * bool) : string + string :=
  if p.2 then inr p.1 else inl "no one is publishing".

Definition testPublisherAdd (p : string * bool) (session : string)
  : (string * bool) * option string :=
  if p.2 then (p, Some "already publishing") else ((p.1, true), None).

Definition testReaderAdd (p : string * bool) (session : string)
  : (string * bool) * (string + string) := (p, testStreamGet p).

Local Abbreviation testOnDescribe :=
  (onDescribe string (string * bool) string
              (fun e => String.eqb e "no one is publishing") string
              testStreamGet).
Local Abbreviation testPublisher :=
  (publisherAdd string (string * bool) string (option string) testPublisherAdd).
Local Abbreviation testReader :=
  (readerAdd string (string * bool) string (string + string) testReaderAdd).
Local Abbreviation testLogf :=
  (pathLogfByName string (string * bool) string fst).


End ManagerFacts.

(** ** Hooks *)

Module HookFacts.
Import Nvr.

Section Facts.
Variable ConfigEnv : Type.
Variable hookError : Type.
Variable context : Type.
Variable Monitor : Type.
Variable World : Type.

Local Abbreviation hookList :=
  (hookList ConfigEnv hookError context Monitor World).

(** The page files after the hooks of [hooks] that ran without error. *)
Definition afterHooks (hooks : list (tplHook hookError))
  (pageFiles : gmap string string) : gmap string string :=
  fold_left (fun p hook => (hook p).1) hooks pageFiles.

Lemma tplLoop_spec (hooks : list (tplHook hookError))
  (pageFiles : gmap string string) :
  match tplLoop hooks pageFiles with
  | (pageFiles', None) =>
      pageFiles' = afterHooks hooks pageFiles
      /\ forall before hook after,
           hooks = (before ++ hook :: after)%list ->
           (hook (afterHooks before pageFiles)).2 = None
  | (pageFiles', Some err) =>
      exists before hook after,
        hooks = (before ++ hook :: after)%list
        /\ (forall b1 h1 b2, before = (b1 ++ h1 :: b2)%list ->
                             (h1 (afterHooks b1 pageFiles)).2 = None)
        /\ hook (afterHooks before pageFiles) = (pageFiles', Some err)
  end.
Proof.
  revert pageFiles. induction hooks as [|hook rest IH]; intros pageFiles.
  - cbn [tplLoop]. split; [reflexivity|].
    intros before hook after H. now destruct before.
  - cbn [tplLoop]. destruct (hook pageFiles) as [p [err|]] eqn:Hh.
    + exists [], hook, rest. split; [reflexivity|]. split; [|exact Hh].
      intros b1 h1 b2 H. now destruct b1.
    + specialize (IH p).
      assert (forall l, afterHooks (hook :: l) pageFiles = afterHooks l p) as Hstep
          by (intros l; unfold afterHooks; cbn [fold_left]; now rewrite Hh).
      destruct (tplLoop rest p) as [p' [err|]].
      * destruct IH as (before & hk & after & -> & Hbefore & Hfail).
        exists (hook :: before), hk, after. split; [reflexivity|].
        split; [|now rewrite Hstep].
        intros b1 h1 b2 H. destruct b1 as [|x b1].
        -- injection H as <- _. cbn. now rewrite Hh.
        -- injection H as <- ->. rewrite Hstep. now apply (Hbefore b1 h1 b2).
      * destruct IH as [-> Hall]. split; [now rewrite Hstep|].
        intros before hk after H. destruct before as [|x before].
        -- injection H as <- _. cbn. now rewrite Hh.
        -- injection H as <- ->. rewrite Hstep. now apply (Hall before hk after).
Qed.

(** X19.  [tpl] runs the template hooks in the order of their registration,
    each on the page files as the one before left them, up to the first
    one that returns an error: that error is returned and the hooks after
    it do not run.  It returns nil exactly when every hook did. *)
Theorem tpl_first_error (h : hookList) (pageFiles : gmap string string) :
  match tpl h pageFiles with
  | (pageFiles', None) =>
      pageFiles' = afterHooks (template h) pageFiles
      /\ forall before hook after,
           template h = (before ++ hook :: after)%list ->
           (hook (afterHooks before pageFiles)).2 = None
  | (pageFiles', Some err) =>
      exists before hook after,
        template h = (before ++ hook :: after)%list
        /\ (forall b1 h1 b2, before = (b1 ++ h1 :: b2)%list ->
                             (h1 (afterHooks b1 pageFiles)).2 = None)
        /\ hook (afterHooks before pageFiles) = (pageFiles', Some err)
  end.
Proof. unfold tpl. apply tplLoop_spec. Qed.

(** X20.  Hooks run in the order in which they were registered, and each
    kind has a list of its own: a hook registered for the main process is
    run by [StartMain] after the hooks registered before it, on the
    arguments they left, and is run neither by [StartSub] nor by [Start];
    likewise for the other kinds, and for the environment and template
    hooks. *)
Theorem hooks_in_order (h : hookList)
  (fe : envHook ConfigEnv) (ft : tplHook hookError)
  (fs : StartHook context Monitor World)
  (fm fb : StartInputHook context Monitor World)
  (ctx : context) (m : Monitor) (e : ConfigEnv) (w : World)
  (args : World * string) (pageFiles : gmap string string) :
  let all :=
    RegisterMonitorSubProcessHook fb
      (RegisterMonitorMainProcessHook fm
         (RegisterMonitorStartHook fs
            (RegisterTplHook ft (RegisterEnvHook fe h)))) in
  env all e = fe (env h e)
  /\ Start (monitor all) ctx m w = fs ctx m (Start (monitor h) ctx m w)
  /\ StartMain (monitor all) ctx m args
     = fm ctx m (StartMain (monitor h) ctx m args)
  /\ StartSub (monitor all) ctx m args
     = fb ctx m (StartSub (monitor h) ctx m args)
  /\ tpl all pageFiles
     = match tpl h pageFiles with
       | (p, None) => ft p
       | (p, Some err) => (p, Some err)
       end.
Proof.
  intros all. subst all. unfold env, monitor, tpl.
  cbn [onEnvLoad template monitorStart monitorMainProcess monitorSubProcess
       RegisterEnvHook RegisterTplHook RegisterMonitorStartHook
       RegisterMonitorMainProcessHook RegisterMonitorSubProcessHook
       Start StartMain StartSub].
  rewrite !fold_left_app. cbn [fold_left].
  repeat split.
  generalize (template h). intros hooks. revert pageFiles.
  induction hooks as [|hook rest IH]; intros pageFiles; cbn [app tplLoop].
  - now destruct (ft pageFiles) as [p [err|]].
  - destruct (hook pageFiles) as [p [err|]]; [reflexivity|apply IH].
Qed.

End Facts.

End HookFacts.

(** ** Readers of a stream *)

Module ReaderFacts.
Import Gortsplib StreamFacts.

Lemma track_insert_eq (st : ServerStream) (trackID : Z) (t t0 : serverStreamTrack) :
  track st trackID = Some t0 ->
  track {| stTracks := <[Z.to_nat trackID := t]> (stTracks st);
           readersUnicast := readersUnicast st; readers := readers st |}
        trackID = Some t.
Proof.
  unfold track. destruct (trackID <? 0); [discriminate|]. cbn [stTracks].
  intros H. apply list_lookup_insert_eq. now apply lookup_lt_Some in H.
Qed.

Lemma track_insert_ne (st : ServerStream) (trackID other : Z) (t : serverStreamTrack) :
  0 <= trackID -> other <> trackID ->
  track {| stTracks := <[Z.to_nat trackID := t]> (stTracks st);
           readersUnicast := readersUnicast st; readers := readers st |}
        other = track st other.
Proof.
  intros H0 Hne. unfold track. destruct (Z.ltb_spec other 0); [reflexivity|].
  cbn [stTracks]. apply list_lookup_insert_ne. lia.
Qed.

Lemma track_in_range (st : ServerStream) (trackID : Z) :
  is_Some (track st trackID) <-> 0 <= trackID < Z.of_nat (length (stTracks st)).
Proof.
  unfold track. destruct (Z.ltb_spec trackID 0).
  - split; [intros [? ?]; discriminate|lia].
  - rewrite lookup_lt_is_Some. lia.
Qed.

Lemma WritePacketRTP_ok (Marshal : Packet -> option string)
  (ServerSession : Type)
  (writePacketRTP : ServerSession -> Z -> string -> ServerSession)
  (st : ServerStream) (h : heap ServerSession) (trackID : Z) (pkt : Packet)
  (now : Z) (byts : string) :
  Marshal pkt = Some byts ->
  0 <= trackID < Z.of_nat (length (stTracks st)) ->
  WritePacketRTP Marshal ServerSession writePacketRTP st h trackID pkt now
  = Ok (let st' :=
          {| stTracks :=
               <[Z.to_nat trackID :=
                   {| lastSequenceNumber := uint32 (SequenceNumber pkt);
                      lastTimeRTP := Timestamp pkt;
                      lastTimeNTP := now;
                      lastSSRC := SSRC pkt |}]> (stTracks st);
             readersUnicast := readersUnicast st;
             readers := readers st |} in
        (st', fanOut ServerSession writePacketRTP st' h trackID byts)).
Proof.
  intros HM Hr. unfold WritePacketRTP. rewrite HM.
  destruct (Z.ltb_spec trackID 0); [lia|].
  destruct (lookup_lt_is_Some_2 (stTracks st) (Z.to_nat trackID) ltac:(lia))
    as [t ->].
  reflexivity.
Qed.

Lemma mod_mod_32 (a : Z) : (a mod 2 ^ 64) mod 2 ^ 32 = a mod 2 ^ 32.
Proof.
  change (2 ^ 64) with (2 ^ 32 * 2 ^ 32).
  rewrite Z.rem_mul_r by lia.
  rewrite Z.mul_comm, Z.mod_add by lia. apply Z.mod_mod. lia.
Qed.

(** X21.  What [WritePacketRTP] stores for a track is what the three getters
    read back: the SSRC, the sequence number, and the RTP time stamp moved
    on by the clock ticks since, modulo 2^32; but a packet whose RTP time
    stamp is 0, or one written at Unix time 0, makes [timestamp] answer 0
    whatever time has passed.  The other tracks are as they were. *)
Theorem WritePacketRTP_read_back (Marshal : Packet -> option string)
  (ServerSession : Type)
  (writePacketRTP : ServerSession -> Z -> string -> ServerSession)
  (st : ServerStream) (h : heap ServerSession) (trackID : Z) (pkt : Packet)
  (now ticks : Z) (byts : string) :
  Marshal pkt = Some byts ->
  0 <= trackID < Z.of_nat (length (stTracks st)) ->
  0 <= SequenceNumber pkt < 2 ^ 16 -> 0 <= Timestamp pkt < 2 ^ 32 ->
  exists st' h',
    WritePacketRTP Marshal ServerSession writePacketRTP st h trackID pkt now
    = Ok (st', h')
    /\ ssrc st' trackID = Ok (SSRC pkt)
    /\ lastSequenceNumberOf st' trackID = Ok (SequenceNumber pkt)
    /\ timestamp st' trackID ticks
       = Ok (if (Timestamp pkt =? 0) || (now =? 0) then 0
             else uint32 (Timestamp pkt + ticks))
    /\ forall other, other <> trackID -> track st' other = track st other.
Proof.
  intros HM Hr Hseq Hts.
  rewrite (WritePacketRTP_ok _ _ _ _ _ _ _ _ _ HM Hr). cbv zeta.
  eexists. eexists. split; [reflexivity|].
  destruct (proj2 (track_in_range st trackID) Hr) as [t0 Ht0].
  unfold ssrc, lastSequenceNumberOf, timestamp.
  rewrite (track_insert_eq st trackID _ t0 Ht0).
  cbn [lastSSRC lastSequenceNumber lastTimeRTP lastTimeNTP].
  split; [reflexivity|]. split; [|split].
  - f_equal. unfold uint16, uint32.
    rewrite (Z.mod_small (SequenceNumber pkt) (2 ^ 32)) by lia.
    apply Z.mod_small. lia.
  - destruct ((Timestamp pkt =? 0) || (now =? 0)); [reflexivity|].
    f_equal. unfold uint32, uint64.
    rewrite (Z.mod_small (Timestamp pkt) (2 ^ 64)) by lia.
    apply mod_mod_32.
  - intros other Hne. apply track_insert_ne; lia.
Qed.

Lemma WritePacketRTP_read_back_witness :
  exists st' h',
    WritePacketRTP wordsMarshal (list (Z * string)) logWrite
                   oneTrack twoSessions 0 goodPacket 1600000001
    = Ok (st', h')
    /\ ssrc st' 0 = Ok (SSRC goodPacket)
    /\ lastSequenceNumberOf st' 0 = Ok (SequenceNumber goodPacket)
    /\ timestamp st' 0 45000
       = Ok (if (Timestamp goodPacket =? 0) || (1600000001 =? 0) then 0
             else uint32 (Timestamp goodPacket + 45000))
    /\ forall other, other <> 0 -> track st' other = track oneTrack other.
Proof.
  apply (WritePacketRTP_read_back wordsMarshal (list (Z * string)) logWrite
           oneTrack twoSessions 0 goodPacket 1600000001 45000 "frame");
    try reflexivity; cbn; lia.
Defined.


(** *** Who receives *)

(** The calls a session makes on the stream while it lives. *)
Inductive readerOp : Type :=
| DoAdd (ss : positive)
| DoRemove (ss : positive)
| DoSetActive (ss : positive)
| DoSetInactive (ss : positive).

Section History.
Variable Server : Type.
Variable ServerSession : Type.
Variable sessionServer : ServerSession -> Server.
Variable Marshal : Packet -> option string.
Variable writePacketRTP : ServerSession -> Z -> string -> ServerSession.

Definition applyOp (h : heap ServerSession) (x : stream Server) (op : readerOp)
  : result unit (stream Server) :=
  match op with
  | DoAdd ss => readerAdd sessionServer x h ss
  | DoRemove ss => Ok (readerRemove x ss)
  | DoSetActive ss => readerSetActive x ss
  | DoSetInactive ss => Ok (readerSetInactive x ss)
  end.

Fixpoint applyOps (h : heap ServerSession) (x : stream Server)
  (ops : list readerOp) : result unit (stream Server) :=
  match ops with
  | [] => Ok x
  | op :: rest =>
      match applyOp h x op with
      | Ok x' => applyOps h x' rest
      | Err e => Err e
      | Panic => Panic
      end
  end.

(** Whether the session was set active and not set inactive since. *)
Definition activeStep (r : positive) (b : bool) (op : readerOp) : bool :=
  match op with
  | DoSetActive ss => if bool_decide (ss = r) then true else b
  | DoSetInactive ss => if bool_decide (ss = r) then false else b
  | _ => b
  end.

Definition activeAfter (ops : list readerOp) (r : positive) : bool :=
  fold_left (activeStep r) ops false.

Lemma applyOp_active (h : heap ServerSession) (x x' : stream Server)
  (op : readerOp) (r : positive) (b : bool) :
  applyOp h x op = Ok x' ->
  (r ∈ readersUnicast (st x) <-> b = true) ->
  length (stTracks (st x')) = length (stTracks (st x))
  /\ (r ∈ readersUnicast (st x') <-> activeStep r b op = true).
Proof.
  intros Hop Hb. destruct op as [ss|ss|ss|ss]; cbn [applyOp activeStep] in *.
  - unfold readerAdd in Hop. destruct (h !! ss); [|discriminate].
    destruct (readersNil x); [discriminate|]. injection Hop as <-.
    cbn [st stTracks readersUnicast]. auto.
  - injection Hop as <-. cbn [readerRemove st stTracks readersUnicast]. auto.
  - unfold readerSetActive in Hop.
    destruct (readersUnicastNil x); [discriminate|]. injection Hop as <-.
    cbn [st stTracks readersUnicast]. split; [reflexivity|].
    rewrite elem_of_union, elem_of_singleton.
    destruct (bool_decide_reflect (ss = r)) as [->|Hne]; [tauto|].
    rewrite <- Hb. split; [intros [?|?]; [congruence|assumption]|auto].
  - injection Hop as <-. cbn [readerSetInactive st stTracks readersUnicast].
    split; [reflexivity|].
    rewrite elem_of_difference, elem_of_singleton.
    destruct (bool_decide_reflect (ss = r)) as [->|Hne].
    + split; [intros [_ ?]; congruence|discriminate].
    + rewrite <- Hb. split; [tauto|]. intros ?. split; [assumption|congruence].
Qed.

Lemma applyOps_active (h : heap ServerSession) (ops : list readerOp)
  (x x' : stream Server) (r : positive) (b : bool) :
  applyOps h x ops = Ok x' ->
  (r ∈ readersUnicast (st x) <-> b = true) ->
  length (stTracks (st x')) = length (stTracks (st x))
  /\ (r ∈ readersUnicast (st x') <-> fold_left (activeStep r) ops b = true).
Proof.
  revert x b. induction ops as [|op ops IH]; intros x b Hrun Hb.
  - injection Hrun as <-. auto.
  - cbn [applyOps] in Hrun.
    destruct (applyOp h x op) as [x1| |] eqn:Hop; try discriminate.
    destruct (applyOp_active h x x1 op r b Hop Hb) as [Hlen Hb1].
    destruct (IH x1 _ Hrun Hb1) as [Hlen' Hb'].
    split; [congruence|exact Hb'].
Qed.

(** X22.  A packet goes to the sessions that are active, and to no others:
    after any calls of [readerAdd], [readerRemove], [readerSetActive] and
    [readerSetInactive] on a new stream, [WritePacketRTP] hands the bytes
    to a session exactly if its last call of the latter two was
    [readerSetActive].  Being added as a reader is not enough, and being
    removed as one does not end it. *)
Theorem WritePacketRTP_delivery (tracks : nat) (ops : list readerOp)
  (x : stream Server) (h : heap ServerSession) (trackID : Z) (pkt : Packet)
  (now : Z) (byts : string) :
  applyOps h (NewServerStream tracks) ops = Ok x ->
  Marshal pkt = Some byts ->
  0 <= trackID < Z.of_nat tracks ->
  exists st' h',
    WritePacketRTP Marshal ServerSession writePacketRTP (st x) h trackID pkt now
    = Ok (st', h')
    /\ forall r,
         h' !! r
         = (fun ss => if activeAfter ops r then writePacketRTP ss trackID byts
                      else ss) <$> h !! r.
Proof.
  intros Hrun HM Hr.
  assert (forall r, length (stTracks (st x)) = tracks
                    /\ (r ∈ readersUnicast (st x) <-> activeAfter ops r = true))
    as Hact.
  { intros r.
    destruct (applyOps_active h ops (NewServerStream tracks) x r false Hrun)
      as [Hlen Hb].
    - cbn [NewServerStream st readersUnicast]. rewrite elem_of_empty.
      split; [tauto|discriminate].
    - split; [|exact Hb]. rewrite Hlen.
      cbn [NewServerStream st stTracks]. apply length_replicate. }
  rewrite (WritePacketRTP_ok _ _ _ _ _ _ _ _ _ HM); cbv zeta.
  2:{ destruct (Hact 1%positive) as [-> _]. exact Hr. }
  eexists. eexists. split; [reflexivity|].
  intros r. unfold fanOut. unfold heap in *; rewrite map_lookup_imap.
  cbn [readersUnicast].
  destruct (h !! r) as [ss|]; [|reflexivity]. cbn.
  destruct (Hact r) as [_ Hb].
  destruct (bool_decide_reflect (r ∈ readersUnicast (st x))) as [Hin|Hnin].
  - now rewrite (proj1 Hb Hin).
  - destruct (activeAfter ops r); [|reflexivity]. exfalso. tauto.
Qed.

End History.

Section Closing.
Variable Server : Type.
Variable ServerSession : Type.
Variable sessionServer : ServerSession -> Server.
Variable closeSession : ServerSession -> ServerSession.
Variable Marshal : Packet -> option string.
Variable writePacketRTP : ServerSession -> Z -> string -> ServerSession.

(** X23.  After [Close] the stream is dead for readers.  [Close] closes
    every session that was added as a reader and no other.  Afterwards a
    packet reaches no session, [readerRemove] and [readerSetInactive]
    change nothing, and [readerAdd] and [readerSetActive] panic: both maps
    are nil. *)
Theorem Close_then (x : stream Server) (h : heap ServerSession) :
  let '(x', h') := Close closeSession x h in
  (forall r,
      h' !! r = (fun ss => if bool_decide (r ∈ readers (st x))
                           then closeSession ss else ss) <$> h !! r)
  /\ (forall trackID pkt now,
         match WritePacketRTP Marshal ServerSession writePacketRTP
                              (st x') h' trackID pkt now with
         | Ok (_, h'') => h'' = h'
         | _ => True
         end)
  /\ (forall ss,
         readerAdd sessionServer x' h' ss = Panic
         /\ readerSetActive x' ss = Panic
         /\ readerRemove x' ss = x'
         /\ readerSetInactive x' ss = x').
Proof.
  cbn [Close]. split; [|split].
  - intros r. unfold heap in *; rewrite map_lookup_imap. now destruct (h !! r).
  - intros trackID pkt now. unfold WritePacketRTP.
    destruct (Marshal pkt) as [byts|]; [|reflexivity].
    destruct (trackID <? 0); [exact I|].
    cbn [st stTracks].
    destruct (stTracks (st x) !! Z.to_nat trackID); [|exact I].
    unfold fanOut, heap in *. cbn [readersUnicast]. apply map_eq. intros r.
    unfold heap in *; rewrite map_lookup_imap.
    match goal with |- (?m !! r ≫= _) = _ => destruct (m !! r) end;
      reflexivity.
  - intros ss. unfold readerAdd, readerSetActive, readerRemove,
      readerSetInactive. cbn [readersNil readersUnicastNil st s stTracks
                              readersUnicast readers].
    split; [|split; [reflexivity|split]].
    + match goal with |- match ?m !! ss with _ => _ end = _ =>
        destruct (m !! ss) end; reflexivity.
    + do 2 f_equal. apply leibniz_equiv. intros z.
      rewrite elem_of_difference, elem_of_empty. tauto.
    + do 2 f_equal. apply leibniz_equiv. intros z.
      rewrite elem_of_difference, elem_of_empty. tauto.
Qed.

End Closing.

Definition zeroTrack : serverStreamTrack :=
  {| lastSequenceNumber := 0; lastTimeRTP := 0; lastTimeNTP := 0;
     lastSSRC := 0 |}.

Lemma NewServerStream_track (Server : Type) (n : nat) (trackID : Z) :
  track (st (NewServerStream (Server := Server) n)) trackID
  = if (0 <=? trackID) && (trackID <? Z.of_nat n) then Some zeroTrack
    else None.
Proof.
  unfold track. cbn [NewServerStream st stTracks].
  destruct (Z.ltb_spec trackID 0); [destruct (Z.leb_spec 0 trackID); [lia|reflexivity]|].
  destruct (Z.leb_spec 0 trackID); [|lia]. cbn [andb].
  destruct (Z.ltb_spec trackID (Z.of_nat n)).
  - apply lookup_replicate. split; [reflexivity|lia].
  - apply lookup_ge_None. rewrite length_replicate. lia.
Qed.

(** X24.  A new stream of [n] tracks has the tracks 0 to [n - 1].  For these
    the getters read 0 until a packet is written, and for every other
    track id they panic; [WritePacketRTP] panics exactly when the packet
    marshals and the track id is not one of them. *)
Theorem NewServerStream_tracks (Server : Type)
  (Marshal : Packet -> option string) (ServerSession : Type)
  (writePacketRTP : ServerSession -> Z -> string -> ServerSession)
  (n : nat) (h : heap ServerSession) (trackID : Z) (pkt : Packet)
  (now ticks : Z) :
  let x : stream Server := NewServerStream n in
  (0 <= trackID < Z.of_nat n ->
   ssrc (st x) trackID = Ok 0
   /\ lastSequenceNumberOf (st x) trackID = Ok 0
   /\ timestamp (st x) trackID ticks = Ok 0)
  /\ (~ 0 <= trackID < Z.of_nat n ->
      ssrc (st x) trackID = Panic
      /\ lastSequenceNumberOf (st x) trackID = Panic
      /\ timestamp (st x) trackID ticks = Panic)
  /\ (WritePacketRTP Marshal ServerSession writePacketRTP (st x) h trackID
                     pkt now = Panic
      <-> is_Some (Marshal pkt) /\ ~ 0 <= trackID < Z.of_nat n).
Proof.
  intros x. pose proof (NewServerStream_track Server n trackID) as Ht.
  fold x in Ht.
  assert (WritePacketRTP Marshal ServerSession writePacketRTP (st x) h trackID
                         pkt now = Panic
          <-> is_Some (Marshal pkt) /\ track (st x) trackID = None) as Hw.
  { unfold WritePacketRTP, track. destruct (Marshal pkt) as [byts|].
    - destruct (trackID <? 0); [split; eauto|].
      destruct (stTracks (st x) !! Z.to_nat trackID).
      + split; [discriminate|]. intros [_ ?]. discriminate.
      + split; eauto.
    - split; [discriminate|]. intros [[? ?] _]. discriminate. }
  rewrite Hw. unfold ssrc, lastSequenceNumberOf, timestamp. rewrite Ht.
  destruct (Z.leb_spec 0 trackID) as [H0|H0],
    (Z.ltb_spec trackID (Z.of_nat n)) as [Hn|Hn]; cbn [andb].
  - split; [intros _; repeat split|].
    split; [intros Hr; lia|].
    split; [intros [_ ?]; discriminate|intros [_ Hr]; lia].
  - split; [intros Hr; lia|].
    split; [intros _; repeat split|].
    split; [intros [? _]; split; [assumption|lia]|intros [? _]; now split].
  - split; [intros Hr; lia|].
    split; [intros _; repeat split|].
    split; [intros [? _]; split; [assumption|lia]|intros [? _]; now split].
  - split; [intros Hr; lia|].
    split; [intros _; repeat split|].
    split; [intros [? _]; split; [assumption|lia]|intros [? _]; now split].
Qed.

(** Two sessions on a stream of one track: both are added and set active,
    the second is set inactive again, the first is removed as a reader. *)
Definition testOps : list readerOp :=
  [DoAdd 1; DoAdd 2; DoSetActive 1; DoSetActive 2; DoSetInactive 2;
   DoRemove 1]%positive.

Definition afterTestOps : stream unit :=
  {| st := {| stTracks := [zeroTrack];
              readersUnicast := {[ 1%positive ]};
              readers := {[ 2%positive ]} |};
     s := Some tt;
     readersNil := false;
     readersUnicastNil := false |}.

Lemma WritePacketRTP_delivery_witness :
  exists st' h',
    WritePacketRTP wordsMarshal (list (Z * string)) logWrite
                   (st afterTestOps) twoSessions 0 goodPacket 1600000001
    = Ok (st', h')
    /\ forall r,
         h' !! r
         = (fun ss => if activeAfter testOps r then logWrite ss 0 "frame"
                      else ss) <$> twoSessions !! r.
Proof.
  apply (WritePacketRTP_delivery unit (list (Z * string)) (fun _ => tt)
           wordsMarshal logWrite 1 testOps afterTestOps twoSessions 0
           goodPacket 1600000001 "frame").
  - vm_compute. reflexivity.
  - reflexivity.
  - lia.
Defined.

End ReaderFacts.
